(** * Declaration parsing and AST building (lib/Parse/ParseDecl.cpp)

    A shallow embedding of the declaration parser: the token cursor, the
    diagnostic list, the AST arena, the scope registry and the current
    declaration context are the fields of one parser state, and every
    parsing routine is a state-passing function over it.  Routines that
    live in other files of the parser (the type, expression and statement
    parsers) are section variables; the small token and scope helpers are
    modelled from the specification and marked as such. *)

From Stdlib Require Import Bool Arith ZArith Lia String Ascii.
From stdpp Require Import base list.

Local Open Scope string_scope.
Local Open Scope list_scope.
Set Warnings "-register-all".

(** ** Tokens *)

Inductive tok : Set :=
| tok_unknown | tok_eof
| tok_identifier | tok_oper | tok_numeric_constant
| tok_l_paren | tok_l_paren_space | tok_r_paren
| tok_l_brace | tok_r_brace | tok_l_square | tok_r_square
| tok_comma | tok_colon | tok_coloncolon | tok_equal | tok_period | tok_arrow
| kw_import | kw_extension | kw_var | kw_typealias | kw_oneof | kw_struct
| kw_protocol | kw_func.

Definition tok_eqb (a b : tok) : bool :=
  match a, b with
  | tok_unknown, tok_unknown | tok_eof, tok_eof
  | tok_identifier, tok_identifier | tok_oper, tok_oper
  | tok_numeric_constant, tok_numeric_constant
  | tok_l_paren, tok_l_paren | tok_l_paren_space, tok_l_paren_space
  | tok_r_paren, tok_r_paren | tok_l_brace, tok_l_brace
  | tok_r_brace, tok_r_brace | tok_l_square, tok_l_square
  | tok_r_square, tok_r_square | tok_comma, tok_comma
  | tok_colon, tok_colon | tok_coloncolon, tok_coloncolon
  | tok_equal, tok_equal | tok_period, tok_period | tok_arrow, tok_arrow
  | kw_import, kw_import | kw_extension, kw_extension | kw_var, kw_var
  | kw_typealias, kw_typealias | kw_oneof, kw_oneof | kw_struct, kw_struct
  | kw_protocol, kw_protocol | kw_func, kw_func => true
  | _, _ => false
  end.

Definition SourceLoc := nat.
Definition Identifier := string.

Record Token := mkToken { getKind : tok; getText : string; getLoc : SourceLoc }.

Definition Token_is (T : Token) (K : tok) : bool := tok_eqb (getKind T) K.
Definition Token_isNot (T : Token) (K : tok) : bool := negb (Token_is T K).

Definition eofToken : Token := mkToken tok_eof "" 0.

(** ** Diagnostics *)

Inductive diag : Set :=
| duplicate_attribute | expected_precedence_value | invalid_precedence
| unknown_attribute | expected_attribute_name | expected_in_attribute_list
| opening_bracket | opening_brace | opening_paren
| expected_decl | import_inner_scope | disallowed_var_decl | operator_in_decl
| decl_expected_module_name | expected_identifier_in_decl | import_attributes
| expected_lbrace_oneof_type | expected_rbrace_extension
| expected_lparen_var_name | expected_rparen_var_name
| expected_colon_in_typealias | expected_type_in_typealias | expected_type
| invalid_index_in_var_name_path | non_simple_var | func_decl_without_paren
| invalid_diagnostic | expected_type_oneof_element | expected_rbrace_oneof_type
| oneof_attributes | duplicate_oneof_element | previous_definition
| expected_lbrace_struct | struct_unnamed_member | expected_rbrace_struct
| expected_lbrace_protocol_type | expected_protocol_member | protocol_attributes.

Record Diagnostic := mkDiag { DiagLoc : SourceLoc; DiagID : diag; DiagArg : string }.

(** ** Types and declarations *)

Definition DeclId := nat.

Inductive Ty :=
| DependentType
| FunctionType (Input Result : Ty)
| TupleType (Fields : list (Ty * Identifier))
| NameAliasType (TheDecl : DeclId)
| OneOfType (TypeId : nat)
| ProtocolType (TypeId : nat).

(** A possibly-null [Type] handle. *)
Definition Type_ := option Ty.

Definition isaFunctionType (T : Ty) : bool :=
  match T with FunctionType _ _ => true | _ => false end.

Definition isaTupleType (T : Ty) : bool :=
  match T with TupleType _ => true | _ => false end.

Definition TupleType_getEmpty : Ty := TupleType [].

(** Whether an arrow is spelled anywhere inside the written type. *)
Fixpoint containsArrow (T : Ty) : bool :=
  match T with
  | FunctionType _ _ => true
  | TupleType Fields => existsb (fun Elt => containsArrow (fst Elt)) Fields
  | _ => false
  end.

Inductive DeclContext :=
| DC_Null
| DC_TranslationUnit
| DC_FuncExpr (FE : nat)
| DC_OneOfType (TypeId : nat)
| DC_ProtocolType (TypeId : nat).

Inductive Associativity := Assoc_None | Assoc_Left | Assoc_Right.

Record InfixData := mkInfixData { getPrecedence : Z; getAssociativity : Associativity }.

Record DeclAttributes := mkDeclAttributes {
  LSquareLoc : SourceLoc;
  RSquareLoc : SourceLoc;
  Infix : option InfixData
}.

Definition noAttributes : DeclAttributes := mkDeclAttributes 0 0 None.

Definition isInfix (A : DeclAttributes) : bool :=
  match Infix A with Some _ => true | None => false end.

(** Modelled from the spec: fixity is the only recognized attribute, so an
    attribute record is empty exactly when it carries no fixity. *)
Definition Attributes_empty (A : DeclAttributes) : bool := negb (isInfix A).

Inductive DeclVarName :=
| VarNameSimple (Id : Identifier) (Loc : SourceLoc)
| VarNameTuple (LPLoc : SourceLoc) (Elements : list DeclVarName) (RPLoc : SourceLoc).

Definition DeclVarName_isSimple (N : DeclVarName) : bool :=
  match N with VarNameSimple _ _ => true | VarNameTuple _ _ _ => false end.

(** Expression and statement nodes belong to other parsers: handles only. *)
Record Expr := mkExpr { ExprNode : nat }.
Record Stmt := mkStmt { StmtNode : nat }.

Inductive DeclKind :=
| ImportDecl (Path : list (Identifier * SourceLoc))
| ExtensionDecl (ExtendedTy : Ty) (Members : list (option DeclId))
| TypeAliasDecl (Name : Identifier) (Underlying : Type_)
| VarDecl (Name : Identifier) (NestedName : option DeclVarName) (VarTy : Ty)
          (Init : option Expr) (Attrs : DeclAttributes)
| ElementRefDecl (VD : DeclId) (Name : Identifier) (AccessPath : list nat)
                 (EltTy : Ty)
| FuncDecl (Name : Identifier) (FuncTy : Ty) (Body : option nat)
           (Attrs : DeclAttributes)
| OneOfElementDecl (Name : Identifier) (EltTy : Ty) (ArgumentType : Type_).

Record Decl := mkDecl {
  getDeclKind : DeclKind;
  getLocStart : SourceLoc;
  getDeclContext : DeclContext
}.

Definition Decl_getName (D : Decl) : Identifier :=
  match getDeclKind D with
  | TypeAliasDecl N _ | VarDecl N _ _ _ _ | ElementRefDecl _ N _ _
  | FuncDecl N _ _ _ | OneOfElementDecl N _ _ => N
  | ImportDecl _ | ExtensionDecl _ _ => ""
  end.

Record OneOfTypeInfo := mkOneOfType {
  OneOfLoc : SourceLoc;
  Elements : list DeclId;
  OneOfParent : DeclContext
}.

Record ProtocolTypeInfo := mkProtocolType {
  ProtocolLoc : SourceLoc;
  ProtocolElements : list DeclId;
  ProtocolParent : DeclContext
}.

Record FuncExprInfo := mkFuncExpr {
  FuncExprLoc : SourceLoc;
  FuncExprTy : Ty;
  FuncExprBody : option Stmt;
  FuncExprParent : DeclContext
}.

(** ** Scope registry

    Modelled from the spec: a stack of lexical frames mapping identifiers to
    declarations (kept as insertion logs, newest binding first, innermost
    frame first) together with the worklists of type aliases that were
    referenced before being defined. *)
Record ScopeInfoT := mkScopeInfo {
  Frames : list (list (Identifier * DeclId));
  UnresolvedTypeList : list DeclId;
  UnresolvedScopedTypeList : list DeclId
}.

(** ** Parser state *)

Record Parser := mkParser {
  Tok : Token;
  Lexer : list Token;
  Diags : list Diagnostic;
  DeclArena : list Decl;
  OneOfTypes : list OneOfTypeInfo;
  ProtocolTypes : list ProtocolTypeInfo;
  FuncExprs : list FuncExprInfo;
  OtherNodes : nat;
  ScopeInfo : ScopeInfoT;
  CurDeclContext : DeclContext
}.

Definition withTok (T : Token) (Lx : list Token) (P : Parser) : Parser :=
  mkParser T Lx (Diags P) (DeclArena P) (OneOfTypes P) (ProtocolTypes P)
           (FuncExprs P) (OtherNodes P) (ScopeInfo P) (CurDeclContext P).
Definition withDiags (Ds : list Diagnostic) (P : Parser) : Parser :=
  mkParser (Tok P) (Lexer P) Ds (DeclArena P) (OneOfTypes P) (ProtocolTypes P)
           (FuncExprs P) (OtherNodes P) (ScopeInfo P) (CurDeclContext P).
Definition withDeclArena (A : list Decl) (P : Parser) : Parser :=
  mkParser (Tok P) (Lexer P) (Diags P) A (OneOfTypes P) (ProtocolTypes P)
           (FuncExprs P) (OtherNodes P) (ScopeInfo P) (CurDeclContext P).
Definition withOneOfTypes (O : list OneOfTypeInfo) (P : Parser) : Parser :=
  mkParser (Tok P) (Lexer P) (Diags P) (DeclArena P) O (ProtocolTypes P)
           (FuncExprs P) (OtherNodes P) (ScopeInfo P) (CurDeclContext P).
Definition withProtocolTypes (O : list ProtocolTypeInfo) (P : Parser) : Parser :=
  mkParser (Tok P) (Lexer P) (Diags P) (DeclArena P) (OneOfTypes P) O
           (FuncExprs P) (OtherNodes P) (ScopeInfo P) (CurDeclContext P).
Definition withFuncExprs (F : list FuncExprInfo) (P : Parser) : Parser :=
  mkParser (Tok P) (Lexer P) (Diags P) (DeclArena P) (OneOfTypes P)
           (ProtocolTypes P) F (OtherNodes P) (ScopeInfo P) (CurDeclContext P).
Definition withScopeInfo (S : ScopeInfoT) (P : Parser) : Parser :=
  mkParser (Tok P) (Lexer P) (Diags P) (DeclArena P) (OneOfTypes P)
           (ProtocolTypes P) (FuncExprs P) (OtherNodes P) S (CurDeclContext P).
Definition withCurDeclContext (C : DeclContext) (P : Parser) : Parser :=
  mkParser (Tok P) (Lexer P) (Diags P) (DeclArena P) (OneOfTypes P)
           (ProtocolTypes P) (FuncExprs P) (OtherNodes P) (ScopeInfo P) C.

(** ** The parsing monad: state passing with faults

    A fault is a run that leaves defined behaviour (an out-of-range vector
    access, a failed assertion, a null dereference) or a model run that
    exhausted its recursion budget. *)

Inductive Fault := OutOfBounds | AssertionFailed | NullDeref | OutOfFuel.

Inductive Res (A : Type) :=
| Ok (a : A) (P : Parser)
| Crash (F : Fault) (P : Parser).
Arguments Ok {A} a P.
Arguments Crash {A} F P.

Definition M (A : Type) := Parser -> Res A.

Definition ret {A} (a : A) : M A := fun P => Ok a P.
Definition bind {A B} (m : M A) (k : A -> M B) : M B :=
  fun P => match m P with
           | Ok a P' => k a P'
           | Crash F P' => Crash F P'
           end.
Definition crash {A} (F : Fault) : M A := fun P => Crash F P.
Definition gets {A} (f : Parser -> A) : M A := fun P => Ok (f P) P.
Definition modify (f : Parser -> Parser) : M unit := fun P => Ok tt (f P).

(** The parser state a run ends in. *)
Definition stateOf {A} (r : Res A) : Parser :=
  match r with
  | Ok _ P => P
  | Crash _ P => P
  end.

Declare Scope parse_scope.
Delimit Scope parse_scope with parse.
Notation "x <- m ;; k" := (bind m (fun x => k))
  (at level 100, m at next level, right associativity) : parse_scope.
Notation "m ;;; k" := (bind m (fun _ => k))
  (at level 100, right associativity) : parse_scope.
Local Open Scope parse_scope.

Definition assert_ (b : bool) : M unit :=
  if b then ret tt else crash AssertionFailed.

Definition when_ (b : bool) (m : M unit) : M unit := if b then m else ret tt.

(** ** Token stream and diagnostics helpers *)

(** Modelled from the spec: the diagnostic engine receives a location, a
    message kind and format arguments and returns nothing. *)
Definition diagnose (Loc : SourceLoc) (D : diag) (Arg : string) : M unit :=
  modify (fun P => withDiags (Diags P ++ [mkDiag Loc D Arg]) P).

Definition diagnoseTok (D : diag) (Arg : string) : M unit :=
  fun P => diagnose (getLoc (Tok P)) D Arg P.

(** Modelled from the spec: the consume operation of the token stream; it
    returns the location of the consumed token and lexes the next one. *)
Definition lex (Lx : list Token) : Token * list Token :=
  match Lx with
  | T :: Lx' => (T, Lx')
  | [] => (eofToken, [])
  end.

Definition consumeToken : M SourceLoc :=
  fun P => let (T, Lx) := lex (Lexer P) in Ok (getLoc (Tok P)) (withTok T Lx P).

Definition curTokIs (K : tok) : M bool := gets (fun P => Token_is (Tok P) K).

(** Modelled from the spec: consuming a token of a known kind. *)
Definition consumeTokenK (K : tok) : M SourceLoc :=
  b <- curTokIs K ;; assert_ b ;;; consumeToken.

(** Modelled from the spec: consume the current token when it has kind K. *)
Definition consumeIf (K : tok) : M bool :=
  b <- curTokIs K ;;
  if b then (consumeToken ;;; ret true) else ret false.

(** Modelled from the spec: token skipping to a synchronization set; the
    skip stops at end of file. *)
Fixpoint skipLoop (stop : Token -> bool) (T : Token) (Lx : list Token)
  : Token * list Token :=
  if stop T then (T, Lx)
  else match Lx with
       | [] => (eofToken, [])
       | T' :: Lx' => skipLoop stop T' Lx'
       end.

Definition skipUntil2 (T1 T2 : tok) : M unit :=
  modify (fun P =>
    let (T, Lx) :=
      skipLoop (fun T => Token_is T tok_eof || Token_is T T1 || Token_is T T2)
               (Tok P) (Lexer P) in
    withTok T Lx P).

Definition skipUntil (T1 : tok) : M unit :=
  modify (fun P =>
    let (T, Lx) :=
      skipLoop (fun T => Token_is T tok_eof || Token_is T T1)
               (Tok P) (Lexer P) in
    withTok T Lx P).

Definition isStartOfDecl (T : Token) : bool :=
  match getKind T with
  | kw_import | kw_extension | kw_var | kw_typealias | kw_oneof | kw_struct
  | kw_protocol | kw_func => true
  | _ => false
  end.

(** Modelled from the spec: recovery after a failed declaration skips to a
    declaration boundary: a closing brace, end of file, or the keyword that
    starts the next declaration. *)
Definition skipUntilDeclRBrace : M unit :=
  modify (fun P =>
    let (T, Lx) :=
      skipLoop (fun T => Token_is T tok_eof || Token_is T tok_r_brace
                         || isStartOfDecl T)
               (Tok P) (Lexer P) in
    withTok T Lx P).

(** Modelled from the spec: expect a token of kind K; a mismatch is
    diagnosed at the current token and reported as [true]. *)
Definition parseTokenLoc (K : tok) (D : diag) : M (bool * SourceLoc) :=
  b <- curTokIs K ;;
  if b then (Loc <- consumeTokenK K ;; ret (false, Loc))
  else (diagnoseTok D "" ;;; Loc <- gets (fun P => getLoc (Tok P)) ;;
        ret (true, Loc)).

Definition parseToken (K : tok) (D : diag) : M bool :=
  r <- parseTokenLoc K D ;; ret (fst r).

(** Modelled from the spec: a closing token is matched against its opener;
    a mismatch is diagnosed and a note points back at the opening token. *)
Definition parseMatchingToken (K : tok) (ErrorDiag : diag)
           (OtherLoc : SourceLoc) (OtherNote : diag) : M (bool * SourceLoc) :=
  r <- parseTokenLoc K ErrorDiag ;;
  if fst r then (diagnose OtherLoc OtherNote "" ;;; ret r) else ret r.

(** Modelled from the spec: a declaration name is an identifier or an
    operator token used as a name. *)
Definition parseIdentifier (D : diag) (Arg : string) : M (option Identifier) :=
  fun P =>
    if Token_is (Tok P) tok_identifier || Token_is (Tok P) tok_oper
    then (consumeToken ;;; ret (Some (getText (Tok P)))) P
    else (diagnoseTok D Arg ;;; ret None) P.

(** ** Attributes *)

Definition isInfixAttr (T : Token) : option Associativity :=
  if String.eqb (getText T) "infix_left" then Some Assoc_Left
  else if String.eqb (getText T) "infix_right" then Some Assoc_Right
  else if String.eqb (getText T) "infix" then Some Assoc_None
  else None.

Definition digitValue (c : ascii) : option Z :=
  let n := nat_of_ascii c in
  if (48 <=? n)%nat && (n <=? 57)%nat then Some (Z.of_nat (n - 48)) else None.

Fixpoint getDigits (s : string) (acc : Z) : option Z :=
  match s with
  | EmptyString => Some acc
  | String c s' =>
      match digitValue c with
      | Some d => getDigits s' (10 * acc + d)%Z
      | None => None
      end
  end.

(** Modelled from the spec: the precedence text is read as a decimal
    integer; [None] stands for a text that is not a number that fits a
    signed 64-bit integer. *)
Definition getAsInteger (s : string) : option Z :=
  match s with
  | EmptyString => None
  | _ => match getDigits s 0 with
         | Some v => if (v <=? 9223372036854775807)%Z then Some v else None
         | None => None
         end
  end.

Definition parseAttribute (Attributes : DeclAttributes) : M (bool * DeclAttributes) :=
  fun P =>
    match (if Token_is (Tok P) tok_identifier then isInfixAttr (Tok P) else None) with
    | Some Assoc =>
        (when_ (isInfix Attributes)
               (diagnoseTok duplicate_attribute (getText (Tok P))) ;;;
         consumeTokenK tok_identifier ;;;
         (* The default precedence is 100. *)
         let Attributes :=
           mkDeclAttributes (LSquareLoc Attributes) (RSquareLoc Attributes)
                            (Some (mkInfixData 100 Assoc)) in
         eq <- consumeIf tok_equal ;;
         if eq then
           PrecLoc <- gets (fun P => getLoc (Tok P)) ;;
           Text <- gets (fun P => getText (Tok P)) ;;
           err <- parseToken tok_numeric_constant expected_precedence_value ;;
           if negb err then
             match getAsInteger Text with
             | Some Value =>
                 if (Value >? 255)%Z || (Value <? 0)%Z
                 then diagnose PrecLoc invalid_precedence Text ;;;
                      ret (false, Attributes)
                 else ret (false,
                           mkDeclAttributes (LSquareLoc Attributes)
                             (RSquareLoc Attributes)
                             (Some (mkInfixData Value Assoc)))
             | None => diagnose PrecLoc invalid_precedence Text ;;;
                       ret (false, Attributes)
             end
           else
             skipUntil2 tok_r_square tok_comma ;;; ret (false, Attributes)
         else ret (false, Attributes)) P
    | None =>
        ((if Token_is (Tok P) tok_identifier
          then diagnoseTok unknown_attribute (getText (Tok P))
          else diagnoseTok expected_attribute_name "") ;;;
         skipUntil tok_r_square ;;;
         ret (true, Attributes)) P
    end.

(** The comma loop of [parseAttributeListPresent]; every turn consumes the
    comma, so the number of tokens left bounds the number of turns. *)
Fixpoint parseAttributeLoop (n : nat) (HadError : bool)
         (Attributes : DeclAttributes) : M (bool * DeclAttributes) :=
  fun P =>
    if Token_is (Tok P) tok_comma then
      match n with
      | O => Crash OutOfFuel P
      | S n' =>
          (consumeTokenK tok_comma ;;;
           r <- parseAttribute Attributes ;;
           parseAttributeLoop n' (HadError || fst r) (snd r)) P
      end
    else Ok (HadError, Attributes) P.

Definition parseAttributeListPresent (Attributes : DeclAttributes)
  : M DeclAttributes :=
  LSq <- consumeTokenK tok_l_square ;;
  let Attributes := mkDeclAttributes LSq (RSquareLoc Attributes) (Infix Attributes) in
  (* If this is an empty attribute list, consume it and return. *)
  empty <- curTokIs tok_r_square ;;
  if empty then
    RSq <- consumeTokenK tok_r_square ;;
    ret (mkDeclAttributes (LSquareLoc Attributes) RSq (Infix Attributes))
  else
    r <- parseAttribute Attributes ;;
    n <- gets (fun P => S (length (Lexer P))) ;;
    r <- parseAttributeLoop n (fst r) (snd r) ;;
    let HadError := fst r in
    RSq <- gets (fun P => getLoc (Tok P)) ;;
    let Attributes := mkDeclAttributes (LSquareLoc (snd r)) RSq (Infix (snd r)) in
    closed <- consumeIf tok_r_square ;;
    if closed then ret Attributes
    else
      (* Otherwise, there was an error parsing the attribute list. *)
      when_ (negb HadError)
            (parseMatchingToken tok_r_square expected_in_attribute_list
                                (LSquareLoc Attributes) opening_bracket ;;;
             ret tt) ;;;
      skipUntil tok_r_square ;;;
      consumeIf tok_r_square ;;;
      ret Attributes.

(** Modelled from the spec: an attribute list is optional; it is present
    exactly when the current token is an opening square bracket. *)
Definition parseAttributeList (Attributes : DeclAttributes) : M DeclAttributes :=
  present <- curTokIs tok_l_square ;;
  if present then parseAttributeListPresent Attributes else ret Attributes.

(** ** The AST arena *)

Definition getDecl (P : Parser) (D : DeclId) : option Decl := DeclArena P !! D.

Definition allocDecl (K : DeclKind) (Loc : SourceLoc) (DC : DeclContext)
  : M DeclId :=
  fun P => Ok (length (DeclArena P))
              (withDeclArena (DeclArena P ++ [mkDecl K Loc DC]) P).

Definition Decl_setDeclContext (DC : DeclContext) (D : Decl) : Decl :=
  mkDecl (getDeclKind D) (getLocStart D) DC.

Definition Decl_setUnderlyingType (T : Ty) (D : Decl) : Decl :=
  match getDeclKind D with
  | TypeAliasDecl N _ =>
      mkDecl (TypeAliasDecl N (Some T)) (getLocStart D) (getDeclContext D)
  | _ => D
  end.

Definition Decl_setType (T : Ty) (D : Decl) : Decl :=
  match getDeclKind D with
  | OneOfElementDecl N _ A =>
      mkDecl (OneOfElementDecl N T A) (getLocStart D) (getDeclContext D)
  | _ => D
  end.

Definition alterDecl (f : Decl -> Decl) (D : DeclId) : M unit :=
  modify (fun P => withDeclArena (alter f D (DeclArena P)) P).

Definition setDeclContext (D : DeclId) (DC : DeclContext) : M unit :=
  alterDecl (Decl_setDeclContext DC) D.
Definition setUnderlyingType (D : DeclId) (T : Ty) : M unit :=
  alterDecl (Decl_setUnderlyingType T) D.
Definition setType (D : DeclId) (T : Ty) : M unit :=
  alterDecl (Decl_setType T) D.

(** A [Decl*] that may be null is dereferenced. *)
Definition deref (D : option DeclId) : M DeclId :=
  match D with Some d => ret d | None => crash NullDeref end.

Definition getUnderlyingType (P : Parser) (D : DeclId) : Type_ :=
  match getDecl P D with
  | Some (mkDecl (TypeAliasDecl _ U) _ _) => U
  | _ => None
  end.

Definition hasUnderlyingType (P : Parser) (D : DeclId) : bool :=
  match getUnderlyingType P D with Some _ => true | None => false end.

Definition getAliasType (TAD : DeclId) : Ty := NameAliasType TAD.

Definition getName (P : Parser) (D : DeclId) : Identifier :=
  match getDecl P D with Some d => Decl_getName d | None => "" end.

Definition getDeclLoc (P : Parser) (D : DeclId) : SourceLoc :=
  match getDecl P D with Some d => getLocStart d | None => 0 end.

Definition getContextOf (P : Parser) (D : DeclId) : DeclContext :=
  match getDecl P D with Some d => getDeclContext d | None => DC_Null end.

Definition getVarType (P : Parser) (D : DeclId) : Ty :=
  match getDecl P D with
  | Some (mkDecl (VarDecl _ _ T _ _) _ _) => T
  | _ => DependentType
  end.

Definition getArgumentType (P : Parser) (D : DeclId) : Type_ :=
  match getDecl P D with
  | Some (mkDecl (OneOfElementDecl _ _ A) _ _) => A
  | _ => None
  end.

Definition getEltType (P : Parser) (D : DeclId) : Type_ :=
  match getDecl P D with
  | Some (mkDecl (OneOfElementDecl _ T _) _ _) => Some T
  | _ => None
  end.

Definition isaImportDecl (P : Parser) (D : DeclId) : bool :=
  match getDecl P D with
  | Some (mkDecl (ImportDecl _) _ _) => true | _ => false end.

Definition isaVarDecl (P : Parser) (D : DeclId) : bool :=
  match getDecl P D with
  | Some (mkDecl (VarDecl _ _ _ _ _) _ _) => true | _ => false end.

Definition isaTypeAliasDecl (P : Parser) (D : DeclId) : bool :=
  match getDecl P D with
  | Some (mkDecl (TypeAliasDecl _ _) _ _) => true | _ => false end.

Definition isaNamedDecl (P : Parser) (D : DeclId) : bool :=
  match getDecl P D with
  | Some (mkDecl (ImportDecl _) _ _) | Some (mkDecl (ExtensionDecl _ _) _ _)
  | None => false
  | Some _ => true
  end.

Definition isIdentifierStart (c : ascii) : bool :=
  let n := nat_of_ascii c in
  ((65 <=? n)%nat && (n <=? 90)%nat) || ((97 <=? n)%nat && (n <=? 122)%nat)
  || (n =? 95)%nat.

(** Modelled from the spec: a name is an operator when it was written with
    an operator token, that is when it does not start like an identifier. *)
Definition Identifier_isOperator (N : Identifier) : bool :=
  match N with
  | EmptyString => false
  | String c _ => negb (isIdentifierStart c)
  end.

Definition isOperator (P : Parser) (D : DeclId) : bool :=
  Identifier_isOperator (getName P D).

(** ** Scope registry operations *)

Definition pushFrame (S : ScopeInfoT) : ScopeInfoT :=
  mkScopeInfo ([] :: Frames S) (UnresolvedTypeList S) (UnresolvedScopedTypeList S).

Definition popFrame (S : ScopeInfoT) : ScopeInfoT :=
  mkScopeInfo (tail (Frames S)) (UnresolvedTypeList S) (UnresolvedScopedTypeList S).

Definition insertInnermost (N : Identifier) (D : DeclId)
           (Fs : list (list (Identifier * DeclId))) :=
  match Fs with
  | [] => [[(N, D)]]
  | F :: Fs' => ((N, D) :: F) :: Fs'
  end.

Fixpoint insertOutermost (N : Identifier) (D : DeclId)
         (Fs : list (list (Identifier * DeclId))) :=
  match Fs with
  | [] => [[(N, D)]]
  | [F] => [(N, D) :: F]
  | F :: Fs' => F :: insertOutermost N D Fs'
  end.

(** Modelled from the spec: insert(name, declaration) binds the declaration
    under its own name in the current lexical block. *)
Definition addToScope (D : DeclId) : M unit :=
  modify (fun P =>
    let S := ScopeInfo P in
    withScopeInfo (mkScopeInfo (insertInnermost (getName P D) D (Frames S))
                               (UnresolvedTypeList S)
                               (UnresolvedScopedTypeList S)) P).

(** The bindings of the current (innermost) lexical block. *)
Definition currentFrame (P : Parser) : list (Identifier * DeclId) :=
  match Frames (ScopeInfo P) with F :: _ => F | [] => [] end.

Definition lookupTypeName (P : Parser) (N : Identifier) : option DeclId :=
  match List.find (fun B => String.eqb (fst B) N && isaTypeAliasDecl P (snd B))
                  (concat (Frames (ScopeInfo P))) with
  | Some B => Some (snd B)
  | None => None
  end.

(** Modelled from the spec: lookupOrInsertTypeNameStub(name, location)
    answers with the alias registered under the name; when there is none
    it registers a stub at file scope and records it on the worklist of
    unresolved aliases. *)
Definition lookupOrInsertTypeNameDecl (N : Identifier) (Loc : SourceLoc)
  : M DeclId :=
  fun P =>
    match lookupTypeName P N with
    | Some TAD => Ok TAD P
    | None =>
        (TAD <- allocDecl (TypeAliasDecl N None) Loc (CurDeclContext P) ;;
         modify (fun P =>
           let S := ScopeInfo P in
           withScopeInfo (mkScopeInfo (insertOutermost N TAD (Frames S))
                                      (UnresolvedTypeList S ++ [TAD])
                                      (UnresolvedScopedTypeList S)) P) ;;;
         ret TAD) P
    end.

Definition lookupOrInsertTypeName (N : Identifier) (Loc : SourceLoc) : M Ty :=
  TAD <- lookupOrInsertTypeNameDecl N Loc ;; ret (getAliasType TAD).

(** Modelled from the spec: a type alias is declared in two phases.  A stub
    registered under the name by an earlier forward reference is reused and
    completed when a type is supplied; otherwise a new alias is created and
    bound in the current lexical block. *)
Definition addTypeAliasToScope (Loc : SourceLoc) (N : Identifier) (T : Type_)
  : M DeclId :=
  fun P =>
    match lookupTypeName P N with
    | Some TAD =>
        if hasUnderlyingType P TAD then
          (TAD' <- allocDecl (TypeAliasDecl N T) Loc (CurDeclContext P) ;;
           addToScope TAD' ;;; ret TAD') P
        else
          match T with
          | Some T' => (setUnderlyingType TAD T' ;;; ret TAD) P
          | None => Ok TAD P
          end
    | None =>
        (TAD' <- allocDecl (TypeAliasDecl N T) Loc (CurDeclContext P) ;;
         addToScope TAD' ;;; ret TAD') P
    end.

Definition pushScope : M unit :=
  modify (fun P => withScopeInfo (pushFrame (ScopeInfo P)) P).
Definition popScope : M unit :=
  modify (fun P => withScopeInfo (popFrame (ScopeInfo P)) P).

Fixpoint forEach {A} (l : list A) (f : A -> M unit) : M unit :=
  match l with
  | [] => ret tt
  | x :: l' => f x ;;; forEach l' f
  end.

(** Declaration-context flags of [parseDecl]. *)
Definition PD_Default : nat := 0.
Definition PD_AllowImport : nat := 1.
Definition PD_DisallowVar : nat := 2.
Definition PD_DisallowOperators : nat := 4.

Definition hasFlag (Flags F : nat) : bool := negb (Nat.land Flags F =? 0)%nat.

Record OneOfElementInfo := mkOneOfElementInfo {
  EI_Name : string;
  EI_NameLoc : SourceLoc;
  EI_EltType : Type_
}.

Inductive ExprStmtOrDecl :=
| ESD_Expr (E : Expr)
| ESD_Stmt (S : Stmt)
| ESD_Decl (D : option DeclId).

Record BraceStmt := mkBraceStmt {
  LBLoc : SourceLoc;
  BraceElements : list ExprStmtOrDecl;
  RBLoc : SourceLoc
}.

Record TranslationUnit := mkTranslationUnit {
  TU_Name : Identifier;
  Body : BraceStmt;
  UnresolvedTypesForParser : list DeclId;
  UnresolvedScopedTypesForParser : list DeclId
}.

(** ** The declaration parser

    The collaborators below are other files of the parser and of the AST
    library; the spec lists them as fallible black boxes.  [None] is the
    error answer of a parser ([true] in the source). *)

Class Collaborators := {
  parseType : diag -> M (option Ty);
  parseTypeIdentifier : M (option Ty);
  parseTypeTupleBody : SourceLoc -> M (option Ty);
  parseValueSpecifier : bool -> M (option (Type_ * option Expr));
  parseStmtBrace : diag -> M (option Stmt);
  actOnFuncExprStart : SourceLoc -> Ty -> M nat;
  getTypeForPath : Ty -> list nat -> Type_
}.

Section ParseDecl.

Context {ext : Collaborators}.

Definition tokLoc : M SourceLoc := gets (fun P => getLoc (Tok P)).

(** The [while (consumeIf(tok::period))] loop of [parseDeclImport]. *)
Fixpoint parseImportPath (n : nat) (ImportPath : list (Identifier * SourceLoc))
  : M (option (list (Identifier * SourceLoc))) :=
  fun P =>
    if Token_is (Tok P) tok_period then
      match n with
      | O => Crash OutOfFuel P
      | S n' =>
          (consumeToken ;;;
           Loc <- tokLoc ;;
           r <- parseIdentifier expected_identifier_in_decl "import" ;;
           match r with
           | None => ret None
           | Some Id => parseImportPath n' (ImportPath ++ [(Id, Loc)])
           end) P
      end
    else Ok (Some ImportPath) P.

Definition parseDeclImport : M (option DeclId) :=
  ImportLoc <- consumeTokenK kw_import ;;
  Attributes <- parseAttributeList noAttributes ;;
  Loc <- tokLoc ;;
  r <- parseIdentifier decl_expected_module_name "" ;;
  match r with
  | None => ret None
  | Some Id =>
      n <- gets (fun P => S (length (Lexer P))) ;;
      r <- parseImportPath n [(Id, Loc)] ;;
      match r with
      | None => ret None
      | Some ImportPath =>
          when_ (negb (Attributes_empty Attributes))
                (diagnose (LSquareLoc Attributes) import_attributes "") ;;;
          DC <- gets CurDeclContext ;;
          D <- allocDecl (ImportDecl ImportPath) ImportLoc DC ;;
          ret (Some D)
      end
  end.

(** The member loop shared by extension, oneof and struct bodies:
    [while (Tok.isNot(tok::r_brace) && Tok.isNot(tok::eof))
       if (parseDecl(MemberDecls, Flags)) skipUntilDeclRBrace();] *)
Fixpoint parseMemberDecls
         (parseDecl : list (option DeclId) -> nat -> M (bool * list (option DeclId)))
         (n : nat) (Flags : nat) (MemberDecls : list (option DeclId))
  : M (list (option DeclId)) :=
  fun P =>
    if Token_isNot (Tok P) tok_r_brace && Token_isNot (Tok P) tok_eof then
      match n with
      | O => Crash OutOfFuel P
      | S n' =>
          (r <- parseDecl MemberDecls Flags ;;
           when_ (fst r) skipUntilDeclRBrace ;;;
           parseMemberDecls parseDecl n' Flags (snd r)) P
      end
    else Ok MemberDecls P.

Definition parseDeclExtension
           (parseDecl : list (option DeclId) -> nat -> M (bool * list (option DeclId)))
           (n : nat) : M (option DeclId) :=
  ExtensionLoc <- consumeTokenK kw_extension ;;
  T <- parseTypeIdentifier ;;
  match T with
  | None => ret None
  | Some Ty =>
      r <- parseTokenLoc tok_l_brace expected_lbrace_oneof_type ;;
      if fst r then ret None
      else
        (* Parse the body as a series of decls. *)
        MemberDecls <- parseMemberDecls parseDecl n PD_Default [] ;;
        parseMatchingToken tok_r_brace expected_rbrace_extension (snd r)
                           opening_brace ;;;
        DC <- gets CurDeclContext ;;
        D <- allocDecl (ExtensionDecl Ty MemberDecls) ExtensionLoc DC ;;
        ret (Some D)
  end.

(** [parseVarName]; the second function is its
    [do { ... } while (consumeIf(tok::comma))] loop. *)
Fixpoint parseVarName (n : nat) : M (option DeclVarName) :=
  match n with
  | O => crash OutOfFuel
  | S n' =>
      fun P =>
        (* Single name case. *)
        if Token_is (Tok P) tok_identifier || Token_is (Tok P) tok_oper then
          (consumeToken ;;;
           ret (Some (VarNameSimple (getText (Tok P)) (getLoc (Tok P))))) P
        else if Token_isNot (Tok P) tok_l_paren
                && Token_isNot (Tok P) tok_l_paren_space then
          (diagnoseTok expected_lparen_var_name "" ;;; ret None) P
        else
          (LPLoc <- consumeToken ;;
           more <- gets (fun P => Token_isNot (Tok P) tok_r_paren) ;;
           r <- (if more then parseVarNameElements n' [] else ret (Some [])) ;;
           match r with
           | None => ret None
           | Some ChildNames =>
               m <- parseMatchingToken tok_r_paren expected_rparen_var_name
                                       LPLoc opening_paren ;;
               ret (Some (VarNameTuple LPLoc ChildNames (snd m)))
           end) P
  end
with parseVarNameElements (n : nat) (ChildNames : list DeclVarName)
  : M (option (list DeclVarName)) :=
  match n with
  | O => crash OutOfFuel
  | S n' =>
      r <- parseVarName n' ;;
      match r with
      | None => ret None
      | Some Elt =>
          c <- consumeIf tok_comma ;;
          if c then parseVarNameElements n' (ChildNames ++ [Elt])
          else ret (Some (ChildNames ++ [Elt]))
      end
  end.

Definition parseDeclTypeAlias : M (option DeclId) :=
  TypeAliasLoc <- consumeTokenK kw_typealias ;;
  r <- parseIdentifier expected_identifier_in_decl "typealias" ;;
  match r with
  | None => ret None
  | Some Id =>
      e <- parseToken tok_colon expected_colon_in_typealias ;;
      if e then ret None
      else
        T <- parseType expected_type_in_typealias ;;
        match T with
        | None => ret None
        | Some Ty =>
            TAD <- addTypeAliasToScope TypeAliasLoc Id (Some Ty) ;;
            ret (Some TAD)
        end
  end.

(** [actOnVarDeclName]: the access path is pushed, overwritten with the
    running index and popped around the walk of the children, so a child
    at position [Index] is visited with path [AccessPath ++ [Index]]; the
    second function is the [for] loop over the children. *)
Fixpoint actOnVarDeclName (Name : DeclVarName) (AccessPath : list nat)
         (VD : DeclId) (Decls : list (option DeclId))
  : M (list (option DeclId)) :=
  match Name with
  | VarNameSimple Id Loc =>
      fun P =>
        match getTypeForPath (getVarType P VD) AccessPath with
        | None =>
            (diagnose Loc invalid_index_in_var_name_path Id ;;; ret Decls) P
        | Some Ty =>
            (* Create the decl for this name and add it to the current scope. *)
            (ERD <- allocDecl (ElementRefDecl VD Id AccessPath Ty) Loc
                              (CurDeclContext P) ;;
             addToScope ERD ;;;
             ret (Decls ++ [Some ERD])) P
        end
  | VarNameTuple _ Elts _ =>
      (fix walk (Elts : list DeclVarName) (Index : nat)
           (Decls : list (option DeclId)) : M (list (option DeclId)) :=
         match Elts with
         | [] => ret Decls
         | Element :: Elts' =>
             Decls' <- actOnVarDeclName Element (AccessPath ++ [Index]) VD Decls ;;
             walk Elts' (S Index) Decls'
         end) Elts 0 Decls
  end.

(** The [for] loop of [actOnVarDeclName] over the children of a pattern,
    from the child at position [Index] on. *)
Fixpoint actOnVarDeclElements (Elts : list DeclVarName) (AccessPath : list nat)
         (Index : nat) (VD : DeclId) (Decls : list (option DeclId))
  : M (list (option DeclId)) :=
  match Elts with
  | [] => ret Decls
  | Element :: Elts' =>
      Decls' <- actOnVarDeclName Element (AccessPath ++ [Index]) VD Decls ;;
      actOnVarDeclElements Elts' AccessPath (S Index) VD Decls'
  end.

Definition parseDeclVar (n : nat) (Decls : list (option DeclId))
  : M (bool * list (option DeclId)) :=
  VarLoc <- consumeTokenK kw_var ;;
  Attributes <- parseAttributeList noAttributes ;;
  r <- parseVarName n ;;
  match r with
  | None => ret (true, Decls)
  | Some VarName =>
      v <- parseValueSpecifier false ;;
      match v with
      | None => ret (true, Decls)
      | Some (T, Init) =>
          let Ty := match T with Some Ty => Ty | None => DependentType end in
          DC <- gets CurDeclContext ;;
          match VarName with
          | VarNameSimple Id _ =>
              VD <- allocDecl (VarDecl Id None Ty Init Attributes) VarLoc DC ;;
              addToScope VD ;;;
              ret (false, Decls ++ [Some VD])
          | VarNameTuple _ _ _ =>
              VD <- allocDecl (VarDecl "" (Some VarName) Ty Init Attributes)
                              VarLoc DC ;;
              Decls' <- actOnVarDeclName VarName [] VD (Decls ++ [Some VD]) ;;
              ret (false, Decls')
          end
      end
  end.

Definition parseDeclVarSimple (n : nat) : M (option DeclId) :=
  CurLoc <- tokLoc ;;
  r <- parseDeclVar n [] ;;
  if fst r then ret None
  else
    fun P =>
      match snd r with
      | [Some VD] =>
          if isaVarDecl P VD then Ok (Some VD) P
          else (diagnose CurLoc non_simple_var "" ;;; ret None) P
      | _ => (diagnose CurLoc non_simple_var "" ;;; ret None) P
      end.

Definition FuncExpr_setBody (FE : nat) (B : Stmt) : M unit :=
  modify (fun P =>
    withFuncExprs
      (alter (fun F => mkFuncExpr (FuncExprLoc F) (FuncExprTy F) (Some B)
                                  (FuncExprParent F)) FE (FuncExprs P)) P).

Definition parseDeclFunc (ReceiverTy : Type_) : M (option DeclId) :=
  FuncLoc <- consumeTokenK kw_func ;;
  Attributes <- parseAttributeList noAttributes ;;
  TypeNameLoc <- tokLoc ;;
  r <- parseIdentifier expected_identifier_in_decl "func" ;;
  match r with
  | None => ret None
  | Some Name =>
      (* If this is method syntax, the first name is the receiver type. *)
      rn <- match ReceiverTy with
            | None =>
                c <- consumeIf tok_coloncolon ;;
                if c then
                  R <- lookupOrInsertTypeName Name TypeNameLoc ;;
                  r2 <- parseIdentifier expected_identifier_in_decl "func" ;;
                  ret (Some R, r2)
                else ret (None, Some Name)
            | Some R => ret (Some R, Some Name)
            end ;;
      match snd rn with
      | None => ret None
      | Some Name =>
          let ReceiverTy := fst rn in
          paren <- gets (fun P => Token_is (Tok P) tok_l_paren
                                  || Token_is (Tok P) tok_l_paren_space) ;;
          if negb paren then
            diagnoseTok func_decl_without_paren "" ;;; ret None
          else
            T <- parseType expected_type ;;
            match T with
            | None => ret None
            | Some FuncTy =>
                (* Not spelled as a function type: implicitly returns (). *)
                let FuncTy :=
                  if isaFunctionType FuncTy then FuncTy
                  else FunctionType FuncTy TupleType_getEmpty in
                (* Install the receiver as a tuple element named 'this'. *)
                let FuncTy :=
                  match ReceiverTy with
                  | Some R => FunctionType (TupleType [(R, "this")]) FuncTy
                  | None => FuncTy
                  end in
                pushScope ;;;
                FE <- actOnFuncExprStart FuncLoc FuncTy ;;
                OldDC <- gets CurDeclContext ;;
                modify (withCurDeclContext (DC_FuncExpr FE)) ;;;
                brace <- curTokIs tok_l_brace ;;
                FE' <- (if brace then
                          B <- parseStmtBrace invalid_diagnostic ;;
                          match B with
                          | Some B => FuncExpr_setBody FE B ;;; ret (Some FE)
                          | None => ret None
                          end
                        else ret None) ;;
                modify (withCurDeclContext OldDC) ;;;
                popScope ;;;
                (* Create the decl for the func and add it to the parent scope. *)
                DC <- gets CurDeclContext ;;
                FD <- allocDecl (FuncDecl Name FuncTy FE' Attributes) FuncLoc DC ;;
                addToScope FD ;;;
                ret (Some FD)
            end
      end
  end.

(** The element loop of [actOnOneOfType]: [SeenSoFar] holds the names
    already taken, [EltDecls] the element declarations created so far. *)
Fixpoint actOnOneOfElements (TmpTy : Ty) (HasPrettyName : bool)
         (Elts : list OneOfElementInfo) (SeenSoFar : list Identifier)
         (EltDecls : list DeclId) : M (list DeclId) :=
  match Elts with
  | [] => ret EltDecls
  | Elt :: Elts' =>
      let NameI := EI_Name Elt in
      (* If this was multiply defined, reject it. *)
      if existsb (String.eqb NameI) SeenSoFar then
        diagnose (EI_NameLoc Elt) duplicate_oneof_element (EI_Name Elt) ;;;
        (fun P =>
           match List.find (fun D => String.eqb (getName P D) NameI) EltDecls with
           | Some D => diagnose (getDeclLoc P D) previous_definition NameI P
           | None => Ok tt P
           end) ;;;
        (* Don't copy this element into NewElements. *)
        actOnOneOfElements TmpTy HasPrettyName Elts' SeenSoFar EltDecls
      else
        let EltTy :=
          match EI_EltType Elt with
          | Some ArgTy => if HasPrettyName then FunctionType ArgTy TmpTy else TmpTy
          | None => TmpTy
          end in
        DC <- gets CurDeclContext ;;
        D <- allocDecl (OneOfElementDecl NameI EltTy (EI_EltType Elt))
                       (EI_NameLoc Elt) DC ;;
        actOnOneOfElements TmpTy HasPrettyName Elts' (NameI :: SeenSoFar)
                           (EltDecls ++ [D])
  end.

Definition OneOfType_getNew (Loc : SourceLoc) (EltDecls : list DeclId)
           (Parent : DeclContext) : M nat :=
  fun P => Ok (length (OneOfTypes P))
              (withOneOfTypes (OneOfTypes P ++ [mkOneOfType Loc EltDecls Parent]) P).

Definition ProtocolType_getNew (Loc : SourceLoc) (Elts : list DeclId)
           (Parent : DeclContext) : M nat :=
  fun P => Ok (length (ProtocolTypes P))
              (withProtocolTypes
                 (ProtocolTypes P ++ [mkProtocolType Loc Elts Parent]) P).

Definition actOnOneOfType (OneOfLoc : SourceLoc) (Attrs : DeclAttributes)
           (Elts : list OneOfElementInfo) (MemberDecls : list (option DeclId))
           (PrettyTypeName : option DeclId) : M nat :=
  (* No attributes are valid on oneof types at this time. *)
  when_ (negb (Attributes_empty Attrs))
        (diagnose (LSquareLoc Attrs) oneof_attributes "") ;;;
  let TmpTy :=
    match PrettyTypeName with
    | Some TAD => getAliasType TAD
    | None => TupleType_getEmpty
    end in
  let HasPrettyName :=
    match PrettyTypeName with Some _ => true | None => false end in
  EltDecls <- actOnOneOfElements TmpTy HasPrettyName Elts [] [] ;;
  DC <- gets CurDeclContext ;;
  Result <- OneOfType_getNew OneOfLoc EltDecls DC ;;
  forEach EltDecls (fun D => setDeclContext D (DC_OneOfType Result)) ;;;
  (* Install all of the members into the OneOf's DeclContext. *)
  forEach MemberDecls
          (fun D => d <- deref D ;; setDeclContext d (DC_OneOfType Result)) ;;;
  match PrettyTypeName with
  | Some TAD =>
      (* If we have a pretty name for this, complete it to its actual type. *)
      setUnderlyingType TAD (OneOfType Result)
  | None =>
      forEach EltDecls
              (fun Elt P =>
                 let EltTy :=
                   match getArgumentType P Elt with
                   | Some ArgTy => FunctionType ArgTy (OneOfType Result)
                   | None => OneOfType Result
                   end in
                 setType Elt EltTy P)
  end ;;;
  ret Result.

(** The element loop of [parseDeclOneOfBody]:
    [while (Tok.is(tok::identifier))] with [break] on a missing comma. *)
Fixpoint parseOneOfElements (n : nat) (ElementInfos : list OneOfElementInfo)
  : M (option (list OneOfElementInfo)) :=
  fun P =>
    if Token_is (Tok P) tok_identifier then
      match n with
      | O => Crash OutOfFuel P
      | S n' =>
          (consumeTokenK tok_identifier ;;;
           c <- consumeIf tok_colon ;;
           r <- (if c then
                   T <- parseType expected_type_oneof_element ;;
                   match T with
                   | None => skipUntil tok_r_brace ;;; ret None
                   | Some Ty => ret (Some (Some Ty))
                   end
                 else ret (Some None)) ;;
           match r with
           | None => ret None
           | Some EltType =>
               let Infos :=
                 ElementInfos
                   ++ [mkOneOfElementInfo (getText (Tok P)) (getLoc (Tok P)) EltType] in
               (* Require comma separation. *)
               c <- consumeIf tok_comma ;;
               if c then parseOneOfElements n' Infos else ret (Some Infos)
           end) P
      end
    else Ok (Some ElementInfos) P.

Definition parseDeclOneOfBody
           (parseDecl : list (option DeclId) -> nat -> M (bool * list (option DeclId)))
           (n : nat) (OneOfLoc : SourceLoc) (Attrs : DeclAttributes)
           (TypeName : option DeclId) : M (bool * Type_) :=
  r <- parseTokenLoc tok_l_brace expected_lbrace_oneof_type ;;
  if fst r then ret (true, None)
  else
    (* Parse the comma separated list of oneof elements. *)
    e <- parseOneOfElements n [] ;;
    match e with
    | None => ret (true, None)
    | Some ElementInfos =>
        (* Parse the body as a series of decls. *)
        MemberDecls <- parseMemberDecls parseDecl n
                         (Nat.lor PD_DisallowVar PD_DisallowOperators) [] ;;
        parseMatchingToken tok_r_brace expected_rbrace_oneof_type (snd r)
                           opening_brace ;;;
        Result <- actOnOneOfType OneOfLoc Attrs ElementInfos MemberDecls TypeName ;;
        ret (false, Some (OneOfType Result))
    end.

Definition parseDeclOneOf
           (parseDecl : list (option DeclId) -> nat -> M (bool * list (option DeclId)))
           (n : nat) : M (option DeclId) :=
  OneOfLoc <- consumeTokenK kw_oneof ;;
  Attributes <- parseAttributeList noAttributes ;;
  NameLoc <- tokLoc ;;
  r <- parseIdentifier expected_identifier_in_decl "oneof" ;;
  match r with
  | None => ret None
  | Some OneOfName =>
      TAD <- addTypeAliasToScope NameLoc OneOfName None ;;
      b <- parseDeclOneOfBody parseDecl n OneOfLoc Attributes (Some TAD) ;;
      if fst b then ret None else ret (Some TAD)
  end.

Definition tupleFields (T : Ty) : list (Ty * Identifier) :=
  match T with TupleType Fields => Fields | _ => [] end.

(** Modelled from the spec: a transparent oneof is a single-case union
    whose case carries a payload. *)
Definition isTransparentType (P : Parser) (OneOfTy : nat) : bool :=
  match OneOfTypes P !! OneOfTy with
  | Some Info => match Elements Info with
              | [E] => match getArgumentType P E with Some _ => true | None => false end
              | _ => false
              end
  | None => false
  end.

Definition OneOf_getElements (P : Parser) (OneOfTy : nat) : list DeclId :=
  match OneOfTypes P !! OneOfTy with Some Info => Elements Info | None => [] end.

Definition parseDeclStruct
           (parseDecl : list (option DeclId) -> nat -> M (bool * list (option DeclId)))
           (n : nat) (Decls : list (option DeclId))
  : M (bool * list (option DeclId)) :=
  StructLoc <- consumeTokenK kw_struct ;;
  Attributes <- parseAttributeList noAttributes ;;
  r <- parseIdentifier expected_identifier_in_decl "struct" ;;
  match r with
  | None => ret (true, Decls)
  | Some StructName =>
      lb <- parseTokenLoc tok_l_brace expected_lbrace_struct ;;
      if fst lb then ret (true, Decls)
      else
        (* Get the TypeAlias for the name that we'll eventually have. *)
        TAD <- addTypeAliasToScope StructLoc StructName None ;;
        (* Parse elements of the body as a tuple body. *)
        b <- parseTypeTupleBody (snd lb) ;;
        match b with
        | None => ret (true, Decls)
        | Some BodyTy =>
            assert_ (isaTupleType BodyTy) ;;;
            (* Reject any unnamed members. *)
            forEach (tupleFields BodyTy)
                    (fun Elt => when_ (String.eqb (snd Elt) "")
                                      (diagnose (snd lb) struct_unnamed_member "")) ;;;
            (* Parse the body as a series of decls. *)
            MemberDecls <- parseMemberDecls parseDecl n
                             (Nat.lor PD_DisallowVar PD_DisallowOperators) [] ;;
            rb <- parseMatchingToken tok_r_brace expected_rbrace_struct (snd lb)
                                     opening_brace ;;
            if fst rb then ret (true, Decls)
            else
              let Decls := Decls ++ [Some TAD] in
              let ElementInfo := mkOneOfElementInfo StructName StructLoc (Some BodyTy) in
              OneOfTy <- actOnOneOfType StructLoc Attributes [ElementInfo]
                                        MemberDecls (Some TAD) ;;
              t <- gets (fun P => isTransparentType P OneOfTy) ;;
              assert_ t ;;;
              (* Structs also inject their constructor into the global scope. *)
              Elts <- gets (fun P => OneOf_getElements P OneOfTy) ;;
              assert_ (length Elts =? 1)%nat ;;;
              match Elts !! 0%nat with
              | None => crash OutOfBounds
              | Some Elt0 =>
                  addToScope Elt0 ;;;
                  ret (false, Decls ++ [Some Elt0])
              end
        end
  end.

(** The [do { switch ... } while (Tok.isNot(tok::r_brace))] loop of
    [parseProtocolBody]; [None] is the [return true] of a hard error. *)
Fixpoint parseProtocolElements (n : nat) (ThisType : Ty)
         (Elements : list DeclId) : M (option (list DeclId)) :=
  match n with
  | O => crash OutOfFuel
  | S n' =>
      fun P =>
        let continue_ (Elements : list DeclId) : M (option (list DeclId)) :=
          more <- gets (fun P => Token_isNot (Tok P) tok_r_brace) ;;
          if more then parseProtocolElements n' ThisType Elements
          else ret (Some Elements) in
        match getKind (Tok P) with
        | tok_r_brace => continue_ Elements P
        | kw_func =>
            (r <- parseDeclFunc (Some ThisType) ;;
             match r with
             | None => ret None
             | Some D => continue_ (Elements ++ [D])
             end) P
        | kw_var =>
            (r <- parseDeclVarSimple n' ;;
             match r with
             | None => ret None
             | Some D => continue_ (Elements ++ [D])
             end) P
        | _ => (diagnoseTok expected_protocol_member "" ;;; ret None) P
        end
  end.

Definition parseProtocolBody (n : nat) (ProtocolLoc : SourceLoc)
           (Attributes : DeclAttributes) (TypeName : DeclId)
  : M (bool * Type_) :=
  (* Parse the body. *)
  e <- parseToken tok_l_brace expected_lbrace_protocol_type ;;
  if e then ret (true, None)
  else
    let ThisType := getAliasType TypeName in
    (* Parse the list of protocol elements. *)
    r <- parseProtocolElements n ThisType [] ;;
    match r with
    | None => ret (true, None)
    | Some Elements =>
        consumeTokenK tok_r_brace ;;;
        (* Act on what we've parsed. *)
        when_ (negb (Attributes_empty Attributes))
              (diagnose (LSquareLoc Attributes) protocol_attributes "") ;;;
        DC <- gets CurDeclContext ;;
        NewProto <- ProtocolType_getNew ProtocolLoc Elements DC ;;
        (* Install all of the members of protocol into the protocol's DeclContext. *)
        forEach Elements (fun D => setDeclContext D (DC_ProtocolType NewProto)) ;;;
        (* Complete the pretty name for this type. *)
        setUnderlyingType TypeName (ProtocolType NewProto) ;;;
        ret (false, Some (ProtocolType NewProto))
    end.

Definition parseDeclProtocol (n : nat) : M (option DeclId) :=
  ProtocolLoc <- consumeTokenK kw_protocol ;;
  Attributes <- parseAttributeList noAttributes ;;
  NameLoc <- tokLoc ;;
  r <- parseIdentifier expected_identifier_in_decl "protocol" ;;
  match r with
  | None => ret None
  | Some ProtocolName =>
      TAD <- addTypeAliasToScope NameLoc ProtocolName None ;;
      b <- parseProtocolBody n ProtocolLoc Attributes TAD ;;
      if fst b then ret None else ret (Some TAD)
  end.

(** One turn of the validation loop of [parseDecl]. *)
Definition validateEntry (Flags : nat) (Entry : option DeclId) : M unit :=
  D <- deref Entry ;;
  fun P =>
    (when_ (isaImportDecl P D && negb (hasFlag Flags PD_AllowImport))
           (diagnose (getDeclLoc P D) import_inner_scope "") ;;;
     if isaVarDecl P D && hasFlag Flags PD_DisallowVar then
       diagnose (getDeclLoc P D) disallowed_var_decl ""
     else if isaNamedDecl P D then
       when_ (isOperator P D && hasFlag Flags PD_DisallowOperators)
             (diagnose (getDeclLoc P D) operator_in_decl "")
     else ret tt) P.

(** The part of [parseDecl] after the dispatch switch: the null check on
    [Entries.back()] and the validation of the new entries. *)
Definition finishDecl (EntryStart : nat) (Flags : nat)
           (r : bool * list (option DeclId)) : M (bool * list (option DeclId)) :=
  let (HadParseError, Entries) := r in
  (* If we got back a null pointer, then a parse error happened. *)
  r <- match last Entries with
       | None => crash OutOfBounds
       | Some (Some _) => ret (HadParseError, Entries)
       | Some None => ret (true, removelast Entries)
       end ;;
  let (HadParseError, Entries) := r : bool * list (option DeclId) in
  (* Validate the new entries. *)
  (if (length Entries <? EntryStart)%nat then crash OutOfBounds else ret tt) ;;;
  forEach (drop EntryStart Entries) (validateEntry Flags) ;;;
  ret (HadParseError, Entries).

(** The dispatch switch of [parseDecl]. *)
Definition dispatchDecl
           (parseDecl : list (option DeclId) -> nat -> M (bool * list (option DeclId)))
           (n : nat) (Entries : list (option DeclId))
  : M (bool * list (option DeclId)) :=
  let push (m : M (option DeclId)) : M (bool * list (option DeclId)) :=
    D <- m ;; ret (false, Entries ++ [D]) in
  fun P =>
    match getKind (Tok P) with
    | kw_import => push parseDeclImport P
    | kw_extension => push (parseDeclExtension parseDecl n) P
    | kw_var => parseDeclVar n Entries P
    | kw_typealias => push parseDeclTypeAlias P
    | kw_oneof => push (parseDeclOneOf parseDecl n) P
    | kw_struct => parseDeclStruct parseDecl n Entries P
    | kw_protocol => push (parseDeclProtocol n) P
    | kw_func => push (parseDeclFunc None) P
    | _ => (diagnoseTok expected_decl "" ;;; ret (true, Entries)) P
    end.

Fixpoint parseDecl (n : nat) (Entries : list (option DeclId)) (Flags : nat)
  : M (bool * list (option DeclId)) :=
  match n with
  | O => crash OutOfFuel
  | S n' =>
      let EntryStart := length Entries in
      r <- dispatchDecl (parseDecl n') n' Entries ;;
      finishDecl EntryStart Flags r
  end.

End ParseDecl.

(** ** Translation unit *)

Section TranslationUnit.

Variable parseBraceItemList : bool -> M (list ExprStmtOrDecl).
Variable path_stem : string -> string.

Definition parseTranslationUnit (BufferIdentifier : string)
  : M TranslationUnit :=
  (* Prime the lexer. *)
  consumeToken ;;;
  FileStartLoc <- tokLoc ;;
  let ModuleName := path_stem BufferIdentifier in
  modify (withCurDeclContext DC_TranslationUnit) ;;;
  (* Parse the body of the file. *)
  Items <- parseBraceItemList true ;;
  (* Process the end of the translation unit. *)
  FileEnd <- tokLoc ;;
  let TUBody := mkBraceStmt FileStartLoc Items FileEnd in
  (* The prepass over the top-level declarations reports nothing. *)
  (* Verify that any forward declared types were ultimately defined. *)
  fun P =>
    let UnresolvedTypeList :=
      List.filter (fun D => negb (hasUnderlyingType P D))
                  (UnresolvedTypeList (ScopeInfo P)) in
    Ok (mkTranslationUnit ModuleName TUBody UnresolvedTypeList
                          (UnresolvedScopedTypeList (ScopeInfo P))) P.

End TranslationUnit.

(** ** A small front end for running the parser on concrete programs

    Modelled from the spec: the type, value-specifier and statement parsers
    and the AST helpers are external collaborators of the declaration
    parser.  The versions below cover named types, tuple types with
    optionally named fields, arrows, literal and tuple initializers and
    empty function bodies; they are enough to run the declaration parser
    on the programs used as examples. *)
Module Frontend.

(** Modelled from the spec: [parseType() -> Type | error]. *)
Fixpoint simpleType (n : nat) (D : diag) : M (option Ty) :=
  match n with
  | O => crash OutOfFuel
  | S n' =>
      s <- (fun P =>
              match getKind (Tok P) with
              | tok_identifier =>
                  (Loc <- consumeToken ;;
                   T <- lookupOrInsertTypeName (getText (Tok P)) Loc ;;
                   ret (Some T)) P
              | tok_l_paren | tok_l_paren_space =>
                  (LPLoc <- consumeToken ;;
                   b <- simpleTupleBody n' LPLoc ;;
                   match b with
                   | None => ret None
                   | Some T =>
                       e <- parseToken tok_r_paren expected_type ;;
                       if e then ret None else ret (Some T)
                   end) P
              | _ => (diagnoseTok D "" ;;; ret None) P
              end) ;;
      match s with
      | None => ret None
      | Some T =>
          a <- consumeIf tok_arrow ;;
          if a then
            r <- simpleType n' D ;;
            match r with
            | None => ret None
            | Some R => ret (Some (FunctionType T R))
            end
          else ret (Some T)
      end
  end
(** Modelled from the spec: [parseTupleTypeBody() -> Type | error]; a field
    is a type, optionally preceded by a name and a colon. *)
with simpleTupleBody (n : nat) (LPLoc : SourceLoc) : M (option Ty) :=
  match n with
  | O => crash OutOfFuel
  | S n' =>
      fun P =>
        if Token_is (Tok P) tok_r_paren || Token_is (Tok P) tok_r_brace
           || Token_is (Tok P) tok_eof || isStartOfDecl (Tok P)
        then Ok (Some (TupleType [])) P
        else
          (r <- simpleTupleFields n' [] ;;
           match r with
           | None => ret None
           | Some Fields => ret (Some (TupleType Fields))
           end) P
  end
with simpleTupleFields (n : nat) (Fields : list (Ty * Identifier))
  : M (option (list (Ty * Identifier))) :=
  match n with
  | O => crash OutOfFuel
  | S n' =>
      name <- (fun P =>
                 match getKind (Tok P), Lexer P with
                 | tok_identifier, Next :: _ =>
                     if Token_is Next tok_colon
                     then (consumeToken ;;; consumeToken ;;;
                           ret (getText (Tok P))) P
                     else Ok "" P
                 | _, _ => Ok "" P
                 end) ;;
      T <- simpleType n' expected_type ;;
      match T with
      | None => ret None
      | Some T =>
          c <- consumeIf tok_comma ;;
          if c then simpleTupleFields n' (Fields ++ [(T, name)])
          else ret (Some (Fields ++ [(T, name)]))
      end
  end.

Definition simpleTypeIdentifier : M (option Ty) :=
  fun P =>
    if Token_is (Tok P) tok_identifier
    then (Loc <- consumeToken ;;
          T <- lookupOrInsertTypeName (getText (Tok P)) Loc ;;
          ret (Some T)) P
    else (diagnoseTok expected_type "" ;;; ret None) P.

Definition newNode : M nat :=
  fun P => Ok (OtherNodes P)
              (mkParser (Tok P) (Lexer P) (Diags P) (DeclArena P) (OneOfTypes P)
                        (ProtocolTypes P) (FuncExprs P) (S (OtherNodes P))
                        (ScopeInfo P) (CurDeclContext P)).

(** Initializer expressions: a literal, a name, or a parenthesized list. *)
Fixpoint skipExpr (n : nat) : M bool :=
  match n with
  | O => crash OutOfFuel
  | S n' =>
      fun P =>
        match getKind (Tok P) with
        | tok_numeric_constant | tok_identifier => (consumeToken ;;; ret false) P
        | tok_l_paren | tok_l_paren_space =>
            (consumeToken ;;;
             e <- (fun P => if Token_is (Tok P) tok_r_paren then Ok false P
                            else skipExprList n' P) ;;
             if e then ret true else parseToken tok_r_paren expected_type) P
        | _ => (diagnoseTok expected_type "" ;;; ret true) P
        end
  end
with skipExprList (n : nat) : M bool :=
  match n with
  | O => crash OutOfFuel
  | S n' =>
      e <- skipExpr n' ;;
      if e then ret true
      else c <- consumeIf tok_comma ;;
           if c then skipExprList n' else ret false
  end.

(** Modelled from the spec:
    [parseValueSpecifier() -> (Type, optional Expr) | error]. *)
Definition simpleValueSpecifier (n : nat) (single : bool)
  : M (option (Type_ * option Expr)) :=
  c <- consumeIf tok_colon ;;
  T <- (if c then
          T <- simpleType n expected_type ;;
          match T with None => ret None | Some T => ret (Some (Some T)) end
        else ret (Some None)) ;;
  match T with
  | None => ret None
  | Some T =>
      e <- consumeIf tok_equal ;;
      if e then
        bad <- skipExpr n ;;
        if bad then ret None
        else E <- newNode ;; ret (Some (T, Some (mkExpr E)))
      else ret (Some (T, None))
  end.

(** Modelled from the spec: [parseBraceStatementBlock() -> Stmt | error];
    only the empty block is covered. *)
Definition simpleStmtBrace (D : diag) : M (option Stmt) :=
  consumeTokenK tok_l_brace ;;;
  e <- parseToken tok_r_brace D ;;
  if e then ret None else Nd <- newNode ;; ret (Some (mkStmt Nd)).

Definition simpleFuncExprStart (FuncLoc : SourceLoc) (FuncTy : Ty) : M nat :=
  fun P =>
    Ok (length (FuncExprs P))
       (withFuncExprs
          (FuncExprs P ++ [mkFuncExpr FuncLoc FuncTy None (CurDeclContext P)]) P).

(** Modelled from the spec: the projected type of a leaf is found by
    indexing into the root type along the access path; an unresolved root
    stays unresolved, and an index past the tuple arity (or into a type
    that is not a tuple) has no type. *)
Fixpoint projectType (T : Ty) (Path : list nat) : Type_ :=
  match Path with
  | [] => Some T
  | Idx :: Path' =>
      match T with
      | DependentType => Some DependentType
      | TupleType Fields =>
          match Fields !! Idx with
          | Some Elt => projectType (fst Elt) Path'
          | None => None
          end
      | _ => None
      end
  end.

Definition budget : nat := 64.

Definition collaborators : Collaborators := {|
  parseType := simpleType budget;
  parseTypeIdentifier := simpleTypeIdentifier;
  parseTypeTupleBody := simpleTupleBody budget;
  parseValueSpecifier := simpleValueSpecifier budget;
  parseStmtBrace := simpleStmtBrace;
  actOnFuncExprStart := simpleFuncExprStart;
  getTypeForPath := projectType
|}.

Definition declParser := @parseDecl collaborators.

(** Modelled from the spec: the top-level body is an ordered sequence of
    items; only declarations are covered, with the same recovery as in
    declaration bodies. *)
Fixpoint braceItems (n : nat) (Items : list ExprStmtOrDecl)
  : M (list ExprStmtOrDecl) :=
  fun P =>
    if Token_is (Tok P) tok_eof then Ok Items P
    else match n with
         | O => Crash OutOfFuel P
         | S n' =>
             (r <- declParser budget [] PD_AllowImport ;;
              when_ (fst r) (skipUntilDeclRBrace ;;; consumeIf tok_r_brace ;;; ret tt) ;;;
              braceItems n' (Items ++ List.map ESD_Decl (snd r))) P
         end.

Definition braceItemList (IsTopLevel : bool) : M (list ExprStmtOrDecl) :=
  braceItems budget [].

Definition translationUnit :=
  parseTranslationUnit braceItemList (fun s => s).

(** Token streams are written as (kind, text) pairs and numbered from 1. *)
Fixpoint number (Loc : nat) (l : list (tok * string)) : list Token :=
  match l with
  | [] => []
  | (K, s) :: l' => mkToken K s Loc :: number (S Loc) l'
  end.

Definition emptyScope : ScopeInfoT := mkScopeInfo [[]] [] [].

(** A parser that has not lexed anything yet. *)
Definition fresh (l : list (tok * string)) : Parser :=
  mkParser (mkToken tok_unknown "" 0) (number 1 l) [] [] [] [] [] 0
           emptyScope DC_Null.

(** A parser at file scope, positioned on the first token. *)
Definition start (l : list (tok * string)) : Parser :=
  let (T, Lx) := lex (number 1 l) in
  mkParser T Lx [] [] [] [] [] 0 emptyScope DC_TranslationUnit.

(** Example programs. *)

(** [struct Point { x: Int, y: Int }] *)
Definition structPoint : list (tok * string) :=
  [(kw_struct, "struct"); (tok_identifier, "Point"); (tok_l_brace, "{");
   (tok_identifier, "x"); (tok_colon, ":"); (tok_identifier, "Int");
   (tok_comma, ","); (tok_identifier, "y"); (tok_colon, ":");
   (tok_identifier, "Int"); (tok_r_brace, "}")].

(** [oneof Color { red, green, blue }] *)
Definition oneofColor : list (tok * string) :=
  [(kw_oneof, "oneof"); (tok_identifier, "Color"); (tok_l_brace, "{");
   (tok_identifier, "red"); (tok_comma, ","); (tok_identifier, "green");
   (tok_comma, ","); (tok_identifier, "blue"); (tok_r_brace, "}")].

(** [oneof X { a, a }] *)
Definition oneofX : list (tok * string) :=
  [(kw_oneof, "oneof"); (tok_identifier, "X"); (tok_l_brace, "{");
   (tok_identifier, "a"); (tok_comma, ","); (tok_identifier, "a");
   (tok_r_brace, "}")].

(** [var (a, b) : (Int, Int) = (1, 2)] *)
Definition varAB : list (tok * string) :=
  [(kw_var, "var"); (tok_l_paren, "("); (tok_identifier, "a");
   (tok_comma, ","); (tok_identifier, "b"); (tok_r_paren, ")");
   (tok_colon, ":"); (tok_l_paren, "("); (tok_identifier, "Int");
   (tok_comma, ","); (tok_identifier, "Int"); (tok_r_paren, ")");
   (tok_equal, "="); (tok_l_paren, "("); (tok_numeric_constant, "1");
   (tok_comma, ","); (tok_numeric_constant, "2"); (tok_r_paren, ")")].

(** [var (a, b, c) : (Int, Int) = (1, 2)] *)
Definition varABC : list (tok * string) :=
  [(kw_var, "var"); (tok_l_paren, "("); (tok_identifier, "a");
   (tok_comma, ","); (tok_identifier, "b"); (tok_comma, ",");
   (tok_identifier, "c"); (tok_r_paren, ")");
   (tok_colon, ":"); (tok_l_paren, "("); (tok_identifier, "Int");
   (tok_comma, ","); (tok_identifier, "Int"); (tok_r_paren, ")");
   (tok_equal, "="); (tok_l_paren, "("); (tok_numeric_constant, "1");
   (tok_comma, ","); (tok_numeric_constant, "2"); (tok_r_paren, ")")].

(** [var () : ()] *)
Definition varUnit : list (tok * string) :=
  [(kw_var, "var"); (tok_l_paren, "("); (tok_r_paren, ")");
   (tok_colon, ":"); (tok_l_paren, "("); (tok_r_paren, ")")].

(** [func Point::area() -> Int {}] *)
Definition funcArea : list (tok * string) :=
  [(kw_func, "func"); (tok_identifier, "Point"); (tok_coloncolon, "::");
   (tok_identifier, "area"); (tok_l_paren, "("); (tok_r_paren, ")");
   (tok_arrow, "->"); (tok_identifier, "Int"); (tok_l_brace, "{");
   (tok_r_brace, "}")].

(** [func area(Point) -> Int {}] *)
Definition funcAreaFree : list (tok * string) :=
  [(kw_func, "func"); (tok_identifier, "area"); (tok_l_paren, "(");
   (tok_identifier, "Point"); (tok_r_paren, ")"); (tok_arrow, "->");
   (tok_identifier, "Int"); (tok_l_brace, "{"); (tok_r_brace, "}")].

(** [func run()] *)
Definition funcRun : list (tok * string) :=
  [(kw_func, "func"); (tok_identifier, "run"); (tok_l_paren, "(");
   (tok_r_paren, ")")].

(** [protocol P { func f() -> Int }] *)
Definition protocolP : list (tok * string) :=
  [(kw_protocol, "protocol"); (tok_identifier, "P"); (tok_l_brace, "{");
   (kw_func, "func"); (tok_identifier, "f"); (tok_l_paren, "(");
   (tok_r_paren, ")"); (tok_arrow, "->"); (tok_identifier, "Int");
   (tok_r_brace, "}")].

(** The body [{ func f() -> Int }] of the protocol above. *)
Definition protocolBodyP : list (tok * string) :=
  [(tok_l_brace, "{"); (kw_func, "func"); (tok_identifier, "f");
   (tok_l_paren, "("); (tok_r_paren, ")"); (tok_arrow, "->");
   (tok_identifier, "Int"); (tok_r_brace, "}")].

(** A parser positioned on the first token, after the alias [N] has been
    entered in scope as a stub. *)
Definition startAfterAlias (N : Identifier) (l : list (tok * string)) : Parser :=
  match addTypeAliasToScope 0 N None (start l) with
  | Ok _ Q => Q
  | Crash _ Q => Q
  end.

(** [[foo, infix_left]] followed by a name *)
Definition attrsUnknownFirst : list (tok * string) :=
  [(tok_l_square, "["); (tok_identifier, "foo"); (tok_comma, ",");
   (tok_identifier, "infix_left"); (tok_r_square, "]");
   (tok_identifier, "x")].

(** [[infix_left = foo, infix_right]] followed by a name *)
Definition attrsBadPrecedence : list (tok * string) :=
  [(tok_l_square, "["); (tok_identifier, "infix_left"); (tok_equal, "=");
   (tok_identifier, "foo"); (tok_comma, ","); (tok_identifier, "infix_right");
   (tok_r_square, "]"); (tok_identifier, "x")].

(** [extension Foo { var }] *)
Definition extensionVar : list (tok * string) :=
  [(kw_extension, "extension"); (tok_identifier, "Foo"); (tok_l_brace, "{");
   (kw_var, "var"); (tok_r_brace, "}")].

(** [var }], the member of the extension above *)
Definition varMissingName : list (tok * string) :=
  [(kw_var, "var"); (tok_r_brace, "}")].

(** [var + : Int], [import M] and [func + ()]: a var, an import and an
    operator-named function, as met inside a oneof body *)
Definition varInBody : list (tok * string) :=
  [(kw_var, "var"); (tok_oper, "+"); (tok_colon, ":"); (tok_identifier, "Int")].

Definition importM : list (tok * string) :=
  [(kw_import, "import"); (tok_identifier, "M")].

Definition funcPlus : list (tok * string) :=
  [(kw_func, "func"); (tok_oper, "+"); (tok_l_paren, "("); (tok_r_paren, ")")].

End Frontend.

(** ** Specification-level readings used by the theorems *)

(** First-wins selection of the cases of a union: a case is kept unless a
    case kept before it already has its name. *)
Fixpoint firstOccurrencesFrom (Kept Elts : list OneOfElementInfo)
  : list OneOfElementInfo :=
  match Elts with
  | [] => []
  | Elt :: Elts' =>
      if existsb (String.eqb (EI_Name Elt)) (List.map EI_Name Kept)
      then firstOccurrencesFrom Kept Elts'
      else Elt :: firstOccurrencesFrom (Kept ++ [Elt]) Elts'
  end.

Definition firstOccurrences := firstOccurrencesFrom [].

(** The diagnostics owed for the rejected cases: the duplicate is reported
    at its own location, then the kept case of the same name is pointed at. *)
Fixpoint duplicateDiagsFrom (Kept Elts : list OneOfElementInfo)
  : list Diagnostic :=
  match Elts with
  | [] => []
  | Elt :: Elts' =>
      if existsb (String.eqb (EI_Name Elt)) (List.map EI_Name Kept)
      then mkDiag (EI_NameLoc Elt) duplicate_oneof_element (EI_Name Elt)
           :: match List.find (fun K => String.eqb (EI_Name K) (EI_Name Elt)) Kept with
              | Some First =>
                  [mkDiag (EI_NameLoc First) previous_definition (EI_Name Elt)]
              | None => []
              end
           ++ duplicateDiagsFrom Kept Elts'
      else duplicateDiagsFrom (Kept ++ [Elt]) Elts'
  end.

Definition duplicateDiags := duplicateDiagsFrom [].

(** The declaration of a case of a named union: a case with a payload is a
    constructor from the payload type to the union's alias type, a case
    without one has the alias type itself. *)
Definition caseDecl (AliasTy : Ty) (DC : DeclContext) (Elt : OneOfElementInfo)
  : Decl :=
  mkDecl (OneOfElementDecl (EI_Name Elt)
            match EI_EltType Elt with
            | Some ArgTy => FunctionType ArgTy AliasTy
            | None => AliasTy
            end (EI_EltType Elt))
         (EI_NameLoc Elt) DC.

(** The leaves of a destructuring pattern, left to right, each with its
    access path of tuple-field indices from the root. *)
Fixpoint leavesOf (Name : DeclVarName) (AccessPath : list nat)
  : list (Identifier * SourceLoc * list nat) :=
  match Name with
  | VarNameSimple Id Loc => [(Id, Loc, AccessPath)]
  | VarNameTuple _ Elts _ =>
      (fix walk (Elts : list DeclVarName) (Index : nat) :=
         match Elts with
         | [] => []
         | Element :: Elts' =>
             leavesOf Element (AccessPath ++ [Index]) ++ walk Elts' (S Index)
         end) Elts 0
  end.

Fixpoint leavesOfElements (Elts : list DeclVarName) (AccessPath : list nat)
         (Index : nat) : list (Identifier * SourceLoc * list nat) :=
  match Elts with
  | [] => []
  | Element :: Elts' =>
      leavesOf Element (AccessPath ++ [Index])
      ++ leavesOfElements Elts' AccessPath (S Index)
  end.

Section Leaves.

Context {ext : Collaborators}.

(** The element-reference declarations owed to the leaves of a pattern
    bound to a variable of type [T]: one per leaf whose access path has a
    type in [T]. *)
Definition elementRefs (T : Ty) (VD : DeclId) (DC : DeclContext)
           (Leaves : list (Identifier * SourceLoc * list nat)) : list Decl :=
  flat_map (fun Leaf =>
              match getTypeForPath T (snd Leaf) with
              | Some Ty =>
                  [mkDecl (ElementRefDecl VD (fst (fst Leaf)) (snd Leaf) Ty)
                          (snd (fst Leaf)) DC]
              | None => []
              end) Leaves.

(** The diagnostics owed to the leaves whose access path has no type. *)
Definition invalidPathDiags (T : Ty)
           (Leaves : list (Identifier * SourceLoc * list nat))
  : list Diagnostic :=
  flat_map (fun Leaf =>
              match getTypeForPath T (snd Leaf) with
              | Some _ => []
              | None => [mkDiag (snd (fst Leaf)) invalid_index_in_var_name_path
                                (fst (fst Leaf))]
              end) Leaves.

End Leaves.

(** The scope bindings of declarations allocated one after the other from
    [First] on, the newest first, as [addToScope] leaves them. *)
Fixpoint bindingsFrom (First : DeclId) (Ds : list Decl)
  : list (Identifier * DeclId) :=
  match Ds with
  | [] => []
  | D :: Ds' => bindingsFrom (S First) Ds' ++ [(Decl_getName D, First)]
  end.

(** The contextual restriction a declaration violates, if any: an import
    when imports are not allowed, a var when vars are disallowed, an
    operator-named declaration when operators are disallowed. *)
Definition violation (Flags : nat) (P : Parser) (D : DeclId) : option diag :=
  if isaImportDecl P D then
    if hasFlag Flags PD_AllowImport then None else Some import_inner_scope
  else if isaVarDecl P D && hasFlag Flags PD_DisallowVar then
    Some disallowed_var_decl
  else if isaNamedDecl P D && isOperator P D
          && hasFlag Flags PD_DisallowOperators then
    Some operator_in_decl
  else None.

(** The diagnostics the dispatcher owes for a list of entries: one per
    violating declaration, at its location. *)
Definition diagsOfViolations (Flags : nat) (P : Parser)
           (Entries : list (option DeclId)) : list Diagnostic :=
  flat_map (fun Entry =>
              match Entry with
              | Some D => match violation Flags P D with
                          | Some d => [mkDiag (getDeclLoc P D) d ""]
                          | None => []
                          end
              | None => []
              end) Entries.

(** Two parser states with the same AST, scope registry and declaration
    context: they differ at most in the token cursor and the diagnostics. *)
Definition sameAST (P P' : Parser) : Prop :=
  DeclArena P' = DeclArena P /\ OneOfTypes P' = OneOfTypes P /\
  ProtocolTypes P' = ProtocolTypes P /\ FuncExprs P' = FuncExprs P /\
  OtherNodes P' = OtherNodes P /\ ScopeInfo P' = ScopeInfo P /\
  CurDeclContext P' = CurDeclContext P.

(** A routine that only moves the token cursor and reports diagnostics. *)
Definition tokensOnly {A} (m : M A) : Prop :=
  forall P, match m P with
            | Ok _ P' => sameAST P P'
            | Crash _ P' => sameAST P P'
            end.

(** The number of tokens not yet consumed, the current one included; the
    end of the file does not count. *)
Definition tokensLeft (P : Parser) : nat :=
  length (Lexer P) + (if Token_is (Tok P) tok_eof then 0 else 1).

(** A routine that never runs out of fuel and never gives a token back. *)
Definition advances {A} (m : M A) : Prop :=
  forall P, match m P with
            | Ok _ P' => tokensLeft P' <= tokensLeft P
            | Crash F _ => F <> OutOfFuel
            end.

(** The effect of binding the leaves of a pattern: the declarations [Refs]
    are appended to the arena and bound, in this order, in the current
    lexical block, the diagnostics [Ds] are reported, and nothing else
    changes. *)
Definition boundRefs (P P' : Parser) (Refs : list Decl) (Ds : list Diagnostic)
  : Prop :=
  DeclArena P' = DeclArena P ++ Refs /\
  Diags P' = Diags P ++ Ds /\
  currentFrame P' = bindingsFrom (length (DeclArena P)) Refs ++ currentFrame P /\
  tail (Frames (ScopeInfo P')) = tail (Frames (ScopeInfo P)) /\
  UnresolvedTypeList (ScopeInfo P') = UnresolvedTypeList (ScopeInfo P) /\
  CurDeclContext P' = CurDeclContext P.

Definition isElementRef (D : Decl) : bool :=
  match getDeclKind D with ElementRefDecl _ _ _ _ => true | _ => false end.

(** A routine that always returns, whatever the state it is entered in. *)
Definition returns {A} (m : M A) : Prop :=
  forall P, exists a P', m P = Ok a P'.

(** The precedence carried by an attribute record, if any, is between 0
    and 255. *)
Definition precedenceInRange (A : DeclAttributes) : Prop :=
  match Infix A with
  | Some D => (0 <= getPrecedence D <= 255)%Z
  | None => True
  end.

(** The tokens still to be read, the current one first. *)
Definition stream (P : Parser) : list Token := Tok P :: Lexer P.

(** The cursor of [P'] is at or after the cursor of [P] in the same token
    stream, or past its last token. *)
Definition movedOn (P P' : Parser) : Prop :=
  (exists Pre, stream P = Pre ++ stream P') \/
  (Tok P' = eofToken /\ Lexer P' = []).

(** A routine that only moves the cursor forward. *)
Definition forward {A} (m : M A) : Prop :=
  forall P, match m P with
            | Ok _ P' => movedOn P P'
            | Crash _ _ => True
            end.

(** The parser state once the current token has been consumed. *)
Definition next (P : Parser) : Parser :=
  withTok (fst (lex (Lexer P))) (snd (lex (Lexer P))) P.

(** The parser state once a diagnostic has been reported. *)
Definition reported (Ds : list Diagnostic) (P : Parser) : Parser :=
  withDiags (Diags P ++ Ds) P.

(** The tokens of the tail of a dotted path: each further component is
    written as a period followed by an identifier. *)
Fixpoint dottedPath (Ids : list (Identifier * SourceLoc)) : list Token :=
  match Ids with
  | [] => []
  | (Id, Loc) :: Ids' =>
      mkToken tok_period "." 0 :: mkToken tok_identifier Id Loc :: dottedPath Ids'
  end.

(** The parser with its cursor moved to the start of the tokens [Ts]. *)
Definition cursorAt (Ts : list Token) (P : Parser) : Parser :=
  withTok (fst (lex Ts)) (snd (lex Ts)) P.

(** The tokens a var name is written with: an identifier for a simple
    name, and for a pattern its elements between parentheses, separated by
    commas.  The tokens carry the locations recorded in the name. *)
Fixpoint varNameTokens (N : DeclVarName) : list Token :=
  match N with
  | VarNameSimple Id Loc => [mkToken tok_identifier Id Loc]
  | VarNameTuple LP Elts RP =>
      mkToken tok_l_paren "(" LP
      :: (fix elems (Elts : list DeclVarName) : list Token :=
            match Elts with
            | [] => []
            | E :: Elts' =>
                varNameTokens E
                ++ match Elts' with
                   | [] => []
                   | _ :: _ => mkToken tok_comma "," 0 :: elems Elts'
                   end
            end) Elts
      ++ [mkToken tok_r_paren ")" RP]
  end.

Fixpoint varNameElementsTokens (Elts : list DeclVarName) : list Token :=
  match Elts with
  | [] => []
  | E :: Elts' =>
      varNameTokens E
      ++ match Elts' with
         | [] => []
         | _ :: _ => mkToken tok_comma "," 0 :: varNameElementsTokens Elts'
         end
  end.

(** The diagnostics owed to the fields of a struct body that have no
    name: one per unnamed field, all at the opening brace. *)
Definition unnamedMemberDiags (LBLoc : SourceLoc) (Fields : list (Ty * Identifier))
  : list Diagnostic :=
  List.map (fun _ => mkDiag LBLoc struct_unnamed_member "")
           (List.filter (fun Elt => String.eqb (snd Elt) "") Fields).

(** The parser state after a closing token was expected: the token is
    consumed when it is there; otherwise its absence is reported at the
    current token, with a note at the opening token, and nothing is
    consumed. *)
Definition afterClosing (K : tok) (D : diag) (OpenLoc : SourceLoc) (Note : diag)
           (P : Parser) : Parser :=
  if Token_is (Tok P) K then next P
  else reported [mkDiag (getLoc (Tok P)) D ""; mkDiag OpenLoc Note ""] P.

(** The tokens a list of cases without payload is written with:
    identifiers separated by commas. *)
Fixpoint caseTokens (Cases : list (Identifier * SourceLoc)) : list Token :=
  match Cases with
  | [] => []
  | (N, Loc) :: Cases' =>
      mkToken tok_identifier N Loc
      :: match Cases' with
         | [] => []
         | _ :: _ => mkToken tok_comma "," 0 :: caseTokens Cases'
         end
  end.

(** The element info of a case without payload. *)
Definition plainCase (C : Identifier * SourceLoc) : OneOfElementInfo :=
  mkOneOfElementInfo (fst C) (snd C) None.

(** The declaration of a case whose type is [T]: the name, the location
    and the payload type are those of the written case. *)
Definition caseDeclOfType (T : Ty) (DC : DeclContext) (Elt : OneOfElementInfo)
  : Decl :=
  mkDecl (OneOfElementDecl (EI_Name Elt) T (EI_EltType Elt)) (EI_NameLoc Elt) DC.

(** The type of a case of the union [U]: a case with a payload is a
    constructor from the payload type to the union, a case without one
    has the type of the union itself. *)
Definition caseType (U : Ty) (Elt : OneOfElementInfo) : Ty :=
  match EI_EltType Elt with
  | Some ArgTy => FunctionType ArgTy U
  | None => U
  end.

(** More example programs. *)
(** The access path of an element reference (the empty path for any other
    declaration). *)
Definition getAccessPath (D : Decl) : list nat :=
  match getDeclKind D with
  | ElementRefDecl _ _ AccessPath _ => AccessPath
  | _ => []
  end.

Module Samples.

(** [infix_right ]], the second entry of [[infix_left = 50, infix_right]] *)
Definition fixityRight : list (tok * string) :=
  [(tok_identifier, "infix_right"); (tok_r_square, "]")].

(** [infix = 300 ]] and [infix = 255 ]] *)
Definition fixity300 : list (tok * string) :=
  [(tok_identifier, "infix"); (tok_equal, "="); (tok_numeric_constant, "300");
   (tok_r_square, "]")].

Definition fixity255 : list (tok * string) :=
  [(tok_identifier, "infix"); (tok_equal, "="); (tok_numeric_constant, "255");
   (tok_r_square, "]")].

(** [import a.] followed by [var]: the path breaks off after a period *)
Definition importBroken : list (tok * string) :=
  [(kw_import, "import"); (tok_identifier, "a"); (tok_period, ".");
   (kw_var, "var")].

(** [var x : Int = 1] *)
Definition varX : list (tok * string) :=
  [(kw_var, "var"); (tok_identifier, "x"); (tok_colon, ":");
   (tok_identifier, "Int"); (tok_equal, "="); (tok_numeric_constant, "1")].

(** [func f() }], the members of a body up to its closing brace *)
Definition membersF : list (tok * string) :=
  [(kw_func, "func"); (tok_identifier, "f"); (tok_l_paren, "(");
   (tok_r_paren, ")"); (tok_r_brace, "}")].

(** [struct S { Int }] and [struct S { Int], the latter without its
    closing brace *)
Definition structUnnamed : list (tok * string) :=
  [(kw_struct, "struct"); (tok_identifier, "S"); (tok_l_brace, "{");
   (tok_identifier, "Int"); (tok_r_brace, "}")].

Definition structOpen : list (tok * string) :=
  [(kw_struct, "struct"); (tok_identifier, "S"); (tok_l_brace, "{");
   (tok_identifier, "Int")].

(** [extension Foo { func f()], without its closing brace *)
Definition extensionOpen : list (tok * string) :=
  [(kw_extension, "extension"); (tok_identifier, "Foo"); (tok_l_brace, "{");
   (kw_func, "func"); (tok_identifier, "f"); (tok_l_paren, "(");
   (tok_r_paren, ")")].

(** [oneof E { a, a, b], without its closing brace *)
Definition oneofOpen : list (tok * string) :=
  [(kw_oneof, "oneof"); (tok_identifier, "E"); (tok_l_brace, "{");
   (tok_identifier, "a"); (tok_comma, ","); (tok_identifier, "a");
   (tok_comma, ","); (tok_identifier, "b")].

(** [func f() { x], a function whose body does not parse *)
Definition funcBadBody : list (tok * string) :=
  [(kw_func, "func"); (tok_identifier, "f"); (tok_l_paren, "(");
   (tok_r_paren, ")"); (tok_l_brace, "{"); (tok_identifier, "x")].

(** [protocol P { typealias], a body with a member that is neither a
    func nor a var, and [protocol P {}], an empty body *)
Definition protocolForeign : list (tok * string) :=
  [(kw_protocol, "protocol"); (tok_identifier, "P"); (tok_l_brace, "{");
   (kw_typealias, "typealias")].

Definition protocolEmpty : list (tok * string) :=
  [(kw_protocol, "protocol"); (tok_identifier, "P"); (tok_l_brace, "{");
   (tok_r_brace, "}")].

(** The body [{ func f() -> Int var x : Int }] of a protocol, and the
    protocol [P] with that body *)
Definition protocolBodyFX : list (tok * string) :=
  [(tok_l_brace, "{"); (kw_func, "func"); (tok_identifier, "f");
   (tok_l_paren, "("); (tok_r_paren, ")"); (tok_arrow, "->");
   (tok_identifier, "Int"); (kw_var, "var"); (tok_identifier, "x");
   (tok_colon, ":"); (tok_identifier, "Int"); (tok_r_brace, "}")].

Definition protocolFX : list (tok * string) :=
  (kw_protocol, "protocol") :: (tok_identifier, "P") :: protocolBodyFX.

(** [protocol P { var () : () }] *)
Definition protocolVarUnit : list (tok * string) :=
  [(kw_protocol, "protocol"); (tok_identifier, "P"); (tok_l_brace, "{");
   (kw_var, "var"); (tok_l_paren, "("); (tok_r_paren, ")");
   (tok_colon, ":"); (tok_l_paren, "("); (tok_r_paren, ")");
   (tok_r_brace, "}")].

End Samples.

(** The members of a protocol body, read one after the other from the
    answers of the two member parsers: at [func] the func parser, called
    with the protocol's own type as receiver, at [var] the simple var
    parser, up to the closing brace.  [k] is the recursion budget of the
    var parser. *)
Section ProtocolMembers.

Context {ext : Collaborators}.

Inductive protocolMembers (k : nat) (ThisType : Ty)
  : Parser -> list DeclId -> Parser -> Prop :=
| members_end (P : Parser) :
    Token_is (Tok P) tok_r_brace = true ->
    protocolMembers k ThisType P [] P
| members_func (P P1 P' : Parser) (D : DeclId) (Ds : list DeclId) :
    Token_is (Tok P) kw_func = true ->
    parseDeclFunc (Some ThisType) P = Ok (Some D) P1 ->
    protocolMembers k ThisType P1 Ds P' ->
    protocolMembers k ThisType P (D :: Ds) P'
| members_var (P P1 P' : Parser) (D : DeclId) (Ds : list DeclId) :
    Token_is (Tok P) kw_var = true ->
    parseDeclVarSimple k P = Ok (Some D) P1 ->
    protocolMembers k ThisType P1 Ds P' ->
    protocolMembers k ThisType P (D :: Ds) P'.

End ProtocolMembers.

(** * Properties *)

(** ** Running the monad *)

Lemma bind_Ok {A B} (m : M A) (k : A -> M B) (P P' : Parser) (b : B) :
  bind m k P = Ok b P' ->
  exists a P1, m P = Ok a P1 /\ k a P1 = Ok b P'.
Proof.
  unfold bind. destruct (m P) as [a P1|F P1]; [eauto | discriminate].
Qed.

Lemma bind_Crash {A B} (m : M A) (k : A -> M B) (P P' : Parser) (F : Fault) :
  bind m k P = Crash F P' ->
  m P = Crash F P' \/ exists a P1, m P = Ok a P1 /\ k a P1 = Crash F P'.
Proof.
  unfold bind. destruct (m P) as [a P1|F1 P1]; [eauto | left; congruence].
Qed.

Lemma bind_eq {A B} (m : M A) (k : A -> M B) (P P1 : Parser) (a : A) :
  m P = Ok a P1 -> bind m k P = k a P1.
Proof. unfold bind. intros ->. reflexivity. Qed.

(** Inverting one monadic step of a successful run. *)
Tactic Notation "bind_inv" hyp(H) "as" ident(a) ident(Q) ident(E) :=
  apply bind_Ok in H as (a & Q & E & H).

(** ** Token skipping *)

Lemma skipLoop_stops (stop : Token -> bool) (Lx : list Token) (T : Token) :
  stop eofToken = true -> stop (fst (skipLoop stop T Lx)) = true.
Proof.
  intros Heof. revert T.
  induction Lx as [|T' Lx IH]; intros T; simpl.
  - destruct (stop T) eqn:E; simpl; assumption.
  - destruct (stop T) eqn:E; simpl; [assumption | apply IH].
Qed.

Lemma skipLoop_stay (stop : Token -> bool) (Lx : list Token) (T : Token) :
  stop T = true -> skipLoop stop T Lx = (T, Lx).
Proof. intros H. destruct Lx; simpl; rewrite H; reflexivity. Qed.

(** ** Attribute lists *)

Lemma parseAttributeLoop_no_comma (n : nat) (HadError : bool)
      (A : DeclAttributes) (P : Parser) :
  Token_is (Tok P) tok_comma = false ->
  parseAttributeLoop n HadError A P = Ok (HadError, A) P.
Proof. intros H. destruct n; simpl; rewrite H; reflexivity. Qed.

Lemma Token_is_excl (T : Token) (K1 K2 : tok) :
  Token_is T K1 = true -> K1 <> K2 -> Token_is T K2 = false.
Proof.
  unfold Token_is. destruct (getKind T), K1; simpl; try discriminate;
    destruct K2; simpl; congruence.
Qed.

(** C7 (as amended).  An unknown attribute identifier, or an entry that
    does not start with an identifier, is reported once and the parser
    skips to the closing square bracket (or the end of the file): the
    attribute record is unchanged and the comma loop of the list does not
    run again, so the attributes after the bad entry are not parsed.  Only
    a fixity attribute whose [=] is not followed by a numeric constant
    resynchronizes at the next comma or closing bracket; it keeps the
    default precedence 100 and is not an error of the list. *)
Theorem parseAttribute_unknown_skips_to_bracket :
  (forall (Attributes : DeclAttributes) (P : Parser),
      (if Token_is (Tok P) tok_identifier then isInfixAttr (Tok P) else None)
      = None ->
      exists P',
        parseAttribute Attributes P = Ok (true, Attributes) P' /\
        Diags P' =
          Diags P ++ [if Token_is (Tok P) tok_identifier
                      then mkDiag (getLoc (Tok P)) unknown_attribute (getText (Tok P))
                      else mkDiag (getLoc (Tok P)) expected_attribute_name ""] /\
        (Tok P', Lexer P') =
          skipLoop (fun T => Token_is T tok_eof || Token_is T tok_r_square)
                   (Tok P) (Lexer P) /\
        Token_is (Tok P') tok_eof || Token_is (Tok P') tok_r_square = true /\
        forall n HadError A,
          parseAttributeLoop n HadError A P' = Ok (HadError, A) P') /\
  (forall (Attributes : DeclAttributes) (P : Parser) (Assoc : Associativity)
          (EqTok Bad : Token) (Rest : list Token),
      Token_is (Tok P) tok_identifier = true ->
      isInfixAttr (Tok P) = Some Assoc ->
      Lexer P = EqTok :: Bad :: Rest ->
      Token_is EqTok tok_equal = true ->
      Token_is Bad tok_numeric_constant = false ->
      exists P',
        parseAttribute Attributes P
        = Ok (false, mkDeclAttributes (LSquareLoc Attributes)
                       (RSquareLoc Attributes)
                       (Some (mkInfixData 100 Assoc))) P' /\
        (Tok P', Lexer P') =
          skipLoop (fun T => Token_is T tok_eof || Token_is T tok_r_square
                             || Token_is T tok_comma) Bad Rest /\
        In (mkDiag (getLoc Bad) expected_precedence_value "") (Diags P')).
Proof.
  split.
  - intros Attributes P Hbad.
    unfold parseAttribute. rewrite Hbad.
    unfold bind, diagnoseTok, diagnose, skipUntil, modify, ret.
    destruct (Token_is (Tok P) tok_identifier) eqn:Hid; simpl;
      destruct (skipLoop _ (Tok P) (Lexer P)) as [T Lx] eqn:Hskip; simpl;
      (eexists; split; [reflexivity|]; simpl;
       split; [reflexivity|]; split; [reflexivity|];
       pose proof (skipLoop_stops
                     (fun T => Token_is T tok_eof || Token_is T tok_r_square)
                     (Lexer P) (Tok P) eq_refl) as Hstop;
       rewrite Hskip in Hstop; simpl in Hstop;
       split; [exact Hstop|];
       intros n HadError A; apply parseAttributeLoop_no_comma; simpl;
       apply orb_true_iff in Hstop as [Hs|Hs];
       eapply Token_is_excl; eauto; discriminate).
  - intros Attributes P Assoc EqTok Bad Rest Hid Hinfix HLx Heq Hbad.
    unfold parseAttribute. rewrite Hid, Hinfix.
    destruct P as [T Lx Ds Ar OO PT FE ON SI DC]; simpl in *. subst Lx.
    unfold bind, when_, diagnoseTok, diagnose, consumeTokenK, curTokIs, gets,
      assert_, consumeToken, consumeIf, parseToken, parseTokenLoc, skipUntil2,
      modify, ret, bind; simpl.
    destruct (isInfix Attributes); simpl; rewrite Hid; simpl;
      rewrite Heq; simpl; rewrite Hbad; simpl;
      destruct (skipLoop _ Bad Rest) as [T' Lx'] eqn:Hskip; simpl;
      (eexists; split; [reflexivity|]; simpl; split; [reflexivity|]);
      apply in_or_app; right; left; reflexivity.
Qed.

(** The run of the theorem above on [[foo, infix_left] x] and on
    [[infix_left = foo, infix_right] x]. *)
Lemma parseAttribute_unknown_skips_to_bracket_witness :
  (exists P',
      parseAttribute noAttributes
        (Frontend.start (tail Frontend.attrsUnknownFirst))
      = Ok (true, noAttributes) P' /\
      getKind (Tok P') = tok_r_square) /\
  (exists P',
      parseAttribute noAttributes
        (Frontend.start (tail Frontend.attrsBadPrecedence))
      = Ok (false, mkDeclAttributes 0 0 (Some (mkInfixData 100 Assoc_Left))) P' /\
      getKind (Tok P') = tok_comma).
Proof.
  split.
  - destruct (proj1 parseAttribute_unknown_skips_to_bracket noAttributes
                (Frontend.start (tail Frontend.attrsUnknownFirst)) eq_refl)
      as (P' & Hrun & _ & Hpos & _).
    exists P'. split; [exact Hrun|].
    replace (Tok P') with (fst (Tok P', Lexer P')) by reflexivity.
    rewrite Hpos. reflexivity.
  - destruct (proj2 parseAttribute_unknown_skips_to_bracket noAttributes
                (Frontend.start (tail Frontend.attrsBadPrecedence)) Assoc_Left
                _ _ _ eq_refl eq_refl eq_refl eq_refl eq_refl)
      as (P' & Hrun & Hpos & _).
    exists P'. split; [exact Hrun|].
    replace (Tok P') with (fst (Tok P', Lexer P')) by reflexivity.
    rewrite Hpos. reflexivity.
Defined.

(** C7 (as stated) fails on [[foo, infix_left] x]: after the unknown
    attribute [foo] the fixity attribute [infix_left] of the same list is
    not recorded. *)
Lemma unknown_attribute_poisons_list :
  ~ exists A P',
      parseAttributeListPresent noAttributes
        (Frontend.start Frontend.attrsUnknownFirst) = Ok A P' /\
      isInfix A = true.
Proof.
  intros (A & P' & Hrun & Hinfix).
  vm_compute in Hrun. injection Hrun as HA _. subst A. discriminate.
Qed.

(** ** End of the translation unit *)

(** C1 (as amended).  At the end of the file [parseTranslationUnit] reads
    the worklist of forward-referenced aliases of the scope registry and
    records on the translation unit exactly those that still have no
    underlying type; it reports nothing itself: the parser state it
    returns is the one the body parser left, diagnostics included. *)
Theorem parseTranslationUnit_records_unresolved
        (parseBraceItemList : bool -> M (list ExprStmtOrDecl))
        (path_stem : string -> string) (BufferIdentifier : string)
        (P P1 : Parser) (Items : list ExprStmtOrDecl) :
  parseBraceItemList true
    (withCurDeclContext DC_TranslationUnit
       (withTok (fst (lex (Lexer P))) (snd (lex (Lexer P))) P))
  = Ok Items P1 ->
  exists TU,
    parseTranslationUnit parseBraceItemList path_stem BufferIdentifier P
    = Ok TU P1 /\
    BraceElements (Body TU) = Items /\
    (forall D, In D (UnresolvedTypesForParser TU) <->
               In D (UnresolvedTypeList (ScopeInfo P1))
               /\ hasUnderlyingType P1 D = false) /\
    UnresolvedScopedTypesForParser TU
    = UnresolvedScopedTypeList (ScopeInfo P1).
Proof.
  intros Hbody.
  unfold parseTranslationUnit, bind, consumeToken, tokLoc, gets, modify.
  destruct (lex (Lexer P)) as [T Lx] eqn:Hlex. simpl in Hbody |- *.
  rewrite Hbody. simpl.
  eexists. split; [reflexivity|]. simpl.
  split; [reflexivity|]. split; [|reflexivity].
  intros D. rewrite filter_In, negb_true_iff. reflexivity.
Qed.

(** The run of the theorem above on the file [func Point::area() -> Int {}]:
    both [Point] and [Int] are recorded as unresolved. *)
Lemma parseTranslationUnit_records_unresolved_witness :
  exists TU P1,
    Frontend.translationUnit "area.swift" (Frontend.fresh Frontend.funcArea)
    = Ok TU P1 /\
    UnresolvedTypesForParser TU = [0; 1] /\
    Diags P1 = [].
Proof.
  assert (H : exists Items P1,
             Frontend.braceItemList true
               (withCurDeclContext DC_TranslationUnit
                  (withTok (fst (lex (Lexer (Frontend.fresh Frontend.funcArea))))
                           (snd (lex (Lexer (Frontend.fresh Frontend.funcArea))))
                           (Frontend.fresh Frontend.funcArea)))
             = Ok Items P1 /\ Diags P1 = []).
  { vm_compute. do 2 eexists. split; reflexivity. }
  destruct H as (Items & P1 & H & HD).
  destruct (parseTranslationUnit_records_unresolved
              Frontend.braceItemList (fun s => s) "area.swift" _ _ _ H)
    as (TU & Hrun & _).
  exists TU, P1. split; [exact Hrun|]. split; [|exact HD].
  vm_compute in Hrun. injection Hrun as HTU _. subst TU. reflexivity.
Defined.

(** C1 (as stated) fails on the file [func Point::area() -> Int {}]: the
    aliases [Point] and [Int] are still stubs at the end of the file and no
    diagnostic at all has been emitted. *)
Lemma unresolved_alias_not_diagnosed :
  ~ exists TU P1,
      Frontend.translationUnit "area.swift" (Frontend.fresh Frontend.funcArea)
      = Ok TU P1 /\
      forall D, In D (UnresolvedTypeList (ScopeInfo P1)) ->
                hasUnderlyingType P1 D = false ->
                exists d, In d (Diags P1) /\ DiagLoc d = getDeclLoc P1 D.
Proof.
  intros (TU & P1 & Hrun & Hdiag).
  vm_compute in Hrun. injection Hrun as _ HP. subst P1.
  destruct (Hdiag 0) as (d & Hin & _);
    [left; reflexivity | reflexivity | destruct Hin].
Qed.

(** ** The dispatcher *)

Section Dispatcher.

Context {ext : Collaborators}.

Lemma parseDecl_unfold (n : nat) (Entries : list (option DeclId)) (Flags : nat) :
  parseDecl (S n) Entries Flags
  = (r <- dispatchDecl (parseDecl n) n Entries ;;
     finishDecl (length Entries) Flags r).
Proof. reflexivity. Qed.

Lemma finishDecl_empty (EntryStart Flags : nat) (HadParseError : bool)
      (P : Parser) :
  finishDecl EntryStart Flags (HadParseError, []) P = Crash OutOfBounds P.
Proof. reflexivity. Qed.

(** C9 (violated by the code).  When [parseDecl] is entered with an empty
    entry list and the sub-parser for [var] or [struct] fails before it
    pushes anything, or the leading token starts no declaration at all,
    the check [Entries.back() == 0] after the switch reads the last
    element of an empty vector: the run leaves defined behaviour. *)
Theorem parseDecl_back_of_empty_entries (n Flags : nat) (P P' : Parser) :
  (getKind (Tok P) = kw_var /\ parseDeclVar n [] P = Ok (true, []) P') \/
  (getKind (Tok P) = kw_struct /\
   parseDeclStruct (parseDecl n) n [] P = Ok (true, []) P') \/
  (isStartOfDecl (Tok P) = false /\
   P' = withDiags (Diags P ++ [mkDiag (getLoc (Tok P)) expected_decl ""]) P) ->
  parseDecl (S n) [] Flags P = Crash OutOfBounds P'.
Proof.
  intros H. rewrite parseDecl_unfold. unfold bind, dispatchDecl.
  destruct H as [[Hk Hrun]|[[Hk Hrun]|[Hk ->]]].
  - rewrite Hk, Hrun. apply finishDecl_empty.
  - rewrite Hk, Hrun. apply finishDecl_empty.
  - unfold isStartOfDecl in Hk.
    destruct (getKind (Tok P)); try discriminate; reflexivity.
Qed.

End Dispatcher.

(** The run of the theorem above on the member [var }] of
    [extension Foo { var }], and the run of the whole extension. *)
Lemma parseDecl_back_of_empty_entries_witness :
  (exists P',
      @parseDecl Frontend.collaborators 2 [] PD_Default
                 (Frontend.start Frontend.varMissingName)
      = Crash OutOfBounds P') /\
  (exists P',
      @parseDecl Frontend.collaborators 3 [] PD_AllowImport
                 (Frontend.start Frontend.extensionVar)
      = Crash OutOfBounds P').
Proof.
  split.
  - eexists.
    apply (@parseDecl_back_of_empty_entries Frontend.collaborators 1 PD_Default).
    left. split; vm_compute; reflexivity.
  - eexists. vm_compute. reflexivity.
Defined.

Arguments hasFlag : simpl never.
Arguments isOperator : simpl never.

Lemma isaImportDecl_exclusive (P : Parser) (D : DeclId) :
  isaImportDecl P D = true -> isaVarDecl P D = false /\ isaNamedDecl P D = false.
Proof.
  unfold isaImportDecl, isaVarDecl, isaNamedDecl.
  destruct (getDecl P D) as [[[] Loc DC]|]; intros H; try discriminate; auto.
Qed.

Lemma isaVarDecl_named (P : Parser) (D : DeclId) :
  isaVarDecl P D = true -> isaNamedDecl P D = true.
Proof.
  unfold isaVarDecl, isaNamedDecl.
  destruct (getDecl P D) as [[[] Loc DC]|]; intros H; try discriminate; auto.
Qed.

Lemma withDiags_nil (P : Parser) : withDiags (Diags P ++ []) P = P.
Proof. destruct P; unfold withDiags; cbn. rewrite app_nil_r. reflexivity. Qed.

Lemma validateEntry_spec (Flags : nat) (D : DeclId) (P : Parser) :
  validateEntry Flags (Some D) P
  = Ok tt (withDiags (Diags P ++ diagsOfViolations Flags P [Some D]) P).
Proof.
  unfold validateEntry, diagsOfViolations, violation, flat_map, deref, when_.
  rewrite (bind_eq _ _ P P D eq_refl).
  destruct (isaImportDecl P D) eqn:Himp.
  - destruct (isaImportDecl_exclusive P D Himp) as [-> ->].
    destruct (hasFlag Flags PD_AllowImport); cbn [negb andb app];
      unfold bind, diagnose, modify, ret; cbn [withDiags Diags];
      rewrite ?withDiags_nil; reflexivity.
  - cbn [andb]. rewrite (bind_eq _ _ P P tt eq_refl).
    destruct (isaVarDecl P D) eqn:Hvar.
    + rewrite (isaVarDecl_named P D Hvar).
      destruct (hasFlag Flags PD_DisallowVar); cbn [andb app];
        [unfold diagnose, modify; reflexivity|].
      destruct (isOperator P D), (hasFlag Flags PD_DisallowOperators);
        cbn [andb app]; unfold diagnose, modify, ret;
        rewrite ?withDiags_nil; reflexivity.
    + cbn [andb].
      destruct (isaNamedDecl P D); cbn [andb app];
        [|unfold ret; rewrite withDiags_nil; reflexivity].
      destruct (isOperator P D), (hasFlag Flags PD_DisallowOperators);
        cbn [andb app]; unfold diagnose, modify, ret;
        rewrite ?withDiags_nil; reflexivity.
Qed.

Lemma diagsOfViolations_withDiags (Flags : nat) (P : Parser)
      (Ds : list Diagnostic) (l : list (option DeclId)) :
  diagsOfViolations Flags (withDiags Ds P) l = diagsOfViolations Flags P l.
Proof. reflexivity. Qed.

Lemma diagsOfViolations_cons (Flags : nat) (P : Parser) (D : DeclId)
      (l : list (option DeclId)) :
  diagsOfViolations Flags P (Some D :: l)
  = diagsOfViolations Flags P [Some D] ++ diagsOfViolations Flags P l.
Proof.
  unfold diagsOfViolations. cbn [flat_map]. rewrite app_nil_r. reflexivity.
Qed.

Lemma forEach_validateEntry (Flags : nat) (l : list (option DeclId))
      (P : Parser) :
  Forall (fun D : option DeclId => D <> None) l ->
  forEach l (validateEntry Flags) P
  = Ok tt (withDiags (Diags P ++ diagsOfViolations Flags P l) P).
Proof.
  intros Hl. revert P. induction Hl as [|[D|] l HD _ IH]; intros P.
  - cbn [forEach]. unfold ret. rewrite withDiags_nil. reflexivity.
  - cbn [forEach]. unfold bind. rewrite validateEntry_spec, IH.
    rewrite (diagsOfViolations_cons Flags P D l), app_assoc. reflexivity.
  - congruence.
Qed.

Lemma In_removelast_null (D : DeclId) (l : list (option DeclId)) :
  last l = Some None -> In (Some D) l -> In (Some D) (removelast l).
Proof.
  intros Hlast Hin. apply last_Some in Hlast as [l' ->].
  rewrite removelast_last.
  apply in_app_or in Hin as [Hin|[Hin|[]]]; [assumption | discriminate].
Qed.

Section Validation.

Context {ext : Collaborators}.

(** C8.  Let the sub-parser selected by the leading token return a
    non-empty entry list whose new entries, once a trailing null is popped,
    are all present.  Then [parseDecl] returns, and every declaration the
    sub-parser produced is checked against the restriction flags: a
    violating declaration gets one diagnostic at its location (import
    where imports are not allowed, var where vars are disallowed,
    operator-named declaration where operators are disallowed) and stays
    in the entry list.  The dispatcher changes nothing but the
    diagnostics, and the only entry it removes is the trailing null. *)
Theorem parseDecl_validates_and_keeps
        (n : nat) (Entries : list (option DeclId)) (Flags : nat)
        (P P1 : Parser) (E1 : bool) (Entries1 : list (option DeclId)) :
  dispatchDecl (parseDecl n) n Entries P = Ok (E1, Entries1) P1 ->
  let Null := match last Entries1 with Some None => true | _ => false end in
  let Kept := if Null then removelast Entries1 else Entries1 in
  let New := drop (length Entries) Kept in
  Entries1 <> [] ->
  (length Entries <= length Kept)%nat ->
  Forall (fun D : option DeclId => D <> None) New ->
  exists P',
    parseDecl (S n) Entries Flags P = Ok (E1 || Null, Kept) P' /\
    (forall D, In (Some D) Entries1 -> In (Some D) Kept) /\
    P' = withDiags (Diags P1 ++ diagsOfViolations Flags P1 New) P1 /\
    (forall D d, In (Some D) New ->
                 violation Flags P1 D = Some d ->
                 In (mkDiag (getDeclLoc P1 D) d "") (Diags P') /\
                 In (Some D) Kept /\
                 getDecl P' D = getDecl P1 D).
Proof.
  intros Hrun Null Kept New Hne Hlen Hall.
  eexists. split; [|split; [|split; [reflexivity|]]].
  - rewrite parseDecl_unfold. rewrite (bind_eq _ _ _ _ _ Hrun).
    unfold finishDecl.
    assert (Hback : match last Entries1 with
                    | None => crash OutOfBounds
                    | Some (Some _) => ret (E1, Entries1)
                    | Some None => ret (true, removelast Entries1)
                    end P1 = Ok (E1 || Null, Kept) P1).
    { subst Kept Null. destruct (last Entries1) as [[D0|]|] eqn:Hlast.
      - rewrite orb_false_r. reflexivity.
      - rewrite orb_true_r. reflexivity.
      - apply last_None in Hlast. contradiction. }
    rewrite (bind_eq _ _ _ _ _ Hback).
    apply Nat.ltb_ge in Hlen. rewrite Hlen.
    unfold bind at 1. unfold ret at 1.
    unfold bind at 1. fold New. rewrite (forEach_validateEntry _ _ _ Hall).
    reflexivity.
  - subst Kept Null. intros D HD.
    destruct (last Entries1) as [[D0|]|] eqn:Hlast; try assumption.
    apply In_removelast_null; assumption.
  - intros D d Hin Hviol. split; [|split].
    + cbn [Diags withDiags]. apply in_or_app. right. unfold diagsOfViolations.
      apply in_flat_map. exists (Some D). split; [assumption|].
      rewrite Hviol. left. reflexivity.
    + apply list_elem_of_In. eapply subseteq_drop.
      apply list_elem_of_In. eassumption.
    + reflexivity.
Qed.

End Validation.

(** The run of the theorem above on [var + : Int] met where vars and
    operators are disallowed: the var is reported and kept. *)
Lemma parseDecl_validates_and_keeps_witness :
  exists P',
    @parseDecl Frontend.collaborators 3 []
               (Nat.lor PD_DisallowVar PD_DisallowOperators)
               (Frontend.start Frontend.varInBody)
    = Ok (false, [Some 1]) P' /\
    In (mkDiag 1 disallowed_var_decl "") (Diags P').
Proof.
  pose (P1 := stateOf (@dispatchDecl Frontend.collaborators
                         (@parseDecl Frontend.collaborators 2) 2 []
                         (Frontend.start Frontend.varInBody))).
  assert (H : @dispatchDecl Frontend.collaborators
                 (@parseDecl Frontend.collaborators 2) 2 []
                 (Frontend.start Frontend.varInBody)
              = Ok (false, [Some 1]) P1) by (vm_compute; reflexivity).
  destruct (@parseDecl_validates_and_keeps Frontend.collaborators 2 []
              (Nat.lor PD_DisallowVar PD_DisallowOperators) _ _ _ _ H)
    as (P' & Hrun & _ & _ & Hall).
  - discriminate.
  - simpl. lia.
  - repeat constructor. discriminate.
  - exists P'. split; [exact Hrun|].
    apply (Hall 1 disallowed_var_decl); vm_compute; auto.
Defined.

(** ** Arena and scope steps *)

Lemma allocDecl_spec (K : DeclKind) (Loc : SourceLoc) (DC : DeclContext)
      (P P1 : Parser) (D : DeclId) :
  allocDecl K Loc DC P = Ok D P1 ->
  D = length (DeclArena P) /\
  P1 = withDeclArena (DeclArena P ++ [mkDecl K Loc DC]) P /\
  getDecl P1 D = Some (mkDecl K Loc DC).
Proof.
  unfold allocDecl. intros H. injection H as <- <-.
  split; [reflexivity|]. split; [reflexivity|].
  unfold getDecl. cbn [DeclArena withDeclArena].
  apply list_lookup_middle. reflexivity.
Qed.

Lemma addToScope_spec (D : DeclId) (P : Parser) :
  addToScope D P
  = Ok tt (withScopeInfo
             (mkScopeInfo (insertInnermost (getName P D) D (Frames (ScopeInfo P)))
                          (UnresolvedTypeList (ScopeInfo P))
                          (UnresolvedScopedTypeList (ScopeInfo P))) P).
Proof. reflexivity. Qed.

Lemma currentFrame_insertInnermost (N : Identifier) (D : DeclId) (P : Parser) :
  currentFrame
    (withScopeInfo
       (mkScopeInfo (insertInnermost N D (Frames (ScopeInfo P)))
                    (UnresolvedTypeList (ScopeInfo P))
                    (UnresolvedScopedTypeList (ScopeInfo P))) P)
  = (N, D) :: currentFrame P.
Proof.
  unfold currentFrame. cbn [ScopeInfo withScopeInfo Frames].
  destruct (Frames (ScopeInfo P)); reflexivity.
Qed.

(** ** Retargeting declaration contexts *)

Lemma withDeclArena_id (P : Parser) : withDeclArena (DeclArena P) P = P.
Proof. destruct P; reflexivity. Qed.

Lemma alterDecl_spec (f : Decl -> Decl) (D : DeclId) (P : Parser) :
  alterDecl f D P = Ok tt (withDeclArena (alter f D (DeclArena P)) P).
Proof. reflexivity. Qed.

Lemma getDecl_alter (f : Decl -> Decl) (D D' : DeclId) (P : Parser) :
  getDecl (withDeclArena (alter f D (DeclArena P)) P) D'
  = if decide (D = D') then f <$> getDecl P D' else getDecl P D'.
Proof.
  unfold getDecl. cbn [DeclArena withDeclArena].
  destruct (decide (D = D')) as [->|Hne].
  - apply list_lookup_alter_eq.
  - apply list_lookup_alter_ne. assumption.
Qed.

Lemma forEach_setDeclContext (DC : DeclContext) (l : list DeclId) (P : Parser) :
  exists P',
    forEach l (fun D => setDeclContext D DC) P = Ok tt P' /\
    P' = withDeclArena (DeclArena P') P /\
    forall D, getDecl P' D
              = if decide (elem_of D l)
                then Decl_setDeclContext DC <$> getDecl P D
                else getDecl P D.
Proof.
  revert P. induction l as [|D0 l IH]; intros P.
  - exists P. split; [reflexivity|]. split; [symmetry; apply withDeclArena_id|].
    intros D. destruct (decide (elem_of D [])) as [Hin|]; [|reflexivity].
    inversion Hin.
  - cbn [forEach]. unfold setDeclContext at 1.
    rewrite (bind_eq _ _ _ _ _ (alterDecl_spec _ D0 P)).
    destruct (IH (withDeclArena (alter (Decl_setDeclContext DC) D0 (DeclArena P)) P))
      as (P' & Hrun & Hsame & Hget).
    exists P'. split; [exact Hrun|]. split.
    { rewrite Hsame at 1. reflexivity. }
    intros D. rewrite Hget, getDecl_alter.
    destruct (decide (elem_of D l)) as [Hin|Hnin];
      destruct (decide (D0 = D)) as [->|Hne];
      destruct (decide (elem_of D (_ :: l))) as [Hin'|Hnin'];
      try reflexivity;
      try (exfalso; apply Hnin'; constructor; assumption).
    + destruct (getDecl P D) as [[k loc dc]|]; reflexivity.
    + exfalso. apply elem_of_cons in Hin' as [?|?]; auto.
Qed.

Lemma getContextOf_retargeted (DC : DeclContext) (P : Parser) (D : DeclId)
      (f : Decl -> Decl) (d : option Decl) :
  (forall x, getDeclContext (f x) = getDeclContext x) ->
  getDecl P D = f <$> (Decl_setDeclContext DC <$> d) ->
  is_Some (getDecl P D) ->
  getContextOf P D = DC.
Proof.
  intros Hf Hget [x Hx]. unfold getContextOf. rewrite Hget in *.
  destruct d as [d0|]; [|discriminate]. cbn. rewrite Hf. reflexivity.
Qed.

Lemma Decl_setUnderlyingType_context (T : Ty) (x : Decl) :
  getDeclContext (Decl_setUnderlyingType T x) = getDeclContext x.
Proof. unfold Decl_setUnderlyingType. destruct (getDeclKind x); reflexivity. Qed.

Lemma getUnderlyingType_completed (T : Ty) (TAD : DeclId) (P : Parser) :
  let P' := withDeclArena (alter (Decl_setUnderlyingType T) TAD (DeclArena P)) P in
  isaTypeAliasDecl P' TAD = true -> getUnderlyingType P' TAD = Some T.
Proof.
  cbn zeta. unfold isaTypeAliasDecl, getUnderlyingType.
  rewrite getDecl_alter. destruct (decide (TAD = TAD)) as [_|Hne]; [|congruence].
  destruct (getDecl P TAD) as [[[] loc dc]|]; cbn; congruence.
Qed.

Lemma when_diagnose (b : bool) (Loc : SourceLoc) (d : diag) (Arg : string)
      (P : Parser) :
  when_ b (diagnose Loc d Arg) P
  = Ok tt (withDiags (Diags P ++ if b then [mkDiag Loc d Arg] else []) P).
Proof. destruct b; [reflexivity|]. cbn [when_]. rewrite withDiags_nil. reflexivity. Qed.

Lemma consumeTokenK_matches (K : tok) (P : Parser) :
  Token_is (Tok P) K = true ->
  consumeTokenK K P
  = Ok (getLoc (Tok P)) (withTok (fst (lex (Lexer P))) (snd (lex (Lexer P))) P).
Proof.
  intros HK. unfold consumeTokenK, curTokIs, consumeToken, assert_, gets, ret.
  cbv beta delta [bind]. rewrite HK. cbv beta iota.
  destruct (lex (Lexer P)). reflexivity.
Qed.

Section Protocol.

Context {ext : Collaborators}.

(** The element loop of a protocol body only ends, short of a hard error,
    on the closing brace. *)
Lemma parseProtocolElements_stops_at_brace
      (n : nat) (ThisType : Ty) (Elements Elements' : list DeclId)
      (P Q : Parser) :
  parseProtocolElements n ThisType Elements P = Ok (Some Elements') Q ->
  Token_is (Tok Q) tok_r_brace = true.
Proof.
  revert Elements P. induction n as [|n IH]; intros Elements P Hrun;
    [discriminate|].
  assert (Hcont : forall Els P0,
             (more <- gets (fun P => Token_isNot (Tok P) tok_r_brace) ;;
              if more then parseProtocolElements n ThisType Els
              else ret (Some Els)) P0 = Ok (Some Elements') Q ->
             Token_is (Tok Q) tok_r_brace = true).
  { intros Els P0 H. unfold bind, gets, Token_isNot in H.
    destruct (Token_is (Tok P0) tok_r_brace) eqn:Hb; cbn [negb] in H.
    - injection H as _ <-. exact Hb.
    - eapply IH. exact H. }
  cbn [parseProtocolElements] in Hrun.
  destruct (getKind (Tok P));
    first [ bind_inv Hrun as u Q0 E0; discriminate
          | eapply Hcont; exact Hrun
          | bind_inv Hrun as r Q0 E0; destruct r as [D|]; [|discriminate];
            eapply Hcont; exact Hrun ].
Qed.

End Protocol.

(** ** Union cases *)

Lemma existsb_eqb_In (N : string) (l : list string) :
  existsb (String.eqb N) l = true <-> In N l.
Proof.
  rewrite existsb_exists. split.
  - intros (x & Hin & Heq). apply String.eqb_eq in Heq. subst. assumption.
  - intros Hin. exists N. split; [assumption | apply String.eqb_refl].
Qed.

Lemma firstOccurrencesFrom_names (Elts : list OneOfElementInfo) :
  forall (Kept : list OneOfElementInfo) (N : Identifier),
    In N (List.map EI_Name (firstOccurrencesFrom Kept Elts)) <->
    In N (List.map EI_Name Elts) /\ ~ In N (List.map EI_Name Kept).
Proof.
  induction Elts as [|Elt Elts IH]; intros Kept N;
    cbn [firstOccurrencesFrom List.map].
  - simpl. tauto.
  - destruct (existsb (String.eqb (EI_Name Elt)) (List.map EI_Name Kept)) eqn:Hseen.
    + apply existsb_eqb_In in Hseen. rewrite IH. simpl. split.
      * intros [H1 H2]. auto.
      * intros [[<-|H1] H2]; [contradiction | auto].
    + assert (Hn : ~ In (EI_Name Elt) (List.map EI_Name Kept)).
      { intro H. apply existsb_eqb_In in H. congruence. }
      cbn [List.map]. simpl In. rewrite IH, map_app, in_app_iff. simpl. split.
      * intros [<- | [H1 H2]]; [auto|]. split; [auto|]. intro; apply H2; auto.
      * intros [[<-|H1] H2]; [left; reflexivity|].
        destruct (string_dec (EI_Name Elt) N) as [->|Hne]; [left; reflexivity|].
        right. split; [assumption|]. intros [H|[H|[]]]; auto.
Qed.

Lemma firstOccurrencesFrom_NoDup (Elts : list OneOfElementInfo) :
  forall Kept : list OneOfElementInfo,
    List.NoDup (List.map EI_Name (firstOccurrencesFrom Kept Elts)).
Proof.
  induction Elts as [|Elt Elts IH]; intros Kept;
    cbn [firstOccurrencesFrom List.map].
  - constructor.
  - destruct (existsb (String.eqb (EI_Name Elt)) (List.map EI_Name Kept));
      [apply IH|].
    cbn [List.map]. constructor; [|apply IH].
    rewrite firstOccurrencesFrom_names. intros [_ H]. apply H.
    rewrite map_app, in_app_iff. right. left. reflexivity.
Qed.

Lemma find_previous_definition (P : Parser) (AliasTy : Ty) (DC : DeclContext)
      (N : Identifier) (EltDecls : list DeclId) (Kept : list OneOfElementInfo) :
  Forall2 (fun D e => getDecl P D = Some (caseDecl AliasTy DC e)) EltDecls Kept ->
  match List.find (fun D => String.eqb (getName P D) N) EltDecls with
  | Some D => [mkDiag (getDeclLoc P D) previous_definition N]
  | None => []
  end
  = match List.find (fun K => String.eqb (EI_Name K) N) Kept with
    | Some First => [mkDiag (EI_NameLoc First) previous_definition N]
    | None => []
    end.
Proof.
  induction 1 as [|D e EltDecls Kept HD _ IH]; [reflexivity|].
  cbn [List.find]. unfold getName, getDeclLoc in *. rewrite HD.
  cbn [caseDecl Decl_getName getDeclKind getLocStart].
  destruct (String.eqb (EI_Name e) N); [rewrite HD; reflexivity | exact IH].
Qed.

Lemma diagnose_previous_definition (N : Identifier) (EltDecls : list DeclId)
      (P : Parser) :
  match List.find (fun D => String.eqb (getName P D) N) EltDecls with
  | Some D => diagnose (getDeclLoc P D) previous_definition N P
  | None => Ok tt P
  end
  = Ok tt (withDiags
             (Diags P ++
              match List.find (fun D => String.eqb (getName P D) N) EltDecls with
              | Some D => [mkDiag (getDeclLoc P D) previous_definition N]
              | None => []
              end) P).
Proof.
  destruct (List.find _ EltDecls); [reflexivity|].
  rewrite withDiags_nil. reflexivity.
Qed.

Lemma actOnOneOfElements_spec (AliasTy : Ty) (Elts : list OneOfElementInfo) :
  forall (Seen : list Identifier) (EltDecls : list DeclId)
         (Kept : list OneOfElementInfo) (P : Parser),
    (forall N, existsb (String.eqb N) Seen
               = existsb (String.eqb N) (List.map EI_Name Kept)) ->
    Forall2 (fun D e => getDecl P D = Some (caseDecl AliasTy (CurDeclContext P) e))
            EltDecls Kept ->
    exists New P',
      actOnOneOfElements AliasTy true Elts Seen EltDecls P
      = Ok (EltDecls ++ New) P' /\
      Forall2 (fun D e => getDecl P' D
                          = Some (caseDecl AliasTy (CurDeclContext P) e))
              (EltDecls ++ New) (Kept ++ firstOccurrencesFrom Kept Elts) /\
      P' = withDiags (Diags P ++ duplicateDiagsFrom Kept Elts)
                     (withDeclArena (DeclArena P') P).
Proof.
  induction Elts as [|Elt Elts IH]; intros Seen EltDecls Kept P Hseen Hdecls.
  - exists [], P. cbn [actOnOneOfElements firstOccurrencesFrom duplicateDiagsFrom].
    rewrite !app_nil_r. split; [reflexivity|]. split; [assumption|].
    destruct P; reflexivity.
  - cbn [actOnOneOfElements firstOccurrencesFrom duplicateDiagsFrom].
    rewrite Hseen.
    destruct (existsb (String.eqb (EI_Name Elt)) (List.map EI_Name Kept)) eqn:Hdup.
    + (* a duplicate: diagnosed, not copied *)
      unfold bind at 1. cbn [diagnose modify].
      unfold bind at 1. rewrite diagnose_previous_definition.
      cbn [Diags withDiags].
      rewrite (find_previous_definition _ AliasTy (CurDeclContext P) _ _ Kept)
        by exact Hdecls.
      match goal with
      | |- context [actOnOneOfElements _ _ _ _ _ ?P2] =>
          destruct (IH Seen EltDecls Kept P2 Hseen Hdecls)
            as (New & P' & Hrun & Hall & HP')
      end.
      exists New, P'. split; [exact Hrun|]. split; [exact Hall|].
      rewrite HP' at 1. cbn [Diags withDiags withDeclArena].
      rewrite <- !app_assoc. reflexivity.
    + (* a new name: a declaration is created *)
      unfold bind at 1. cbn [gets]. unfold bind at 1. cbn [allocDecl].
      match goal with
      | |- context [actOnOneOfElements _ _ _ ?Seen' ?EltDecls' ?P1] =>
          destruct (IH Seen' EltDecls' (Kept ++ [Elt]) P1)
            as (New & P' & Hrun & Hall & HP')
      end.
      * intros N. cbn [existsb]. rewrite map_app, existsb_app, Hseen.
        cbn [List.map existsb]. rewrite orb_false_r. apply orb_comm.
      * apply Forall2_app.
        -- eapply Forall2_impl; [exact Hdecls|].
           intros D e HD. unfold getDecl in *.
           cbn [DeclArena withDeclArena CurDeclContext].
           rewrite lookup_app_l; [exact HD|].
           eapply lookup_lt_Some. exact HD.
        -- constructor; [|constructor].
           unfold getDecl. cbn [DeclArena withDeclArena CurDeclContext].
           rewrite list_lookup_middle by reflexivity.
           unfold caseDecl. destruct (EI_EltType Elt); reflexivity.
      * exists (length (DeclArena P) :: New), P'.
        rewrite <- app_assoc in Hrun.
        rewrite <- (app_assoc EltDecls), <- (app_assoc Kept) in Hall.
        cbn [app] in Hrun, Hall.
        split; [exact Hrun|]. split; [exact Hall|].
        rewrite HP' at 1. reflexivity.
Qed.

Lemma withDeclArena_frame (A : list Decl) (P P' : Parser) :
  P' = withDeclArena A P ->
  Diags P' = Diags P /\ OneOfTypes P' = OneOfTypes P /\
  ScopeInfo P' = ScopeInfo P /\ CurDeclContext P' = CurDeclContext P.
Proof. intros ->. repeat split. Qed.

Lemma forEach_members (DC : DeclContext) (l : list (option DeclId))
      (P P' : Parser) :
  forEach l (fun D => d <- deref D ;; setDeclContext d DC) P = Ok tt P' ->
  P' = withDeclArena (DeclArena P') P /\
  forall D, getDecl P' D = getDecl P D \/
            getDecl P' D = Decl_setDeclContext DC <$> getDecl P D.
Proof.
  revert P. induction l as [|[D0|] l IH]; intros P Hrun; cbn [forEach] in Hrun.
  - injection Hrun as <-. split; [symmetry; apply withDeclArena_id | auto].
  - unfold bind at 1 in Hrun. unfold bind at 1 in Hrun. cbn [deref ret] in Hrun.
    unfold setDeclContext at 1 in Hrun. rewrite alterDecl_spec in Hrun.
    apply IH in Hrun as [Hsame Hget]. split.
    { rewrite Hsame at 1. reflexivity. }
    intros D. specialize (Hget D). rewrite getDecl_alter in Hget.
    destruct (decide (D0 = D)) as [->|Hne]; [|exact Hget].
    right. destruct Hget as [-> | ->]; [reflexivity|].
    destruct (getDecl P D) as [[k loc dc]|]; reflexivity.
  - discriminate.
Qed.

Lemma Forall2_impl_In {A B} (R Q : A -> B -> Prop) (l : list A) (k : list B) :
  Forall2 R l k ->
  (forall x y, In x l -> R x y -> Q x y) ->
  Forall2 Q l k.
Proof.
  induction 1 as [|x y l k Hxy _ IH]; intros Himp; constructor.
  - apply Himp; [left; reflexivity | assumption].
  - apply IH. intros x' y' Hin. apply Himp. right. assumption.
Qed.

Lemma caseDecl_names (P : Parser) (AliasTy : Ty) (DC : DeclContext)
      (l : list DeclId) (k : list OneOfElementInfo) :
  Forall2 (fun D e => getDecl P D = Some (caseDecl AliasTy DC e)) l k ->
  List.map (getName P) l = List.map EI_Name k.
Proof.
  induction 1 as [|D e l k HD _ IH]; [reflexivity|].
  cbn [List.map]. rewrite IH. unfold getName. rewrite HD. reflexivity.
Qed.

(** What [actOnOneOfType] builds for a named union. *)
Lemma actOnOneOfType_cases
        (OneOfLoc : SourceLoc) (Attrs : DeclAttributes)
        (Elts : list OneOfElementInfo) (MemberDecls : list (option DeclId))
        (TAD : DeclId) (P P' : Parser) (Result : nat) :
  actOnOneOfType OneOfLoc Attrs Elts MemberDecls (Some TAD) P = Ok Result P' ->
  exists (EltDecls : list DeclId),
    OneOfTypes P' !! Result
    = Some (mkOneOfType OneOfLoc EltDecls (CurDeclContext P)) /\
    Forall2 (fun D Elt =>
               getDecl P' D
               = Some (caseDecl (getAliasType TAD) (DC_OneOfType Result) Elt))
            EltDecls (firstOccurrences Elts) /\
    List.NoDup (List.map (getName P') EltDecls) /\
    (forall N, In N (List.map EI_Name Elts) <->
               In N (List.map (getName P') EltDecls)) /\
    Diags P'
    = Diags P
      ++ (if negb (Attributes_empty Attrs)
          then [mkDiag (LSquareLoc Attrs) oneof_attributes ""] else [])
      ++ duplicateDiags Elts /\
    (isaTypeAliasDecl P' TAD = true ->
     getUnderlyingType P' TAD = Some (OneOfType Result)).
Proof.
  intros Hrun. unfold actOnOneOfType in Hrun.
  unfold bind at 1 in Hrun. rewrite when_diagnose in Hrun.
  set (Q1 := withDiags _ P) in Hrun.
  destruct (actOnOneOfElements_spec (getAliasType TAD) Elts [] [] [] Q1)
    as (EltDecls & Q2 & Hloop & Hall & HQ2); [reflexivity | constructor |].
  subst Q1. cbn [app] in Hloop, Hall.
  rewrite (bind_eq _ _ _ _ _ Hloop) in Hrun.
  unfold bind at 1 in Hrun. cbn [gets] in Hrun.
  unfold bind at 1 in Hrun. cbn [OneOfType_getNew] in Hrun.
  set (Q4 := withOneOfTypes _ Q2) in Hrun.
  destruct (forEach_setDeclContext
              (DC_OneOfType (length (OneOfTypes Q2))) EltDecls Q4)
    as (Q5 & Hctx & HQ5 & Hget5).
  subst Q4.
  rewrite (bind_eq _ _ _ _ _ Hctx) in Hrun.
  bind_inv Hrun as u6 Q6 E6. destruct u6.
  apply forEach_members in E6 as [HQ6 Hget6].
  bind_inv Hrun as u7 Q7 E7.
  unfold setUnderlyingType in E7. rewrite alterDecl_spec in E7.
  injection E7 as _ HQ7. injection Hrun as <- <-.
  apply withDeclArena_frame in HQ5 as (HD5 & HO5 & _ & _).
  apply withDeclArena_frame in HQ6 as (HD6 & HO6 & _ & _).
  cbn [Diags OneOfTypes withOneOfTypes] in HD5, HO5.
  assert (HD2 : Diags Q2 = Diags P
                           ++ (if negb (Attributes_empty Attrs)
                               then [mkDiag (LSquareLoc Attrs) oneof_attributes ""]
                               else [])
                           ++ duplicateDiags Elts).
  { rewrite HQ2. cbn [Diags withDiags]. rewrite <- app_assoc. reflexivity. }
  assert (HC2 : CurDeclContext Q2 = CurDeclContext P)
    by (rewrite HQ2; reflexivity).
  assert (Hfinal :
            Forall2 (fun D Elt =>
                       getDecl Q7 D
                       = Some (caseDecl (getAliasType TAD)
                                 (DC_OneOfType (length (OneOfTypes Q2))) Elt))
                    EltDecls (firstOccurrences Elts)).
  { eapply Forall2_impl_In; [exact Hall|].
    intros D e Hin HD. cbn [CurDeclContext withDiags] in HD.
    assert (H5 : getDecl Q5 D
                 = Some (caseDecl (getAliasType TAD)
                           (DC_OneOfType (length (OneOfTypes Q2))) e)).
    { rewrite Hget5.
      destruct (decide (elem_of D EltDecls)) as [_|Hn];
        [|exfalso; apply Hn, list_elem_of_In, Hin].
      change (getDecl (withOneOfTypes _ Q2) D) with (getDecl Q2 D).
      rewrite HD. reflexivity. }
    assert (H6 : getDecl Q6 D
                 = Some (caseDecl (getAliasType TAD)
                           (DC_OneOfType (length (OneOfTypes Q2))) e)).
    { destruct (Hget6 D) as [-> | ->]; rewrite H5; reflexivity. }
    rewrite <- HQ7, getDecl_alter, H6.
    destruct (decide (TAD = D)); reflexivity. }
  exists EltDecls.
  split.
  { rewrite <- HQ7. cbn [OneOfTypes withDeclArena]. rewrite HO6, HO5.
    rewrite <- HC2. apply list_lookup_middle. reflexivity. }
  split; [exact Hfinal|].
  rewrite (caseDecl_names _ _ _ _ _ Hfinal).
  split; [apply firstOccurrencesFrom_NoDup|].
  split.
  { intros N. unfold firstOccurrences. rewrite firstOccurrencesFrom_names.
    cbn [List.map]. simpl. tauto. }
  split.
  { rewrite <- HQ7. cbn [Diags withDeclArena]. rewrite HD6, HD5. exact HD2. }
  rewrite <- HQ7. apply getUnderlyingType_completed.
Qed.

Lemma forEach_members_total (DC : DeclContext) (l : list (option DeclId))
      (P : Parser) :
  Forall (fun D : option DeclId => D <> None) l ->
  exists P', forEach l (fun D => d <- deref D ;; setDeclContext d DC) P = Ok tt P'.
Proof.
  intros Hl. revert P. induction Hl as [|[D0|] l HD _ IH]; intros P.
  - exists P. reflexivity.
  - cbn [forEach]. unfold bind at 1. unfold bind at 1. cbn [deref ret].
    unfold setDeclContext at 1. rewrite alterDecl_spec. apply IH.
  - congruence.
Qed.

(** [actOnOneOfType] returns whenever no member declaration is null. *)
Lemma actOnOneOfType_returns
      (OneOfLoc : SourceLoc) (Attrs : DeclAttributes)
      (Elts : list OneOfElementInfo) (MemberDecls : list (option DeclId))
      (TAD : DeclId) (P : Parser) :
  Forall (fun D : option DeclId => D <> None) MemberDecls ->
  exists Result P',
    actOnOneOfType OneOfLoc Attrs Elts MemberDecls (Some TAD) P = Ok Result P'.
Proof.
  intros Hmembers. unfold actOnOneOfType.
  unfold bind at 1. rewrite when_diagnose.
  set (Q1 := withDiags _ P).
  destruct (actOnOneOfElements_spec (getAliasType TAD) Elts [] [] [] Q1)
    as (EltDecls & Q2 & Hloop & _ & _); [reflexivity | constructor |].
  cbn [app] in Hloop. rewrite (bind_eq _ _ _ _ _ Hloop).
  unfold bind at 1. cbn [gets]. unfold bind at 1. cbn [OneOfType_getNew].
  set (Q4 := withOneOfTypes _ Q2).
  destruct (forEach_setDeclContext
              (DC_OneOfType (length (OneOfTypes Q2))) EltDecls Q4)
    as (Q5 & Hctx & _ & _).
  rewrite (bind_eq _ _ _ _ _ Hctx).
  destruct (forEach_members_total (DC_OneOfType (length (OneOfTypes Q2)))
              MemberDecls Q5 Hmembers) as (Q6 & Hmem).
  rewrite (bind_eq _ _ _ _ _ Hmem).
  unfold setUnderlyingType. rewrite (bind_eq _ _ _ _ _ (alterDecl_spec _ _ _)).
  do 2 eexists. reflexivity.
Qed.

(** C3.  For a named oneof whose member declarations are all present,
    [actOnOneOfType] returns a union whose cases are the first occurrences
    of the written case names, in order: each is a declaration of the
    union's context whose type is the union's alias type, or a constructor
    from its payload type to the alias type; the names of the cases are
    pairwise distinct and cover every written name; and every rejected
    duplicate is reported at its own location, followed by a note at the
    location of the kept case, while the cases after it are still
    processed. *)
Theorem actOnOneOfType_first_wins
        (OneOfLoc : SourceLoc) (Attrs : DeclAttributes)
        (Elts : list OneOfElementInfo) (MemberDecls : list (option DeclId))
        (TAD : DeclId) (P : Parser) :
  Forall (fun D : option DeclId => D <> None) MemberDecls ->
  exists (Result : nat) (P' : Parser) (EltDecls : list DeclId),
    actOnOneOfType OneOfLoc Attrs Elts MemberDecls (Some TAD) P = Ok Result P' /\
    OneOfTypes P' !! Result
    = Some (mkOneOfType OneOfLoc EltDecls (CurDeclContext P)) /\
    Forall2 (fun D Elt =>
               getDecl P' D
               = Some (caseDecl (getAliasType TAD) (DC_OneOfType Result) Elt))
            EltDecls (firstOccurrences Elts) /\
    List.NoDup (List.map (getName P') EltDecls) /\
    (forall N, In N (List.map EI_Name Elts) <->
               In N (List.map (getName P') EltDecls)) /\
    Diags P'
    = Diags P
      ++ (if negb (Attributes_empty Attrs)
          then [mkDiag (LSquareLoc Attrs) oneof_attributes ""] else [])
      ++ duplicateDiags Elts /\
    (isaTypeAliasDecl P' TAD = true ->
     getUnderlyingType P' TAD = Some (OneOfType Result)).
Proof.
  intros Hmembers.
  destruct (actOnOneOfType_returns OneOfLoc Attrs Elts MemberDecls TAD P Hmembers)
    as (Result & P' & Hrun).
  destruct (actOnOneOfType_cases _ _ _ _ _ _ _ _ Hrun) as (EltDecls & Hcases).
  exists Result, P', EltDecls. split; [exact Hrun | exact Hcases].
Qed.

(** The run of the theorem above on the cases [a, a] of [oneof X { a, a }],
    entered with the alias [X] as declaration 0: the union has the single
    case [a] of type [X], and the second [a] is reported with a note at
    the first.  The last two parts run [oneof X { a, a }] and
    [oneof Color { red, green, blue }] through the dispatcher: one case
    for the former, three cases of type [Color] for the latter. *)
Lemma actOnOneOfType_first_wins_witness :
  (exists P' D,
      actOnOneOfType 1 noAttributes
        [mkOneOfElementInfo "a" 4 None; mkOneOfElementInfo "a" 6 None] []
        (Some 0) (Frontend.startAfterAlias "X" []) = Ok 0 P' /\
      Diags P' = [mkDiag 6 duplicate_oneof_element "a";
                  mkDiag 4 previous_definition "a"] /\
      OneOfTypes P' !! 0%nat = Some (mkOneOfType 1 [D] DC_TranslationUnit) /\
      getDecl P' D
      = Some (mkDecl (OneOfElementDecl "a" (NameAliasType 0) None) 4
                     (DC_OneOfType 0))) /\
  (exists P',
      @parseDecl Frontend.collaborators 6 [] PD_AllowImport
                 (Frontend.start Frontend.oneofX) = Ok (false, [Some 0]) P' /\
      Diags P' = [mkDiag 6 duplicate_oneof_element "a";
                  mkDiag 4 previous_definition "a"] /\
      OneOfTypes P' !! 0%nat = Some (mkOneOfType 1 [1] DC_TranslationUnit) /\
      getName P' 1 = "a") /\
  (exists P',
      @parseDecl Frontend.collaborators 6 [] PD_AllowImport
                 (Frontend.start Frontend.oneofColor) = Ok (false, [Some 0]) P' /\
      Diags P' = [] /\
      getName P' 0 = "Color" /\
      OneOfTypes P' !! 0%nat = Some (mkOneOfType 1 [1; 2; 3] DC_TranslationUnit) /\
      List.map (getName P') [1; 2; 3] = ["red"; "green"; "blue"] /\
      List.map (getEltType P') [1; 2; 3]
      = [Some (NameAliasType 0); Some (NameAliasType 0); Some (NameAliasType 0)]).
Proof.
  split; [|split; vm_compute; eexists; repeat split; reflexivity].
  destruct (actOnOneOfType_first_wins 1 noAttributes
              [mkOneOfElementInfo "a" 4 None; mkOneOfElementInfo "a" 6 None] []
              0 (Frontend.startAfterAlias "X" []) (List.Forall_nil _))
    as (Result & P' & EltDecls & Hrun & Hty & Hall & _ & _ & Hdiags & _).
  assert (HR : Result = 0).
  { vm_compute in Hrun. injection Hrun as <- _. reflexivity. }
  subst Result.
  assert (Hfo : firstOccurrences
                  [mkOneOfElementInfo "a" 4 None; mkOneOfElementInfo "a" 6 None]
                = [mkOneOfElementInfo "a" 4 None]) by reflexivity.
  rewrite Hfo in Hall.
  inversion Hall as [|D e l k HD Hrest]; subst.
  inversion Hrest; subst.
  exists P', D. split; [exact Hrun|]. split; [rewrite Hdiags; reflexivity|].
  split; [exact Hty | exact HD].
Defined.

(** ** Struct sugar *)

Lemma parseMatchingToken_matches (K : tok) (D : diag) (Loc : SourceLoc)
      (Note : diag) (P : Parser) :
  Token_is (Tok P) K = true ->
  parseMatchingToken K D Loc Note P
  = Ok (false, getLoc (Tok P))
       (withTok (fst (lex (Lexer P))) (snd (lex (Lexer P))) P).
Proof.
  intros HK.
  unfold parseMatchingToken, parseTokenLoc, consumeTokenK, curTokIs,
    consumeToken, assert_, gets, ret.
  cbv beta delta [bind]. rewrite HK. cbv beta iota. rewrite HK.
  destruct (lex (Lexer P)). reflexivity.
Qed.

Section Struct.

Context {ext : Collaborators}.

(** C2.  Take a struct declaration whose header parses ([struct], the
    attribute list, the name and the opening brace), whose fields parse
    as a tuple body, and whose member declarations parse, all present, up
    to the closing brace.  Then [parseDeclStruct] succeeds and yields a
    union with exactly one case: the case is named after the struct, its
    payload type is the tuple type parsed from the struct body, and its
    type is the constructor from that tuple to the struct's alias type.
    The alias is completed to the union, the case's constructor
    declaration is bound under the struct's name in the current scope,
    and the alias and the constructor are appended, in this order, to the
    declaration list. *)
Theorem parseDeclStruct_desugars
        (parseDeclRec : list (option DeclId) -> nat -> M (bool * list (option DeclId)))
        (n : nat) (Decls MemberDecls : list (option DeclId))
        (P Q1 Q2 Q3 Q4 Q5 Q6 Q7 Q8 : Parser)
        (StructLoc LBLoc : SourceLoc) (Attributes : DeclAttributes)
        (StructName : Identifier) (TAD : DeclId) (BodyTy : Ty) :
  consumeTokenK kw_struct P = Ok StructLoc Q1 ->
  parseAttributeList noAttributes Q1 = Ok Attributes Q2 ->
  parseIdentifier expected_identifier_in_decl "struct" Q2
  = Ok (Some StructName) Q3 ->
  parseTokenLoc tok_l_brace expected_lbrace_struct Q3 = Ok (false, LBLoc) Q4 ->
  addTypeAliasToScope StructLoc StructName None Q4 = Ok TAD Q5 ->
  parseTypeTupleBody LBLoc Q5 = Ok (Some BodyTy) Q6 ->
  isaTupleType BodyTy = true ->
  forEach (tupleFields BodyTy)
          (fun Elt => when_ (String.eqb (snd Elt) "")
                            (diagnose LBLoc struct_unnamed_member "")) Q6
  = Ok tt Q7 ->
  parseMemberDecls parseDeclRec n (Nat.lor PD_DisallowVar PD_DisallowOperators)
                   [] Q7 = Ok MemberDecls Q8 ->
  Forall (fun D : option DeclId => D <> None) MemberDecls ->
  Token_is (Tok Q8) tok_r_brace = true ->
  exists (OneOfTy : nat) (Elt : DeclId) (P' : Parser),
    parseDeclStruct parseDeclRec n Decls P
    = Ok (false, Decls ++ [Some TAD; Some Elt]) P' /\
    OneOfTypes P' !! OneOfTy
    = Some (mkOneOfType StructLoc [Elt] (CurDeclContext Q8)) /\
    getDecl P' Elt
    = Some (mkDecl (OneOfElementDecl StructName
                      (FunctionType BodyTy (getAliasType TAD)) (Some BodyTy))
                   StructLoc (DC_OneOfType OneOfTy)) /\
    (exists Frame, currentFrame P' = (StructName, Elt) :: Frame) /\
    (isaTypeAliasDecl P' TAD = true ->
     getUnderlyingType P' TAD = Some (OneOfType OneOfTy)).
Proof.
  intros E1 E2 E3 E4 E5 E6 Htuple E7 E8 Hmembers Hrbrace.
  unfold parseDeclStruct.
  rewrite (bind_eq _ _ _ _ _ E1), (bind_eq _ _ _ _ _ E2),
    (bind_eq _ _ _ _ _ E3), (bind_eq _ _ _ _ _ E4).
  cbn [fst snd].
  rewrite (bind_eq _ _ _ _ _ E5), (bind_eq _ _ _ _ _ E6).
  rewrite Htuple. unfold bind at 1. cbn [assert_ ret].
  rewrite (bind_eq _ _ _ _ _ E7), (bind_eq _ _ _ _ _ E8).
  rewrite (bind_eq _ _ _ _ _
             (parseMatchingToken_matches _ _ _ _ _ Hrbrace)).
  cbn [fst snd].
  set (Q9 := withTok _ _ Q8).
  destruct (actOnOneOfType_returns StructLoc Attributes
              [mkOneOfElementInfo StructName StructLoc (Some BodyTy)]
              MemberDecls TAD Q9 Hmembers) as (OneOfTy & Q10 & E10).
  rewrite (bind_eq _ _ _ _ _ E10).
  destruct (actOnOneOfType_cases _ _ _ _ _ _ _ _ E10)
    as (EltDecls & Hty & Hall & _ & _ & _ & Hund).
  assert (Hfo : firstOccurrences
                  [mkOneOfElementInfo StructName StructLoc (Some BodyTy)]
                = [mkOneOfElementInfo StructName StructLoc (Some BodyTy)])
    by reflexivity.
  rewrite Hfo in Hall.
  inversion Hall as [|Elt e l k HD Hrest]; subst.
  inversion Hrest; subst. clear Hall Hrest Hfo.
  assert (Htransparent : isTransparentType Q10 OneOfTy = true).
  { unfold isTransparentType. rewrite Hty. cbn [Elements].
    unfold getArgumentType. rewrite HD. reflexivity. }
  assert (Helts : OneOf_getElements Q10 OneOfTy = [Elt]).
  { unfold OneOf_getElements. rewrite Hty. reflexivity. }
  unfold bind at 1. cbn [gets]. rewrite Htransparent.
  unfold bind at 1. cbn [assert_ ret].
  unfold bind at 1. cbn [gets]. rewrite Helts.
  unfold bind at 1. cbn [length Nat.eqb assert_ ret lookup list_lookup].
  unfold bind at 1. rewrite addToScope_spec.
  exists OneOfTy, Elt. eexists. split.
  { unfold ret. rewrite <- app_assoc. reflexivity. }
  split; [exact Hty|]. split; [exact HD|]. split; [|exact Hund].
  rewrite currentFrame_insertInnermost. eexists. f_equal. f_equal.
  unfold getName. rewrite HD. reflexivity.
Qed.

End Struct.

(** The header and the body of [struct Point { x: Int, y: Int }] as the
    theorem above takes them. *)
Lemma structPoint_parts :
  exists (Q1 Q2 Q3 Q4 Q5 Q6 : Parser),
    consumeTokenK kw_struct (Frontend.start Frontend.structPoint) = Ok 1 Q1 /\
    parseAttributeList noAttributes Q1 = Ok noAttributes Q2 /\
    parseIdentifier expected_identifier_in_decl "struct" Q2
    = Ok (Some "Point") Q3 /\
    parseTokenLoc tok_l_brace expected_lbrace_struct Q3 = Ok (false, 3) Q4 /\
    addTypeAliasToScope 1 "Point" None Q4 = Ok 0 Q5 /\
    @parseTypeTupleBody Frontend.collaborators 3 Q5
    = Ok (Some (TupleType [(NameAliasType 1, "x"); (NameAliasType 1, "y")])) Q6 /\
    @parseMemberDecls (@parseDecl Frontend.collaborators 4) 4
       (Nat.lor PD_DisallowVar PD_DisallowOperators) [] Q6 = Ok [] Q6 /\
    Token_is (Tok Q6) tok_r_brace = true /\
    getName Q6 1 = "Int".
Proof.
  pose (Q1 := stateOf (consumeTokenK kw_struct
                         (Frontend.start Frontend.structPoint))).
  pose (Q2 := stateOf (parseAttributeList noAttributes Q1)).
  pose (Q3 := stateOf (parseIdentifier expected_identifier_in_decl "struct" Q2)).
  pose (Q4 := stateOf (parseTokenLoc tok_l_brace expected_lbrace_struct Q3)).
  pose (Q5 := stateOf (addTypeAliasToScope 1 "Point" None Q4)).
  pose (Q6 := stateOf (@parseTypeTupleBody Frontend.collaborators 3 Q5)).
  exists Q1, Q2, Q3, Q4, Q5, Q6. vm_compute. repeat split; reflexivity.
Qed.

(** The run of the theorem above on [struct Point { x: Int, y: Int }]:
    with [Point] the alias 0 and [Int] the alias 1, the union has the
    single case [Point] whose payload is the tuple [(x : Int, y : Int)],
    and [Point] is bound to that case in scope. *)
Lemma parseDeclStruct_desugars_witness :
  exists OneOfTy Elt P',
    @parseDeclStruct Frontend.collaborators
       (@parseDecl Frontend.collaborators 4) 4 []
       (Frontend.start Frontend.structPoint)
    = Ok (false, [Some 0; Some Elt]) P' /\
    OneOfTypes P' !! OneOfTy = Some (mkOneOfType 1 [Elt] DC_TranslationUnit) /\
    getDecl P' Elt
    = Some (mkDecl
              (OneOfElementDecl "Point"
                 (FunctionType
                    (TupleType [(NameAliasType 1, "x"); (NameAliasType 1, "y")])
                    (NameAliasType 0))
                 (Some (TupleType [(NameAliasType 1, "x"); (NameAliasType 1, "y")])))
              1 (DC_OneOfType OneOfTy)) /\
    exists Frame, currentFrame P' = ("Point", Elt) :: Frame.
Proof.
  destruct structPoint_parts
    as (Q1 & Q2 & Q3 & Q4 & Q5 & Q6 & E1 & E2 & E3 & E4 & E5 & E6 & E8 & Hrb & _).
  destruct (@parseDeclStruct_desugars Frontend.collaborators
              (@parseDecl Frontend.collaborators 4) 4 [] []
              _ _ _ _ _ _ _ Q6 Q6 _ _ _ _ _ _
              E1 E2 E3 E4 E5 E6 eq_refl eq_refl E8 (List.Forall_nil _) Hrb)
    as (OneOfTy & Elt & P' & Hrun & Hty & HD & Hframe & _).
  assert (HC : CurDeclContext Q6 = DC_TranslationUnit).
  { apply (f_equal stateOf) in E8. cbn [stateOf] in E8.
    clear - E1 E2 E3 E4 E5 E6.
    apply (f_equal stateOf) in E1, E2, E3, E4, E5, E6. cbn [stateOf] in *.
    subst. vm_compute. reflexivity. }
  rewrite HC in Hty.
  exists OneOfTy, Elt, P'. repeat split; assumption.
Defined.

(** ** Routines that leave the AST and the scope alone *)

Lemma sameAST_refl (P : Parser) : sameAST P P.
Proof. repeat split. Qed.

Lemma sameAST_trans (P Q R : Parser) : sameAST P Q -> sameAST Q R -> sameAST P R.
Proof.
  unfold sameAST. intros (?&?&?&?&?&?&?) (?&?&?&?&?&?&?).
  repeat split; congruence.
Qed.

Lemma tokensOnly_Ok {A} (m : M A) (P P' : Parser) (a : A) :
  tokensOnly m -> m P = Ok a P' -> sameAST P P'.
Proof. intros H E. specialize (H P). rewrite E in H. exact H. Qed.

Lemma tokensOnly_ret {A} (a : A) : tokensOnly (ret a).
Proof. intros P. apply sameAST_refl. Qed.

Lemma tokensOnly_crash {A} (F : Fault) : tokensOnly (@crash A F).
Proof. intros P. apply sameAST_refl. Qed.

Lemma tokensOnly_gets {A} (f : Parser -> A) : tokensOnly (gets f).
Proof. intros P. apply sameAST_refl. Qed.

Lemma tokensOnly_bind {A B} (m : M A) (k : A -> M B) :
  tokensOnly m -> (forall a, tokensOnly (k a)) -> tokensOnly (bind m k).
Proof.
  intros Hm Hk P. unfold bind. specialize (Hm P).
  destruct (m P) as [a P1|F P1]; [|exact Hm].
  specialize (Hk a P1). destruct (k a P1); eapply sameAST_trans; eauto.
Qed.

Lemma tokensOnly_diagnose (Loc : SourceLoc) (d : diag) (Arg : string) :
  tokensOnly (diagnose Loc d Arg).
Proof. intros P. repeat split. Qed.

Lemma tokensOnly_diagnoseTok (d : diag) (Arg : string) :
  tokensOnly (diagnoseTok d Arg).
Proof. intros P. repeat split. Qed.

Lemma tokensOnly_consumeToken : tokensOnly consumeToken.
Proof. intros P. unfold consumeToken. destruct (lex (Lexer P)). repeat split. Qed.

Lemma tokensOnly_skipUntil (T1 : tok) : tokensOnly (skipUntil T1).
Proof.
  intros P. unfold skipUntil, modify. destruct (skipLoop _ _ _). repeat split.
Qed.

Lemma tokensOnly_skipUntil2 (T1 T2 : tok) : tokensOnly (skipUntil2 T1 T2).
Proof.
  intros P. unfold skipUntil2, modify. destruct (skipLoop _ _ _). repeat split.
Qed.

Lemma tokensOnly_assert (b : bool) : tokensOnly (assert_ b).
Proof. destruct b; [apply tokensOnly_ret | apply tokensOnly_crash]. Qed.

Lemma tokensOnly_when (b : bool) (m : M unit) :
  tokensOnly m -> tokensOnly (when_ b m).
Proof. destruct b; [auto | intros _; apply tokensOnly_ret]. Qed.

Create HintDb tokens.
#[local] Hint Resolve tokensOnly_ret tokensOnly_crash tokensOnly_gets
  tokensOnly_diagnose tokensOnly_diagnoseTok tokensOnly_consumeToken
  tokensOnly_skipUntil tokensOnly_skipUntil2 tokensOnly_assert
  tokensOnly_when : tokens.

(** Splits a monadic term into its steps and closes the primitive ones. *)
Ltac tokens :=
  repeat first
    [ apply tokensOnly_bind; [|intros ?]
    | apply tokensOnly_when
    | match goal with
      | |- tokensOnly (if ?b then _ else _) => destruct b
      | |- tokensOnly (match ?x with _ => _ end) => destruct x
      end
    | solve [auto with tokens] ].

Lemma tokensOnly_curTokIs (K : tok) : tokensOnly (curTokIs K).
Proof. unfold curTokIs. tokens. Qed.
#[local] Hint Resolve tokensOnly_curTokIs : tokens.

Lemma tokensOnly_tokLoc : tokensOnly tokLoc.
Proof. unfold tokLoc. tokens. Qed.
#[local] Hint Resolve tokensOnly_tokLoc : tokens.

Lemma tokensOnly_consumeTokenK (K : tok) : tokensOnly (consumeTokenK K).
Proof. unfold consumeTokenK. tokens. Qed.
#[local] Hint Resolve tokensOnly_consumeTokenK : tokens.

Lemma tokensOnly_consumeIf (K : tok) : tokensOnly (consumeIf K).
Proof. unfold consumeIf. tokens. Qed.
#[local] Hint Resolve tokensOnly_consumeIf : tokens.

Lemma tokensOnly_parseTokenLoc (K : tok) (D : diag) :
  tokensOnly (parseTokenLoc K D).
Proof. unfold parseTokenLoc. tokens. Qed.
#[local] Hint Resolve tokensOnly_parseTokenLoc : tokens.

Lemma tokensOnly_parseToken (K : tok) (D : diag) : tokensOnly (parseToken K D).
Proof. unfold parseToken. tokens. Qed.
#[local] Hint Resolve tokensOnly_parseToken : tokens.

Lemma tokensOnly_parseMatchingToken (K : tok) (D : diag) (Loc : SourceLoc)
      (Note : diag) : tokensOnly (parseMatchingToken K D Loc Note).
Proof. unfold parseMatchingToken. tokens. Qed.
#[local] Hint Resolve tokensOnly_parseMatchingToken : tokens.

Lemma tokensOnly_parseIdentifier (D : diag) (Arg : string) :
  tokensOnly (parseIdentifier D Arg).
Proof.
  intros P. unfold parseIdentifier.
  destruct (Token_is (Tok P) tok_identifier || Token_is (Tok P) tok_oper);
    match goal with |- match ?m P with _ => _ end =>
      refine ((_ : tokensOnly m) P) end; tokens.
Qed.
#[local] Hint Resolve tokensOnly_parseIdentifier : tokens.

Lemma tokensOnly_parseAttribute (A : DeclAttributes) :
  tokensOnly (parseAttribute A).
Proof.
  intros P. unfold parseAttribute.
  destruct (if Token_is (Tok P) tok_identifier then isInfixAttr (Tok P) else None);
    match goal with |- match ?m P with _ => _ end =>
      refine ((_ : tokensOnly m) P) end; tokens.
Qed.
#[local] Hint Resolve tokensOnly_parseAttribute : tokens.

Lemma tokensOnly_parseAttributeLoop (n : nat) :
  forall (HadError : bool) (A : DeclAttributes),
    tokensOnly (parseAttributeLoop n HadError A).
Proof.
  induction n as [|n IH]; intros HadError A P; cbn [parseAttributeLoop];
    destruct (Token_is (Tok P) tok_comma); try apply sameAST_refl.
  match goal with |- match ?m P with _ => _ end =>
    refine ((_ : tokensOnly m) P) end.
  tokens.
Qed.
#[local] Hint Resolve tokensOnly_parseAttributeLoop : tokens.

Lemma tokensOnly_parseAttributeListPresent (A : DeclAttributes) :
  tokensOnly (parseAttributeListPresent A).
Proof. unfold parseAttributeListPresent. tokens. Qed.
#[local] Hint Resolve tokensOnly_parseAttributeListPresent : tokens.

Lemma tokensOnly_parseAttributeList (A : DeclAttributes) :
  tokensOnly (parseAttributeList A).
Proof. unfold parseAttributeList. tokens. Qed.
#[local] Hint Resolve tokensOnly_parseAttributeList : tokens.

Lemma tokensOnly_parseVarName (n : nat) :
  tokensOnly (parseVarName n) /\
  forall ChildNames, tokensOnly (parseVarNameElements n ChildNames).
Proof.
  induction n as [|n [IHn IHe]]; (split; [|intros ChildNames]);
    cbn [parseVarName parseVarNameElements]; try solve [tokens].
  intros P.
  destruct (Token_is (Tok P) tok_identifier || Token_is (Tok P) tok_oper);
    [|destruct (Token_isNot (Tok P) tok_l_paren
                && Token_isNot (Tok P) tok_l_paren_space)];
    match goal with |- match ?m P with _ => _ end =>
      refine ((_ : tokensOnly m) P) end; tokens.
Qed.

(** ** Fuel of the token loops *)

Lemma advances_Ok {A} (m : M A) (P P' : Parser) (a : A) :
  advances m -> m P = Ok a P' -> tokensLeft P' <= tokensLeft P.
Proof. intros H E. specialize (H P). rewrite E in H. exact H. Qed.

Lemma advances_ret {A} (a : A) : advances (ret a).
Proof. intros P. cbn. lia. Qed.

Lemma advances_gets {A} (f : Parser -> A) : advances (gets f).
Proof. intros P. cbn. lia. Qed.

Lemma advances_bind {A B} (m : M A) (k : A -> M B) :
  advances m -> (forall a, advances (k a)) -> advances (bind m k).
Proof.
  intros Hm Hk P. unfold bind. specialize (Hm P).
  destruct (m P) as [a P1|F P1]; [|exact Hm].
  specialize (Hk a P1). destruct (k a P1); [lia | exact Hk].
Qed.

Lemma advances_diagnose (Loc : SourceLoc) (d : diag) (Arg : string) :
  advances (diagnose Loc d Arg).
Proof. intros P. cbn. unfold tokensLeft. cbn. lia. Qed.

Lemma advances_diagnoseTok (d : diag) (Arg : string) :
  advances (diagnoseTok d Arg).
Proof. intros P. apply advances_diagnose. Qed.

Lemma tokensLeft_withTok (T : Token) (Lx : list Token) (P : Parser) :
  tokensLeft (withTok T Lx P)
  = length Lx + (if Token_is T tok_eof then 0 else 1).
Proof. reflexivity. Qed.

Lemma lex_tokensLeft (Lx : list Token) :
  length (snd (lex Lx)) + (if Token_is (fst (lex Lx)) tok_eof then 0 else 1)
  <= length Lx.
Proof.
  destruct Lx as [|T Lx]; cbn; [lia|].
  destruct (Token_is T tok_eof); lia.
Qed.

Lemma advances_consumeToken : advances consumeToken.
Proof.
  intros P. unfold consumeToken.
  pose proof (lex_tokensLeft (Lexer P)) as H.
  destruct (lex (Lexer P)) as [T Lx]. rewrite tokensLeft_withTok.
  cbn [fst snd] in H. unfold tokensLeft. lia.
Qed.

(** Consuming a token other than the end of the file uses it up. *)
Lemma consumeToken_decreases (P P' : Parser) (Loc : SourceLoc) :
  Token_is (Tok P) tok_eof = false ->
  consumeToken P = Ok Loc P' -> tokensLeft P' < tokensLeft P.
Proof.
  intros Heof. unfold consumeToken.
  pose proof (lex_tokensLeft (Lexer P)) as H.
  destruct (lex (Lexer P)) as [T Lx]. intros E. injection E as _ <-.
  rewrite tokensLeft_withTok. cbn [fst snd] in H.
  unfold tokensLeft. rewrite Heof. lia.
Qed.

Lemma skipLoop_tokensLeft (stop : Token -> bool) (Lx : list Token) (T : Token) :
  length (snd (skipLoop stop T Lx))
  + (if Token_is (fst (skipLoop stop T Lx)) tok_eof then 0 else 1)
  <= length Lx + (if Token_is T tok_eof then 0 else 1).
Proof.
  revert T. induction Lx as [|T' Lx IH]; intros T; cbn [skipLoop].
  - destruct (stop T); cbn; lia.
  - destruct (stop T); cbn [fst snd length]; [lia|].
    specialize (IH T'). destruct (Token_is T' tok_eof), (Token_is T tok_eof); lia.
Qed.

Lemma advances_skipUntil (T1 : tok) : advances (skipUntil T1).
Proof.
  intros P. unfold skipUntil, modify.
  pose proof (skipLoop_tokensLeft
                (fun T => Token_is T tok_eof || Token_is T T1) (Lexer P) (Tok P)) as H.
  destruct (skipLoop _ _ _) as [T Lx]. rewrite tokensLeft_withTok. exact H.
Qed.

Lemma advances_skipUntil2 (T1 T2 : tok) : advances (skipUntil2 T1 T2).
Proof.
  intros P. unfold skipUntil2, modify.
  pose proof (skipLoop_tokensLeft
                (fun T => Token_is T tok_eof || Token_is T T1 || Token_is T T2)
                (Lexer P) (Tok P)) as H.
  destruct (skipLoop _ _ _) as [T Lx]. rewrite tokensLeft_withTok. exact H.
Qed.

Lemma advances_assert (b : bool) : advances (assert_ b).
Proof. destruct b; [apply advances_ret | intros P; discriminate]. Qed.

Lemma advances_when (b : bool) (m : M unit) :
  advances m -> advances (when_ b m).
Proof. destruct b; [auto | intros _; apply advances_ret]. Qed.

Create HintDb fuel.
#[local] Hint Resolve advances_ret advances_gets advances_diagnose
  advances_diagnoseTok advances_consumeToken advances_skipUntil
  advances_skipUntil2 advances_assert advances_when : fuel.

(** Splits a monadic term into its steps and closes the primitive ones. *)
Ltac fuel :=
  repeat first
    [ solve [auto with fuel]
    | apply advances_bind; [|intros ?]
    | apply advances_when
    | match goal with
      | |- advances (if ?b then _ else _) => destruct b
      | |- advances (match ?x with _ => _ end) => destruct x
      end ].

Lemma advances_curTokIs (K : tok) : advances (curTokIs K).
Proof. unfold curTokIs. fuel. Qed.
#[local] Hint Resolve advances_curTokIs : fuel.

Lemma advances_tokLoc : advances tokLoc.
Proof. unfold tokLoc. fuel. Qed.
#[local] Hint Resolve advances_tokLoc : fuel.

Lemma advances_consumeTokenK (K : tok) : advances (consumeTokenK K).
Proof. unfold consumeTokenK. fuel. Qed.
#[local] Hint Resolve advances_consumeTokenK : fuel.

Lemma advances_consumeIf (K : tok) : advances (consumeIf K).
Proof. unfold consumeIf. fuel. Qed.
#[local] Hint Resolve advances_consumeIf : fuel.

Lemma advances_parseTokenLoc (K : tok) (D : diag) :
  advances (parseTokenLoc K D).
Proof. unfold parseTokenLoc. fuel. Qed.
#[local] Hint Resolve advances_parseTokenLoc : fuel.

Lemma advances_parseToken (K : tok) (D : diag) : advances (parseToken K D).
Proof. unfold parseToken. fuel. Qed.
#[local] Hint Resolve advances_parseToken : fuel.

Lemma advances_parseMatchingToken (K : tok) (D : diag) (Loc : SourceLoc)
      (Note : diag) : advances (parseMatchingToken K D Loc Note).
Proof. unfold parseMatchingToken. fuel. Qed.
#[local] Hint Resolve advances_parseMatchingToken : fuel.

(** Closes the goal of a routine run at a given state. *)
Ltac fuel_at :=
  match goal with
  | |- match ?m ?P with Ok _ _ => _ | Crash _ _ => _ end =>
      let H := fresh in assert (H : advances m) by fuel; exact (H P)
  end.

Lemma advances_parseIdentifier (D : diag) (Arg : string) :
  advances (parseIdentifier D Arg).
Proof.
  intros P. unfold parseIdentifier.
  destruct (Token_is (Tok P) tok_identifier || Token_is (Tok P) tok_oper);
    fuel_at.
Qed.
#[local] Hint Resolve advances_parseIdentifier : fuel.

Lemma advances_parseAttribute (A : DeclAttributes) :
  advances (parseAttribute A).
Proof.
  intros P. unfold parseAttribute.
  destruct (if Token_is (Tok P) tok_identifier then isInfixAttr (Tok P) else None);
    fuel_at.
Qed.
#[local] Hint Resolve advances_parseAttribute : fuel.

(** The comma loop of an attribute list never runs out of fuel when it is
    given one unit per token left. *)
Lemma parseAttributeLoop_fuel (n : nat) (HadError : bool) (A : DeclAttributes)
      (P : Parser) :
  tokensLeft P <= n ->
  match parseAttributeLoop n HadError A P with
  | Ok _ P' => tokensLeft P' <= tokensLeft P
  | Crash F _ => F <> OutOfFuel
  end.
Proof.
  revert HadError A P. induction n as [|n IH]; intros HadError A P Hn;
    cbn [parseAttributeLoop];
    destruct (Token_is (Tok P) tok_comma) eqn:Hcomma; try lia.
  - unfold tokensLeft in Hn.
    rewrite (Token_is_excl _ _ tok_eof Hcomma) in Hn by discriminate. lia.
  - assert (Heof : Token_is (Tok P) tok_eof = false)
      by (apply (Token_is_excl _ _ tok_eof Hcomma); discriminate).
    rewrite (bind_eq _ _ _ _ _ (consumeTokenK_matches _ _ Hcomma)).
    pose proof (consumeToken_decreases P) as Hdec.
    unfold consumeToken in Hdec.
    destruct (lex (Lexer P)) as [T Lx]. cbn [fst snd].
    specialize (Hdec _ _ Heof eq_refl).
    set (P1 := withTok T Lx P) in *.
    unfold bind.
    pose proof (advances_parseAttribute A P1) as Hattr.
    destruct (parseAttribute A P1) as [r P2|F P2]; [|exact Hattr].
    specialize (IH (HadError || fst r) (snd r) P2 ltac:(lia)).
    destruct (parseAttributeLoop n _ _ P2); [lia | exact IH].
Qed.

Lemma tokensLeft_bound (P : Parser) : tokensLeft P <= S (length (Lexer P)).
Proof. unfold tokensLeft. destruct (Token_is (Tok P) tok_eof); lia. Qed.

Lemma advances_bind_at {A B} (m : M A) (k : A -> M B) (P : Parser) :
  match m P with
  | Ok _ P' => tokensLeft P' <= tokensLeft P
  | Crash F _ => F <> OutOfFuel
  end ->
  (forall a, advances (k a)) ->
  match bind m k P with
  | Ok _ P' => tokensLeft P' <= tokensLeft P
  | Crash F _ => F <> OutOfFuel
  end.
Proof.
  intros Hm Hk. unfold bind. destruct (m P) as [a P1|F P1]; [|exact Hm].
  specialize (Hk a P1). destruct (k a P1); [lia | exact Hk].
Qed.

Lemma advances_bind_gets {A B} (f : Parser -> A) (k : A -> M B) :
  (forall P, match k (f P) P with
             | Ok _ P' => tokensLeft P' <= tokensLeft P
             | Crash F _ => F <> OutOfFuel
             end) ->
  advances (bind (gets f) k).
Proof. intros H P. apply H. Qed.

(** Parsing an attribute list never runs out of fuel. *)
Lemma advances_parseAttributeListPresent (A : DeclAttributes) :
  advances (parseAttributeListPresent A).
Proof.
  unfold parseAttributeListPresent.
  apply advances_bind; [fuel|intros LSq].
  apply advances_bind; [fuel|intros empty]. destruct empty; [fuel|].
  apply advances_bind; [fuel|intros r].
  apply advances_bind_gets. intros P.
  apply advances_bind_at;
    [apply parseAttributeLoop_fuel, tokensLeft_bound | intros r'; fuel].
Qed.
#[local] Hint Resolve advances_parseAttributeListPresent : fuel.

Lemma advances_parseAttributeList (A : DeclAttributes) :
  advances (parseAttributeList A).
Proof. unfold parseAttributeList. fuel. Qed.
#[local] Hint Resolve advances_parseAttributeList : fuel.

(** The import path loop never runs out of fuel when it is given one unit
    per token left. *)
Lemma parseImportPath_fuel (n : nat) (Path : list (Identifier * SourceLoc))
      (P : Parser) :
  tokensLeft P <= n ->
  match parseImportPath n Path P with
  | Ok _ P' => tokensLeft P' <= tokensLeft P
  | Crash F _ => F <> OutOfFuel
  end.
Proof.
  revert Path P. induction n as [|n IH]; intros Path P Hn;
    cbn [parseImportPath];
    destruct (Token_is (Tok P) tok_period) eqn:Hperiod; try lia.
  - unfold tokensLeft in Hn.
    rewrite (Token_is_excl _ _ tok_eof Hperiod) in Hn by discriminate. lia.
  - assert (Heof : Token_is (Tok P) tok_eof = false)
      by (apply (Token_is_excl _ _ tok_eof Hperiod); discriminate).
    pose proof (consumeToken_decreases P) as Hdec.
    unfold bind at 1. unfold consumeToken in Hdec |- *.
    destruct (lex (Lexer P)) as [T Lx].
    specialize (Hdec _ _ Heof eq_refl).
    set (P1 := withTok T Lx P) in *.
    unfold bind at 1. cbn [tokLoc gets].
    unfold bind.
    pose proof (advances_parseIdentifier expected_identifier_in_decl "import" P1)
      as Hid.
    destruct (parseIdentifier _ _ P1) as [[Id|] P2|F P2];
      [|cbn; lia|exact Hid].
    specialize (IH (Path ++ [(Id, getLoc (Tok P1))]) P2 ltac:(lia)).
    destruct (parseImportPath n _ P2); [lia | exact IH].
Qed.

Lemma advances_allocDecl (K : DeclKind) (Loc : SourceLoc) (DC : DeclContext) :
  advances (allocDecl K Loc DC).
Proof. intros P. cbn. unfold tokensLeft. cbn. lia. Qed.
#[local] Hint Resolve advances_allocDecl : fuel.

(** Parsing an import declaration never runs out of fuel. *)
Lemma advances_parseDeclImport : advances parseDeclImport.
Proof.
  unfold parseDeclImport.
  apply advances_bind; [fuel|intros ImportLoc].
  apply advances_bind; [fuel|intros Attributes].
  apply advances_bind; [fuel|intros Loc].
  apply advances_bind; [fuel|intros [Id|]]; [|fuel].
  apply advances_bind_gets. intros P.
  apply advances_bind_at;
    [apply parseImportPath_fuel, tokensLeft_bound | intros r'; fuel].
Qed.

Lemma consumeIf_tokensLeft (K : tok) (P : Parser) :
  exists c P', consumeIf K P = Ok c P' /\ tokensLeft P' <= tokensLeft P.
Proof.
  pose proof (advances_consumeIf K P) as H.
  assert (Hok : exists c P', consumeIf K P = Ok c P').
  { unfold consumeIf, bind, curTokIs, gets, consumeToken, ret.
    destruct (Token_is (Tok P) K); [destruct (lex (Lexer P))|]; eauto. }
  destruct Hok as (c & P' & E). rewrite E in H. eauto.
Qed.

(** Parsing a var name never runs out of fuel when it is given more than
    two units per token left, and a name that parses uses up a token. *)
Lemma parseVarName_fuel (n : nat) :
  (forall P, 2 * tokensLeft P < n ->
     match parseVarName n P with
     | Ok r P' => tokensLeft P' <= tokensLeft P /\
                  (r <> None -> tokensLeft P' < tokensLeft P)
     | Crash F _ => F <> OutOfFuel
     end) /\
  (forall Names P, 2 * tokensLeft P + 1 < n ->
     match parseVarNameElements n Names P with
     | Ok r P' => tokensLeft P' <= tokensLeft P /\
                  (r <> None -> tokensLeft P' < tokensLeft P)
     | Crash F _ => F <> OutOfFuel
     end).
Proof.
  induction n as [|n [IHname IHelts]]; [split; intros; lia|]. split.
  - intros P Hn. cbn [parseVarName].
    destruct (Token_is (Tok P) tok_identifier || Token_is (Tok P) tok_oper)
      eqn:Hid.
    + assert (Heof : Token_is (Tok P) tok_eof = false).
      { apply orb_true_iff in Hid as [H|H];
          apply (Token_is_excl _ _ tok_eof H); discriminate. }
      pose proof (consumeToken_decreases P) as Hdec.
      unfold bind, consumeToken in Hdec |- *.
      destruct (lex (Lexer P)) as [T Lx].
      specialize (Hdec _ _ Heof eq_refl). cbn [ret]. split; [lia | intros _; lia].
    + destruct (Token_isNot (Tok P) tok_l_paren
                && Token_isNot (Tok P) tok_l_paren_space) eqn:Hparen.
      * cbn. unfold tokensLeft. cbn. split; [lia | congruence].
      * assert (Heof : Token_is (Tok P) tok_eof = false).
        { unfold Token_isNot in Hparen.
          apply andb_false_iff in Hparen as [H|H];
            apply negb_false_iff in H;
            apply (Token_is_excl _ _ tok_eof H); discriminate. }
        pose proof (consumeToken_decreases P) as Hdec.
        unfold bind at 1. unfold consumeToken in Hdec |- *.
        destruct (lex (Lexer P)) as [T Lx].
        specialize (Hdec _ _ Heof eq_refl).
        set (P1 := withTok T Lx P) in *.
        unfold bind at 1. cbn [gets].
        assert (Helts :
                  match (if Token_isNot (Tok P1) tok_r_paren
                         then parseVarNameElements n [] else ret (Some [])) P1 with
                  | Ok _ P' => tokensLeft P' <= tokensLeft P1
                  | Crash F _ => F <> OutOfFuel
                  end).
        { destruct (Token_isNot (Tok P1) tok_r_paren); [|cbn; lia].
          specialize (IHelts [] P1 ltac:(lia)).
          destruct (parseVarNameElements n [] P1); [apply IHelts | exact IHelts]. }
        unfold bind at 1.
        destruct ((if Token_isNot (Tok P1) tok_r_paren
                   then parseVarNameElements n [] else ret (Some [])) P1)
          as [[ChildNames|] P2|F P2]; [|cbn; split; [lia | congruence]|exact Helts].
        unfold bind.
        pose proof (advances_parseMatchingToken tok_r_paren
                      expected_rparen_var_name (getLoc (Tok P)) opening_paren P2)
          as Hmatch.
        destruct (parseMatchingToken _ _ _ _ P2) as [m P3|F P3];
          [|exact Hmatch].
        cbn [ret]. split; [lia | intros _; lia].
  - intros Names P Hn. cbn [parseVarNameElements]. unfold bind at 1.
    specialize (IHname P ltac:(lia)).
    destruct (parseVarName n P) as [[Elt|] P1|F P1];
      [|cbn; split; [lia | congruence]|exact IHname].
    destruct IHname as [_ Hlt]. specialize (Hlt ltac:(discriminate)).
    unfold bind at 1.
    destruct (consumeIf_tokensLeft tok_comma P1) as (c & P2 & -> & Hle).
    destruct c; [|cbn; split; [lia | intros _; lia]].
    specialize (IHelts (Names ++ [Elt]) P2 ltac:(lia)).
    destruct (parseVarNameElements n _ P2); [|exact IHelts].
    split; [lia | intros _; lia].
Qed.

(** ** Binding the leaves of a destructuring pattern *)

Lemma DeclVarName_nested_ind (Q : DeclVarName -> Prop) :
  (forall Id Loc, Q (VarNameSimple Id Loc)) ->
  (forall LP Elts RP, Forall Q Elts -> Q (VarNameTuple LP Elts RP)) ->
  forall N, Q N.
Proof.
  intros Hs Ht. fix IH 1. intros [Id Loc|LP Elts RP]; [apply Hs|].
  apply Ht. induction Elts as [|E Elts IHE]; constructor;
    [apply IH | exact IHE].
Qed.

Lemma bindingsFrom_app (Ds1 Ds2 : list Decl) :
  forall First,
    bindingsFrom First (Ds1 ++ Ds2)
    = bindingsFrom (First + length Ds1) Ds2 ++ bindingsFrom First Ds1.
Proof.
  induction Ds1 as [|D Ds1 IH]; intros First; cbn [app bindingsFrom length].
  - rewrite Nat.add_0_r, app_nil_r. reflexivity.
  - rewrite IH, <- app_assoc, Nat.add_succ_comm. reflexivity.
Qed.

Lemma bindingsFrom_length (Ds : list Decl) :
  forall First, length (bindingsFrom First Ds) = length Ds.
Proof.
  induction Ds as [|D Ds IH]; intros First; cbn [bindingsFrom length];
    [reflexivity|].
  rewrite length_app, IH. cbn [length]. lia.
Qed.

Lemma getVarType_app_refs (P P' : Parser) (Refs : list Decl) (VD : DeclId) :
  DeclArena P' = DeclArena P ++ Refs ->
  Forall (fun D => isElementRef D = true) Refs ->
  getVarType P' VD = getVarType P VD.
Proof.
  intros HA Hrefs. unfold getVarType, getDecl. rewrite HA.
  destruct (DeclArena P !! VD) as [d|] eqn:Hd.
  - erewrite lookup_app_l_Some by exact Hd. reflexivity.
  - apply lookup_ge_None in Hd. rewrite lookup_app_r by exact Hd.
    destruct (Refs !! (VD - length (DeclArena P))) as [d|] eqn:Hr;
      [|reflexivity].
    apply list_elem_of_lookup_2 in Hr.
    rewrite Forall_forall in Hrefs. apply Hrefs in Hr.
    unfold isElementRef in Hr. destruct d as [[] loc dc]; try discriminate.
    reflexivity.
Qed.

Section Leaves.

Context {ext : Collaborators}.

Lemma elementRefs_are_refs (T : Ty) (VD : DeclId) (DC : DeclContext)
      (Leaves : list (Identifier * SourceLoc * list nat)) :
  Forall (fun D => isElementRef D = true) (elementRefs T VD DC Leaves).
Proof.
  apply Forall_forall. intros D Hin. unfold elementRefs in Hin.
  apply list_elem_of_In, in_flat_map in Hin as (Leaf & _ & Hin).
  destruct (getTypeForPath T (snd Leaf)); [|destruct Hin].
  destruct Hin as [<-|[]]. reflexivity.
Qed.

Lemma boundRefs_trans (P P1 P2 : Parser) (R1 R2 : list Decl)
      (D1 D2 : list Diagnostic) :
  boundRefs P P1 R1 D1 -> boundRefs P1 P2 R2 D2 ->
  boundRefs P P2 (R1 ++ R2) (D1 ++ D2).
Proof.
  unfold boundRefs. intros (HA1 & HD1 & HF1 & HT1 & HU1 & HC1)
                           (HA2 & HD2 & HF2 & HT2 & HU2 & HC2).
  repeat split; try congruence.
  - rewrite HA2, HA1, app_assoc. reflexivity.
  - rewrite HD2, HD1, app_assoc. reflexivity.
  - rewrite HF2, HF1, HA1, length_app, bindingsFrom_app, app_assoc. reflexivity.
Qed.

Lemma actOnVarDeclName_leaf (Id : Identifier) (Loc : SourceLoc)
      (AccessPath : list nat) (VD : DeclId) (Decls : list (option DeclId))
      (P : Parser) :
  let Leaves := [(Id, Loc, AccessPath)] in
  let Refs := elementRefs (getVarType P VD) VD (CurDeclContext P) Leaves in
  exists P',
    actOnVarDeclName (VarNameSimple Id Loc) AccessPath VD Decls P
    = Ok (Decls ++ List.map Some (seq (length (DeclArena P)) (length Refs))) P' /\
    boundRefs P P' Refs (invalidPathDiags (getVarType P VD) Leaves).
Proof.
  cbn zeta. unfold elementRefs, invalidPathDiags.
  cbn [actOnVarDeclName flat_map fst snd].
  destruct (getTypeForPath (getVarType P VD) AccessPath) as [Ty|].
  - eexists. split; [reflexivity|].
    unfold boundRefs. cbn [app length]. rewrite app_nil_r.
    repeat split.
    + cbn [bindingsFrom app]. rewrite currentFrame_insertInnermost.
      f_equal. f_equal. unfold getName, getDecl.
      cbn [DeclArena withDeclArena].
      rewrite list_lookup_middle by reflexivity. reflexivity.
    + cbn [ScopeInfo withScopeInfo withDeclArena Frames].
      destruct (Frames (ScopeInfo P)); reflexivity.
  - eexists. split.
    { unfold bind, diagnose, modify, ret. cbn [app length seq List.map].
      rewrite app_nil_r. reflexivity. }
    unfold boundRefs. cbn [app]. rewrite app_nil_r. repeat split.
Qed.

Lemma actOnVarDeclElements_bound (Elts : list DeclVarName) :
  Forall (fun Name =>
            forall AccessPath VD Decls P,
              let Leaves := leavesOf Name AccessPath in
              let Refs := elementRefs (getVarType P VD) VD (CurDeclContext P) Leaves in
              exists P',
                actOnVarDeclName Name AccessPath VD Decls P
                = Ok (Decls ++ List.map Some
                                  (seq (length (DeclArena P)) (length Refs))) P' /\
                boundRefs P P' Refs (invalidPathDiags (getVarType P VD) Leaves))
         Elts ->
  forall AccessPath Index VD Decls P,
    let Leaves := leavesOfElements Elts AccessPath Index in
    let Refs := elementRefs (getVarType P VD) VD (CurDeclContext P) Leaves in
    exists P',
      actOnVarDeclElements Elts AccessPath Index VD Decls P
      = Ok (Decls ++ List.map Some (seq (length (DeclArena P)) (length Refs))) P' /\
      boundRefs P P' Refs (invalidPathDiags (getVarType P VD) Leaves).
Proof.
  induction 1 as [|Element Elts HE _ IH]; intros AccessPath Index VD Decls P;
    cbn zeta; cbn [actOnVarDeclElements leavesOfElements].
  - exists P. split.
    { cbn. rewrite app_nil_r. reflexivity. }
    unfold boundRefs. cbn. rewrite !app_nil_r. repeat split.
  - destruct (HE (AccessPath ++ [Index]) VD Decls P) as (P1 & Hrun1 & Hb1).
    rewrite (bind_eq _ _ _ _ _ Hrun1).
    destruct (IH AccessPath (S Index) VD
                 (Decls ++ List.map Some
                             (seq (length (DeclArena P))
                                  (length (elementRefs (getVarType P VD) VD
                                             (CurDeclContext P)
                                             (leavesOf Element (AccessPath ++ [Index]))))))
                 P1) as (P2 & Hrun2 & Hb2).
    assert (HT : getVarType P1 VD = getVarType P VD).
    { eapply getVarType_app_refs; [apply Hb1 | apply elementRefs_are_refs]. }
    assert (HC : CurDeclContext P1 = CurDeclContext P) by apply Hb1.
    assert (HA : DeclArena P1
                 = DeclArena P
                   ++ elementRefs (getVarType P VD) VD (CurDeclContext P)
                        (leavesOf Element (AccessPath ++ [Index])))
      by apply Hb1.
    rewrite HT, HC in Hrun2, Hb2.
    exists P2. split.
    + rewrite Hrun2. f_equal. rewrite <- app_assoc. f_equal.
      unfold elementRefs at 3. rewrite flat_map_app.
      fold (elementRefs (getVarType P VD) VD (CurDeclContext P)
              (leavesOf Element (AccessPath ++ [Index]))).
      fold (elementRefs (getVarType P VD) VD (CurDeclContext P)
              (leavesOfElements Elts AccessPath (S Index))).
      rewrite length_app, seq_app, map_app, HA, length_app. reflexivity.
    + unfold elementRefs at 1, invalidPathDiags at 1. rewrite !flat_map_app.
      eapply boundRefs_trans; eassumption.
Qed.

Lemma leavesOf_tuple (LP RP : SourceLoc) (Elts : list DeclVarName)
      (AccessPath : list nat) :
  leavesOf (VarNameTuple LP Elts RP) AccessPath
  = leavesOfElements Elts AccessPath 0.
Proof.
  cbn [leavesOf]. generalize 0.
  induction Elts as [|E Elts IH]; intros Index; [reflexivity|].
  cbn [leavesOfElements]. rewrite <- IH. reflexivity.
Qed.

Lemma actOnVarDeclName_tuple (LP RP : SourceLoc) (Elts : list DeclVarName)
      (AccessPath : list nat) (VD : DeclId) (Decls : list (option DeclId))
      (P : Parser) :
  actOnVarDeclName (VarNameTuple LP Elts RP) AccessPath VD Decls P
  = actOnVarDeclElements Elts AccessPath 0 VD Decls P.
Proof.
  cbn [actOnVarDeclName]. generalize 0. revert Decls P.
  induction Elts as [|E Elts IH]; intros Decls P Index; [reflexivity|].
  cbn [actOnVarDeclElements]. unfold bind.
  destruct (actOnVarDeclName E (AccessPath ++ [Index]) VD Decls P);
    [apply IH | reflexivity].
Qed.

Lemma actOnVarDeclName_bound (Name : DeclVarName) :
  forall AccessPath VD Decls P,
    let Leaves := leavesOf Name AccessPath in
    let Refs := elementRefs (getVarType P VD) VD (CurDeclContext P) Leaves in
    exists P',
      actOnVarDeclName Name AccessPath VD Decls P
      = Ok (Decls ++ List.map Some (seq (length (DeclArena P)) (length Refs))) P' /\
      boundRefs P P' Refs (invalidPathDiags (getVarType P VD) Leaves).
Proof.
  induction Name as [Id Loc|LP Elts RP IH] using DeclVarName_nested_ind;
    intros AccessPath VD Decls P.
  - apply actOnVarDeclName_leaf.
  - rewrite leavesOf_tuple, actOnVarDeclName_tuple.
    exact (actOnVarDeclElements_bound Elts IH AccessPath 0 VD Decls P).
Qed.

End Leaves.

(** ** Variable declarations *)

Lemma bindingsFrom_ids (Ds : list Decl) :
  forall First N D, In (N, D) (bindingsFrom First Ds) -> First <= D.
Proof.
  induction Ds as [|D0 Ds IH]; intros First N D Hin; cbn [bindingsFrom] in Hin;
    [destruct Hin|].
  apply in_app_or in Hin as [Hin|[Hin|[]]].
  - apply IH in Hin. lia.
  - injection Hin as _ <-. lia.
Qed.

Section VarDecl.

Context {ext : Collaborators}.

(** The run of [parseDeclVar] on a declaration whose pattern is composite,
    once the pattern and the value specifier have been parsed: the
    [VarDecl] is created, then the element references of the leaves with
    a valid access path are created and bound. *)
Lemma parseDeclVar_composite
      (n : nat) (Decls : list (option DeclId)) (P Q1 Q2 Q Q' : Parser)
      (VarLoc : SourceLoc) (Attributes : DeclAttributes)
      (VarName : DeclVarName) (T : Type_) (Init : option Expr) :
  consumeTokenK kw_var P = Ok VarLoc Q1 ->
  parseAttributeList noAttributes Q1 = Ok Attributes Q2 ->
  parseVarName n Q2 = Ok (Some VarName) Q ->
  parseValueSpecifier false Q = Ok (Some (T, Init)) Q' ->
  DeclVarName_isSimple VarName = false ->
  let Ty := match T with Some Ty => Ty | None => DependentType end in
  let VD := length (DeclArena Q') in
  let Leaves := leavesOf VarName [] in
  let Refs := elementRefs Ty VD (CurDeclContext Q') Leaves in
  exists P',
    parseDeclVar n Decls P
    = Ok (false, Decls ++ Some VD :: List.map Some (seq (S VD) (length Refs))) P' /\
    sameAST P Q /\
    DeclArena P'
    = DeclArena Q'
      ++ mkDecl (VarDecl "" (Some VarName) Ty Init Attributes) VarLoc
                (CurDeclContext Q') :: Refs /\
    currentFrame P' = bindingsFrom (S VD) Refs ++ currentFrame Q' /\
    Diags P' = Diags Q' ++ invalidPathDiags Ty Leaves.
Proof.
  intros E1 E2 E3 E4 Hcomposite. cbv zeta.
  destruct VarName as [Id Loc|LP Elts RP]; [discriminate|].
  unfold parseDeclVar.
  rewrite (bind_eq _ _ _ _ _ E1), (bind_eq _ _ _ _ _ E2),
    (bind_eq _ _ _ _ _ E3), (bind_eq _ _ _ _ _ E4).
  unfold bind at 1. cbn [gets]. unfold bind at 1. cbn [allocDecl].
  set (VD := length (DeclArena Q')).
  set (Ty := match T with Some Ty => Ty | None => DependentType end).
  set (Q6 := withDeclArena _ Q').
  pose proof (actOnVarDeclName_bound (VarNameTuple LP Elts RP) [] VD
                (Decls ++ [Some VD]) Q6) as Hb.
  cbv zeta in Hb. unfold boundRefs in Hb.
  assert (HT : getVarType Q6 VD = Ty).
  { unfold getVarType, getDecl. subst Q6. cbn [DeclArena withDeclArena].
    rewrite list_lookup_middle by reflexivity. reflexivity. }
  assert (HL : length (DeclArena Q6) = S VD).
  { subst Q6. cbn [DeclArena withDeclArena].
    rewrite length_app. cbn [length]. subst VD. lia. }
  rewrite HT, HL in Hb.
  destruct Hb as (P' & Hrun & HA & HD & HF & _).
  exists P'. split.
  { rewrite (bind_eq _ _ _ _ _ Hrun). unfold ret.
    rewrite <- app_assoc. reflexivity. }
  split.
  { eapply sameAST_trans;
      [eapply tokensOnly_Ok; [apply tokensOnly_consumeTokenK | exact E1]|].
    eapply sameAST_trans;
      [eapply tokensOnly_Ok; [apply tokensOnly_parseAttributeList | exact E2]|].
    eapply tokensOnly_Ok; [apply (proj1 (tokensOnly_parseVarName n)) | exact E3]. }
  split; [|split; [exact HF | exact HD]].
  rewrite HA. subst Q6. cbn [DeclArena withDeclArena].
  rewrite <- app_assoc. reflexivity.
Qed.

Lemma elementRefs_all_valid (T : Ty) (VD : DeclId) (DC : DeclContext)
      (Leaves : list (Identifier * SourceLoc * list nat)) :
  (forall Leaf, In Leaf Leaves -> getTypeForPath T (snd Leaf) <> None) ->
  length (elementRefs T VD DC Leaves) = length Leaves.
Proof.
  induction Leaves as [|Leaf Leaves IH]; intros Hvalid; [reflexivity|].
  unfold elementRefs in *. cbn [flat_map].
  rewrite length_app, IH by (intros L HL; apply Hvalid; right; exact HL).
  specialize (Hvalid Leaf (or_introl eq_refl)).
  destruct (getTypeForPath T (snd Leaf)); [reflexivity | congruence].
Qed.

(** C5 (as amended).  Take a var declaration whose pattern parses to a
    composite name and whose value specifier (type and initializer)
    parses.  The value specifier is parsed on a state whose scope is still
    the one [parseDeclVar] was entered with, so the initializer sees no
    leaf.  Then [parseDeclVar] succeeds: it creates the [VarDecl] carrying
    the pattern, which is bound under no name, and visits the leaves left
    to right, each with its access path; a leaf whose path has a type in
    the declared type gets one element-reference declaration, bound under
    the leaf's name in the current scope, and a leaf whose path has none
    is diagnosed and gets no declaration.  When every path is valid there
    is exactly one element reference per leaf. *)
Theorem parseDeclVar_binds_valid_leaves
        (n : nat) (Decls : list (option DeclId)) (P Q1 Q2 Q Q' : Parser)
        (VarLoc : SourceLoc) (Attributes : DeclAttributes)
        (VarName : DeclVarName) (T : Type_) (Init : option Expr) :
  consumeTokenK kw_var P = Ok VarLoc Q1 ->
  parseAttributeList noAttributes Q1 = Ok Attributes Q2 ->
  parseVarName n Q2 = Ok (Some VarName) Q ->
  parseValueSpecifier false Q = Ok (Some (T, Init)) Q' ->
  DeclVarName_isSimple VarName = false ->
  let Ty := match T with Some Ty => Ty | None => DependentType end in
  let VD := length (DeclArena Q') in
  let Leaves := leavesOf VarName [] in
  let Refs := elementRefs Ty VD (CurDeclContext Q') Leaves in
  exists P',
    parseDeclVar n Decls P
    = Ok (false, Decls ++ Some VD :: List.map Some (seq (S VD) (length Refs))) P' /\
    ScopeInfo Q = ScopeInfo P /\
    DeclArena P'
    = DeclArena Q'
      ++ mkDecl (VarDecl "" (Some VarName) Ty Init Attributes) VarLoc
                (CurDeclContext Q') :: Refs /\
    currentFrame P' = bindingsFrom (S VD) Refs ++ currentFrame Q' /\
    (forall N, ~ In (N, VD) (bindingsFrom (S VD) Refs)) /\
    Diags P' = Diags Q' ++ invalidPathDiags Ty Leaves /\
    ((forall Leaf, In Leaf Leaves -> getTypeForPath Ty (snd Leaf) <> None) ->
     length Refs = length Leaves).
Proof.
  intros E1 E2 E3 E4 Hcomposite. cbv zeta.
  destruct (parseDeclVar_composite n Decls _ _ _ _ _ _ _ _ _ _
              E1 E2 E3 E4 Hcomposite)
    as (P' & Hrun & Hsame & HA & HF & HD).
  exists P'. split; [exact Hrun|]. split; [apply Hsame|].
  split; [exact HA|]. split; [exact HF|].
  split; [|split; [exact HD | apply elementRefs_all_valid]].
  intros N Hin. apply bindingsFrom_ids in Hin. lia.
Qed.

(** X24.  When [parseDeclVarSimple] meets a var declaration
    whose composite pattern yields at least one element reference, it
    reports the declaration as not simple and returns null, and leaves
    the parser as [parseDeclVar] left it but for that diagnostic: the
    [VarDecl] and the element references stay in the arena and the
    element references stay bound in the current scope. *)
Theorem parseDeclVarSimple_keeps_leaf_bindings
        (n : nat) (P Q1 Q2 Q Q' : Parser)
        (VarLoc : SourceLoc) (Attributes : DeclAttributes)
        (VarName : DeclVarName) (T : Type_) (Init : option Expr) :
  consumeTokenK kw_var P = Ok VarLoc Q1 ->
  parseAttributeList noAttributes Q1 = Ok Attributes Q2 ->
  parseVarName n Q2 = Ok (Some VarName) Q ->
  parseValueSpecifier false Q = Ok (Some (T, Init)) Q' ->
  DeclVarName_isSimple VarName = false ->
  let Ty := match T with Some Ty => Ty | None => DependentType end in
  let VD := length (DeclArena Q') in
  let Leaves := leavesOf VarName [] in
  let Refs := elementRefs Ty VD (CurDeclContext Q') Leaves in
  Refs <> [] ->
  exists P',
    parseDeclVarSimple n P = Ok None P' /\
    Diags P'
    = Diags Q' ++ invalidPathDiags Ty Leaves
      ++ [mkDiag (getLoc (Tok P)) non_simple_var ""] /\
    DeclArena P'
    = DeclArena Q'
      ++ mkDecl (VarDecl "" (Some VarName) Ty Init Attributes) VarLoc
                (CurDeclContext Q') :: Refs /\
    currentFrame P' = bindingsFrom (S VD) Refs ++ currentFrame Q'.
Proof.
  intros E1 E2 E3 E4 Hcomposite. cbv zeta. intros Hrefs.
  destruct (parseDeclVar_composite n [] _ _ _ _ _ _ _ _ _ _
              E1 E2 E3 E4 Hcomposite)
    as (P1 & Hrun & _ & HA & HF & HD).
  cbv zeta in Hrun.
  eexists. split.
  { unfold parseDeclVarSimple. unfold bind at 1. cbn [tokLoc gets].
    rewrite (bind_eq _ _ _ _ _ Hrun). cbn [fst snd app].
    destruct (elementRefs _ _ _ _) as [|R Refs]; [congruence|].
    reflexivity. }
  cbn [Diags DeclArena withDiags].
  split; [rewrite HD, <- app_assoc; reflexivity|].
  split; [exact HA | exact HF].
Qed.

(** C10 (violated by the code).  [parseDeclVarSimple] parses the reduced
    form of a var declaration, whose name is a single identifier, and
    rejects the others as [non_simple_var]; but what it tests is the
    number of declarations [parseDeclVar] has produced.  A composite
    pattern that yields no element reference (a pattern without leaves,
    such as [()], or one whose leaves all have an invalid access path)
    produces the [VarDecl] alone, and the declaration is accepted: the
    [VarDecl] of the composite pattern is returned and [non_simple_var]
    is not reported. *)
Theorem parseDeclVarSimple_accepts_composite_without_refs
        (n : nat) (P Q1 Q2 Q Q' : Parser)
        (VarLoc : SourceLoc) (Attributes : DeclAttributes)
        (VarName : DeclVarName) (T : Type_) (Init : option Expr) :
  consumeTokenK kw_var P = Ok VarLoc Q1 ->
  parseAttributeList noAttributes Q1 = Ok Attributes Q2 ->
  parseVarName n Q2 = Ok (Some VarName) Q ->
  parseValueSpecifier false Q = Ok (Some (T, Init)) Q' ->
  DeclVarName_isSimple VarName = false ->
  let Ty := match T with Some Ty => Ty | None => DependentType end in
  let VD := length (DeclArena Q') in
  let Leaves := leavesOf VarName [] in
  elementRefs Ty VD (CurDeclContext Q') Leaves = [] ->
  exists P',
    parseDeclVarSimple n P = Ok (Some VD) P' /\
    getDecl P' VD
    = Some (mkDecl (VarDecl "" (Some VarName) Ty Init Attributes) VarLoc
                   (CurDeclContext Q')) /\
    Diags P' = Diags Q' ++ invalidPathDiags Ty Leaves.
Proof.
  intros E1 E2 E3 E4 Hcomposite. cbv zeta. intros Hrefs.
  destruct (parseDeclVar_composite n [] _ _ _ _ _ _ _ _ _ _
              E1 E2 E3 E4 Hcomposite)
    as (P1 & Hrun & _ & HA & _ & HD).
  cbv zeta in Hrun, HA. rewrite Hrefs in Hrun, HA. cbn [length seq List.map app] in Hrun.
  assert (Hget : getDecl P1 (length (DeclArena Q'))
                 = Some (mkDecl (VarDecl "" (Some VarName)
                                   match T with Some Ty => Ty | None => DependentType end
                                   Init Attributes) VarLoc (CurDeclContext Q'))).
  { unfold getDecl. rewrite HA. apply list_lookup_middle. reflexivity. }
  exists P1. split; [|split; [exact Hget | exact HD]].
  unfold parseDeclVarSimple. unfold bind at 1. cbn [tokLoc gets].
  rewrite (bind_eq _ _ _ _ _ Hrun). cbn [fst snd].
  unfold isaVarDecl. rewrite Hget. reflexivity.
Qed.

End VarDecl.

(** The header of [var (a, b) : (Int, Int) = (1, 2)] as the theorems on
    composite var declarations take it: the states after [var], after the (absent)
    attribute list, after the pattern and after the value specifier. *)
Lemma varAB_header :
  exists (Q1 Q2 Q Q' : Parser),
    consumeTokenK kw_var (Frontend.start Frontend.varAB) = Ok 1 Q1 /\
    parseAttributeList noAttributes Q1 = Ok noAttributes Q2 /\
    parseVarName 5 Q2
    = Ok (Some (VarNameTuple 2 [VarNameSimple "a" 3; VarNameSimple "b" 5] 6)) Q /\
    @parseValueSpecifier Frontend.collaborators false Q
    = Ok (Some (Some (TupleType [(NameAliasType 0, ""); (NameAliasType 0, "")]),
                Some (mkExpr 0))) Q' /\
    DeclArena Q' = [mkDecl (TypeAliasDecl "Int" None) 9 DC_TranslationUnit] /\
    CurDeclContext Q' = DC_TranslationUnit /\
    currentFrame Q' = [("Int", 0)] /\
    Diags Q' = [].
Proof.
  pose (Q1 := stateOf (consumeTokenK kw_var (Frontend.start Frontend.varAB))).
  pose (Q2 := stateOf (parseAttributeList noAttributes Q1)).
  pose (Q := stateOf (parseVarName 5 Q2)).
  pose (Q' := stateOf (@parseValueSpecifier Frontend.collaborators false Q)).
  exists Q1, Q2, Q, Q'. vm_compute. repeat split; reflexivity.
Qed.

(** The run of C5's theorem on [var (a, b) : (Int, Int) = (1, 2)]: with
    [Int] the alias 0 and the [VarDecl] declaration 1, the leaves [a] and
    [b] get the element references 2 and 3 with access paths [0] and [1],
    both bound in the current scope, and the value specifier was parsed
    on a state whose scope was still empty. *)
Lemma parseDeclVar_binds_valid_leaves_witness :
  exists Q P',
    Frames (ScopeInfo Q) = [[]] /\
    (exists Q', @parseValueSpecifier Frontend.collaborators false Q
                = Ok (Some (Some (TupleType [(NameAliasType 0, "");
                                             (NameAliasType 0, "")]),
                            Some (mkExpr 0))) Q') /\
    @parseDeclVar Frontend.collaborators 5 [] (Frontend.start Frontend.varAB)
    = Ok (false, [Some 1; Some 2; Some 3]) P' /\
    getDecl P' 2
    = Some (mkDecl (ElementRefDecl 1 "a" [0] (NameAliasType 0)) 3
                   DC_TranslationUnit) /\
    getDecl P' 3
    = Some (mkDecl (ElementRefDecl 1 "b" [1] (NameAliasType 0)) 5
                   DC_TranslationUnit) /\
    currentFrame P' = [("b", 3); ("a", 2); ("Int", 0)].
Proof.
  destruct varAB_header as (Q1 & Q2 & Q & Q' & E1 & E2 & E3 & E4 & HA' & HC' & HF' & _).
  destruct (@parseDeclVar_binds_valid_leaves Frontend.collaborators
              5 [] _ _ _ _ _ _ _ _ _ _ E1 E2 E3 E4 eq_refl)
    as (P' & Hrun & Hscope & HA & HF & _).
  rewrite HA', HC' in Hrun, HA, HF. rewrite HF' in HF.
  exists Q, P'. split; [rewrite Hscope; reflexivity|].
  split; [eexists; exact E4|].
  split; [exact Hrun|].
  unfold getDecl. rewrite HA. repeat split; try reflexivity. exact HF.
Defined.

(** C5 (as stated) fails on [var (a, b, c) : (Int, Int) = (1, 2)]: the
    declaration parses, but the leaf [c], whose access path [2] is past
    the arity of the declared type, gets no element reference. *)
Lemma invalid_leaf_gets_no_element_ref :
  (exists Decls' P',
      @parseDeclVar Frontend.collaborators 5 [] (Frontend.start Frontend.varABC)
      = Ok (false, Decls') P') /\
  ~ exists Decls' P' D VD Ty DC,
      @parseDeclVar Frontend.collaborators 5 [] (Frontend.start Frontend.varABC)
      = Ok (false, Decls') P' /\
      In (Some D) Decls' /\
      getDecl P' D = Some (mkDecl (ElementRefDecl VD "c" [2] Ty) 7 DC).
Proof.
  split; [vm_compute; do 2 eexists; reflexivity|].
  intros (Decls' & P' & D & VD & Ty & DC & Hrun & Hin & Hget).
  vm_compute in Hrun. injection Hrun as <- <-.
  destruct Hin as [Hin|[Hin|[Hin|[]]]]; injection Hin as <-;
    vm_compute in Hget; discriminate.
Qed.

(** The run of [parseDeclVarSimple] on [var (a, b) : (Int, Int) = (1, 2)] met
    as a protocol member: null is returned after the diagnostic, and [a]
    and [b] are still bound in the current scope. *)
Lemma parseDeclVarSimple_keeps_leaf_bindings_witness :
  exists P',
    @parseDeclVarSimple Frontend.collaborators 5 (Frontend.start Frontend.varAB)
    = Ok None P' /\
    Diags P' = [mkDiag 1 non_simple_var ""] /\
    currentFrame P' = [("b", 3); ("a", 2); ("Int", 0)].
Proof.
  destruct varAB_header
    as (Q1 & Q2 & Q & Q' & E1 & E2 & E3 & E4 & HA' & HC' & HF' & HD').
  destruct (@parseDeclVarSimple_keeps_leaf_bindings Frontend.collaborators
              5 _ _ _ _ _ _ _ _ _ _ E1 E2 E3 E4 eq_refl)
    as (P' & Hrun & HD & _ & HF).
  { rewrite HA', HC'. discriminate. }
  rewrite HA', HC', HF' in HF. rewrite HD' in HD.
  exists P'. split; [exact Hrun|]. split; [exact HD | exact HF].
Defined.

(** The run of the theorem above on [var () : ()], and the run of the
    declaration [protocol P { var () : () }] through the dispatcher: the
    var declaration with the composite name [()] is accepted as a member
    of the protocol and nothing is reported. *)
Lemma parseDeclVarSimple_accepts_composite_without_refs_witness :
  (exists P',
      @parseDeclVarSimple Frontend.collaborators 5
                          (Frontend.start Frontend.varUnit) = Ok (Some 0) P' /\
      getDecl P' 0
      = Some (mkDecl (VarDecl "" (Some (VarNameTuple 2 [] 3)) (TupleType [])
                              None noAttributes) 1 DC_TranslationUnit) /\
      Diags P' = []) /\
  (exists P',
      @parseDecl Frontend.collaborators 9 [] PD_AllowImport
                 (Frontend.start Samples.protocolVarUnit)
      = Ok (false, [Some 0]) P' /\
      ProtocolTypes P' = [mkProtocolType 1 [1] DC_TranslationUnit] /\
      Diags P' = []).
Proof.
  split; [|vm_compute; eexists; repeat split; reflexivity].
  pose (Q1 := stateOf (consumeTokenK kw_var (Frontend.start Frontend.varUnit))).
  pose (Q2 := stateOf (parseAttributeList noAttributes Q1)).
  pose (Q := stateOf (parseVarName 5 Q2)).
  pose (Q' := stateOf (@parseValueSpecifier Frontend.collaborators false Q)).
  assert (E1 : consumeTokenK kw_var (Frontend.start Frontend.varUnit) = Ok 1 Q1)
    by (vm_compute; reflexivity).
  assert (E2 : parseAttributeList noAttributes Q1 = Ok noAttributes Q2)
    by (vm_compute; reflexivity).
  assert (E3 : parseVarName 5 Q2 = Ok (Some (VarNameTuple 2 [] 3)) Q)
    by (vm_compute; reflexivity).
  assert (E4 : @parseValueSpecifier Frontend.collaborators false Q
               = Ok (Some (Some (TupleType []), None)) Q')
    by (vm_compute; reflexivity).
  destruct (@parseDeclVarSimple_accepts_composite_without_refs
              Frontend.collaborators 5 _ _ _ _ _ _ _ _ _ _ E1 E2 E3 E4
              eq_refl eq_refl)
    as (P' & Hrun & Hget & HD).
  exists P'. split; [exact Hrun|]. split; [exact Hget|].
  rewrite HD. reflexivity.
Defined.

(** * Further properties of the declaration parser *)

(** ** Attributes *)

Lemma sameAST_withTok (T : Token) (Lx : list Token) (P : Parser) :
  sameAST P (withTok T Lx P).
Proof. repeat split. Qed.

Lemma sameAST_withDiags (Ds : list Diagnostic) (P : Parser) :
  sameAST P (withDiags Ds P).
Proof. repeat split. Qed.

(** What [parseAttribute] answers, entry by entry. *)
Lemma parseAttribute_outcome (A : DeclAttributes) (P : Parser) :
  exists r P',
    parseAttribute A P = Ok r P' /\
    match (if Token_is (Tok P) tok_identifier then isInfixAttr (Tok P) else None) with
    | Some Assoc =>
        fst r = false /\
        exists Prec,
          snd r = mkDeclAttributes (LSquareLoc A) (RSquareLoc A)
                                   (Some (mkInfixData Prec Assoc)) /\
          (0 <= Prec <= 255)%Z
    | None => r = (true, A)
    end.
Proof.
  unfold parseAttribute.
  destruct (if Token_is (Tok P) tok_identifier then isInfixAttr (Tok P) else None)
    as [Assoc|] eqn:Hfix.
  - assert (Hid : Token_is (Tok P) tok_identifier = true)
      by (destruct (Token_is (Tok P) tok_identifier); [reflexivity|discriminate]).
    cbv beta iota delta
        [bind when_ diagnoseTok diagnose modify consumeTokenK curTokIs gets
         assert_ ret consumeToken consumeIf parseToken parseTokenLoc skipUntil2
         crash].
    repeat (cbn [Tok Lexer withTok withDiags fst snd negb]; rewrite ?Hid;
            match goal with
            | |- context [if ?b then _ else _] => destruct b eqn:?
            | |- context [let (_, _) := ?x in _] => destruct x eqn:?
            | |- context [match getAsInteger ?x with _ => _ end] =>
                destruct (getAsInteger x) eqn:?
            end);
      try discriminate;
      (do 2 eexists; split; [reflexivity|]; split; [reflexivity|];
       eexists; split; [reflexivity|]; try lia).
  - cbv beta iota delta [bind diagnoseTok diagnose skipUntil modify ret].
    destruct (Token_is (Tok P) tok_identifier);
      match goal with
      | |- context [let (_, _) := ?x in _] => destruct x
      end; do 2 eexists; (split; reflexivity).
Qed.

(** ** Routines that always return *)

Lemma returns_ret {A} (a : A) : returns (ret a).
Proof. intros P. eauto. Qed.

Lemma returns_gets {A} (f : Parser -> A) : returns (gets f).
Proof. intros P. unfold gets. eauto. Qed.

Lemma returns_modify (f : Parser -> Parser) : returns (modify f).
Proof. intros P. unfold modify. eauto. Qed.

Lemma returns_bind {A B} (m : M A) (k : A -> M B) :
  returns m -> (forall a, returns (k a)) -> returns (bind m k).
Proof.
  intros Hm Hk P. unfold bind. destruct (Hm P) as (a & P1 & ->). apply Hk.
Qed.

Lemma returns_diagnose (Loc : SourceLoc) (d : diag) (Arg : string) :
  returns (diagnose Loc d Arg).
Proof. apply returns_modify. Qed.

Lemma returns_diagnoseTok (d : diag) (Arg : string) :
  returns (diagnoseTok d Arg).
Proof. intros P. apply returns_diagnose. Qed.

Lemma returns_consumeToken : returns consumeToken.
Proof. intros P. unfold consumeToken. destruct (lex (Lexer P)). eauto. Qed.

Lemma returns_skipUntil (T1 : tok) : returns (skipUntil T1).
Proof. apply returns_modify. Qed.

Lemma returns_when (b : bool) (m : M unit) : returns m -> returns (when_ b m).
Proof. destruct b; [auto | intros _; apply returns_ret]. Qed.

Lemma returns_consumeIf (K : tok) : returns (consumeIf K).
Proof.
  intros P. unfold consumeIf, bind, curTokIs, gets, consumeToken, ret.
  destruct (Token_is (Tok P) K); [destruct (lex (Lexer P))|]; eauto.
Qed.

Lemma returns_parseTokenLoc (K : tok) (D : diag) : returns (parseTokenLoc K D).
Proof.
  intros P. unfold parseTokenLoc. unfold bind at 1. cbn [curTokIs gets].
  destruct (Token_is (Tok P) K) eqn:HK.
  - rewrite (bind_eq _ _ _ _ _ (consumeTokenK_matches _ _ HK)). eauto.
  - cbv beta delta [bind diagnoseTok diagnose modify gets ret]. eauto.
Qed.

Create HintDb returns.
#[local] Hint Resolve returns_ret returns_gets returns_modify returns_diagnose
  returns_diagnoseTok returns_consumeToken returns_skipUntil returns_when
  returns_consumeIf returns_parseTokenLoc : returns.

(** Splits a monadic term into its steps and closes the primitive ones. *)
Ltac returns :=
  repeat first
    [ solve [auto with returns]
    | apply returns_bind; [|intros ?]
    | apply returns_when
    | match goal with
      | |- returns (if ?b then _ else _) => destruct b
      | |- returns (match ?x with _ => _ end) => destruct x
      end ].

Lemma returns_parseToken (K : tok) (D : diag) : returns (parseToken K D).
Proof. unfold parseToken. returns. Qed.
#[local] Hint Resolve returns_parseToken : returns.

Lemma returns_parseMatchingToken (K : tok) (D : diag) (Loc : SourceLoc)
      (Note : diag) : returns (parseMatchingToken K D Loc Note).
Proof. unfold parseMatchingToken. returns. Qed.
#[local] Hint Resolve returns_parseMatchingToken : returns.

Lemma returns_parseIdentifier (D : diag) (Arg : string) :
  returns (parseIdentifier D Arg).
Proof.
  intros P. unfold parseIdentifier.
  destruct (Token_is (Tok P) tok_identifier || Token_is (Tok P) tok_oper);
    match goal with
    | |- exists a P', ?m ?P = _ =>
        let H := fresh in assert (H : returns m) by returns; exact (H P)
    end.
Qed.
#[local] Hint Resolve returns_parseIdentifier : returns.

(** ** The token primitives, step by step *)

Lemma consumeToken_eq (P : Parser) :
  consumeToken P = Ok (getLoc (Tok P)) (next P).
Proof. unfold consumeToken, next. destruct (lex (Lexer P)). reflexivity. Qed.

Lemma consumeTokenK_eq (K : tok) (P : Parser) :
  Token_is (Tok P) K = true -> consumeTokenK K P = Ok (getLoc (Tok P)) (next P).
Proof. apply consumeTokenK_matches. Qed.

Lemma consumeIf_eq (K : tok) (P : Parser) :
  consumeIf K P = if Token_is (Tok P) K then Ok true (next P) else Ok false P.
Proof.
  unfold consumeIf. unfold bind at 1. cbn [curTokIs gets].
  destruct (Token_is (Tok P) K); [|reflexivity].
  unfold bind. rewrite consumeToken_eq. reflexivity.
Qed.

Lemma diagnose_eq (Loc : SourceLoc) (d : diag) (Arg : string) (P : Parser) :
  diagnose Loc d Arg P = Ok tt (reported [mkDiag Loc d Arg] P).
Proof. reflexivity. Qed.

Lemma diagnoseTok_eq (d : diag) (Arg : string) (P : Parser) :
  diagnoseTok d Arg P = Ok tt (reported [mkDiag (getLoc (Tok P)) d Arg] P).
Proof. reflexivity. Qed.

Lemma reported_nil (P : Parser) : reported [] P = P.
Proof. apply withDiags_nil. Qed.

Lemma reported_reported (Ds1 Ds2 : list Diagnostic) (P : Parser) :
  reported Ds2 (reported Ds1 P) = reported (Ds1 ++ Ds2) P.
Proof. unfold reported. cbn. rewrite app_assoc. reflexivity. Qed.

Lemma next_reported (Ds : list Diagnostic) (P : Parser) :
  next (reported Ds P) = reported Ds (next P).
Proof. reflexivity. Qed.

Lemma when_diagnoseTok_eq (b : bool) (d : diag) (Arg : string) (P : Parser) :
  when_ b (diagnoseTok d Arg) P
  = Ok tt (reported (if b then [mkDiag (getLoc (Tok P)) d Arg] else []) P).
Proof. destruct b; [reflexivity|]. rewrite reported_nil. reflexivity. Qed.

Lemma parseTokenLoc_eq (K : tok) (D : diag) (P : Parser) :
  parseTokenLoc K D P
  = if Token_is (Tok P) K then Ok (false, getLoc (Tok P)) (next P)
    else Ok (true, getLoc (Tok P)) (reported [mkDiag (getLoc (Tok P)) D ""] P).
Proof.
  unfold parseTokenLoc. unfold bind at 1. cbn [curTokIs gets].
  destruct (Token_is (Tok P) K) eqn:HK.
  - rewrite (bind_eq _ _ _ _ _ (consumeTokenK_eq _ _ HK)). reflexivity.
  - reflexivity.
Qed.

Lemma parseToken_eq (K : tok) (D : diag) (P : Parser) :
  parseToken K D P
  = if Token_is (Tok P) K then Ok false (next P)
    else Ok true (reported [mkDiag (getLoc (Tok P)) D ""] P).
Proof.
  unfold parseToken, bind. rewrite parseTokenLoc_eq.
  destruct (Token_is (Tok P) K); reflexivity.
Qed.

Lemma parseMatchingToken_eq (K : tok) (D : diag) (Loc : SourceLoc) (Note : diag)
      (P : Parser) :
  parseMatchingToken K D Loc Note P
  = if Token_is (Tok P) K then Ok (false, getLoc (Tok P)) (next P)
    else Ok (true, getLoc (Tok P))
            (reported [mkDiag (getLoc (Tok P)) D ""; mkDiag Loc Note ""] P).
Proof.
  unfold parseMatchingToken. unfold bind at 1. rewrite parseTokenLoc_eq.
  destruct (Token_is (Tok P) K); [reflexivity|].
  cbn [fst]. unfold bind, ret. rewrite diagnose_eq, reported_reported.
  reflexivity.
Qed.

Lemma parseIdentifier_eq (D : diag) (Arg : string) (P : Parser) :
  parseIdentifier D Arg P
  = if Token_is (Tok P) tok_identifier || Token_is (Tok P) tok_oper
    then Ok (Some (getText (Tok P))) (next P)
    else Ok None (reported [mkDiag (getLoc (Tok P)) D Arg] P).
Proof.
  unfold parseIdentifier.
  destruct (Token_is (Tok P) tok_identifier || Token_is (Tok P) tok_oper);
    unfold bind; [rewrite consumeToken_eq|]; reflexivity.
Qed.

(** X1.  [parseAttribute] always returns, and it reports an error exactly
    when the entry is not a fixity attribute, that is not an identifier
    spelled [infix], [infix_left] or [infix_right]; the record is then
    left as it was.  Otherwise the record carries the associativity the
    token spells with a precedence between 0 and 255, and the bracket
    locations are unchanged. *)
Theorem parseAttribute_error_iff_not_fixity (A : DeclAttributes) (P : Parser) :
  exists r P',
    parseAttribute A P = Ok r P' /\
    (fst r = true <->
     Token_is (Tok P) tok_identifier = false \/ isInfixAttr (Tok P) = None) /\
    (fst r = true -> snd r = A) /\
    (fst r = false ->
     exists Assoc Prec,
       isInfixAttr (Tok P) = Some Assoc /\
       snd r = mkDeclAttributes (LSquareLoc A) (RSquareLoc A)
                                (Some (mkInfixData Prec Assoc)) /\
       (0 <= Prec <= 255)%Z).
Proof.
  destruct (parseAttribute_outcome A P) as (r & P' & Hrun & Hr).
  exists r, P'. split; [exact Hrun|].
  destruct (Token_is (Tok P) tok_identifier) eqn:Hid;
    [destruct (isInfixAttr (Tok P)) as [Assoc|] eqn:Hfix|].
  - destruct Hr as (Hok & Prec & Hsnd & HPrec). rewrite Hok.
    split; [split; [discriminate | intros [H|H]; discriminate]|].
    split; [discriminate|]. intros _. exists Assoc, Prec. auto.
  - subst r. cbn [fst snd]. split; [split; auto|].
    split; [reflexivity | discriminate].
  - subst r. cbn [fst snd]. split; [split; auto|].
    split; [reflexivity | discriminate].
Qed.

(** X2.  A fixity attribute written without a precedence gets the default
    precedence 100.  When the record already carries a fixity, the new
    attribute is reported as a duplicate at its token and still replaces
    the earlier one. *)
Theorem parseAttribute_fixity_last_wins
        (A : DeclAttributes) (P : Parser) (Assoc : Associativity) :
  Token_is (Tok P) tok_identifier = true ->
  isInfixAttr (Tok P) = Some Assoc ->
  Token_is (Tok (next P)) tok_equal = false ->
  parseAttribute A P
  = Ok (false, mkDeclAttributes (LSquareLoc A) (RSquareLoc A)
                                (Some (mkInfixData 100 Assoc)))
       (next (reported
                (if isInfix A
                 then [mkDiag (getLoc (Tok P)) duplicate_attribute
                              (getText (Tok P))]
                 else []) P)).
Proof.
  intros Hid Hfix Heq. unfold parseAttribute. rewrite Hid, Hfix.
  unfold bind at 1. rewrite when_diagnoseTok_eq.
  set (P1 := reported _ P).
  rewrite (bind_eq _ _ _ _ _ (consumeTokenK_eq tok_identifier P1 Hid)).
  unfold bind at 1. rewrite consumeIf_eq.
  change (Tok (next P1)) with (Tok (next P)). rewrite Heq. reflexivity.
Qed.

(** The run of the theorem above on the second entry of
    [[infix_left = 50, infix_right]]. *)
Lemma parseAttribute_fixity_last_wins_witness :
  exists P',
    parseAttribute (mkDeclAttributes 1 0 (Some (mkInfixData 50 Assoc_Left)))
                   (Frontend.start Samples.fixityRight)
    = Ok (false, mkDeclAttributes 1 0 (Some (mkInfixData 100 Assoc_Right))) P' /\
    Diags P' = [mkDiag 1 duplicate_attribute "infix_right"] /\
    getKind (Tok P') = tok_r_square.
Proof.
  eexists. split.
  - apply (parseAttribute_fixity_last_wins
             (mkDeclAttributes 1 0 (Some (mkInfixData 50 Assoc_Left)))
             (Frontend.start Samples.fixityRight) Assoc_Right); reflexivity.
  - split; reflexivity.
Defined.

(** X3.  A fixity attribute followed by [=] and a numeric constant records
    the constant as its precedence when the constant reads as an integer
    between 0 and 255.  Any other constant is reported as an invalid
    precedence at its location and the default precedence 100 is kept.
    Either way the entry is not an error and the three tokens are
    consumed. *)
Theorem parseAttribute_precedence_value
        (A : DeclAttributes) (P : Parser) (Assoc : Associativity)
        (EqTok Num : Token) (Rest : list Token) :
  Token_is (Tok P) tok_identifier = true ->
  isInfixAttr (Tok P) = Some Assoc ->
  Lexer P = EqTok :: Num :: Rest ->
  Token_is EqTok tok_equal = true ->
  Token_is Num tok_numeric_constant = true ->
  let Value :=
    match getAsInteger (getText Num) with
    | Some V => if (V <=? 255)%Z && (0 <=? V)%Z then Some V else None
    | None => None
    end in
  parseAttribute A P
  = Ok (false,
        mkDeclAttributes (LSquareLoc A) (RSquareLoc A)
          (Some (mkInfixData match Value with Some V => V | None => 100%Z end
                             Assoc)))
       (withTok (fst (lex Rest)) (snd (lex Rest))
          (reported
             ((if isInfix A
               then [mkDiag (getLoc (Tok P)) duplicate_attribute (getText (Tok P))]
               else [])
              ++ match Value with
                 | Some _ => []
                 | None => [mkDiag (getLoc Num) invalid_precedence (getText Num)]
                 end) P)).
Proof.
  intros Hid Hfix HLx Heq Hnum Value. unfold parseAttribute. rewrite Hid, Hfix.
  unfold bind at 1. rewrite when_diagnoseTok_eq.
  set (Dup := if isInfix A then _ else _).
  set (P1 := reported Dup P).
  rewrite (bind_eq _ _ _ _ _ (consumeTokenK_eq tok_identifier P1 Hid)).
  assert (HP2 : next P1 = withTok EqTok (Num :: Rest) P1).
  { unfold next. cbn [Lexer reported withDiags P1]. rewrite HLx. reflexivity. }
  rewrite HP2. set (P2 := withTok EqTok (Num :: Rest) P1).
  unfold bind at 1. rewrite consumeIf_eq.
  change (Tok P2) with EqTok. rewrite Heq.
  change (next P2) with (withTok Num Rest P1). set (P3 := withTok Num Rest P1).
  unfold bind at 1. cbn [gets]. unfold bind at 1. cbn [gets].
  unfold bind at 1. rewrite parseToken_eq.
  change (Tok P3) with Num. rewrite Hnum. cbn [negb].
  change (next P3) with (withTok (fst (lex Rest)) (snd (lex Rest)) P1).
  subst Value. destruct (getAsInteger (getText Num)) as [V|].
  - assert (HV : (V >? 255)%Z || (V <? 0)%Z
                 = negb ((V <=? 255)%Z && (0 <=? V)%Z)).
    { rewrite Z.gtb_ltb.
      destruct (Z.ltb_spec 255 V), (Z.ltb_spec V 0), (Z.leb_spec V 255),
        (Z.leb_spec 0 V); cbn; try reflexivity; lia. }
    rewrite HV. destruct ((V <=? 255)%Z && (0 <=? V)%Z); cbn [negb].
    + rewrite app_nil_r. reflexivity.
    + unfold bind, ret. rewrite diagnose_eq.
      unfold P1. rewrite <- (reported_reported Dup). reflexivity.
  - unfold bind, ret. rewrite diagnose_eq.
    unfold P1. rewrite <- (reported_reported Dup). reflexivity.
Qed.

(** The runs of the theorem above on [infix = 300 ]] and [infix = 255 ]]. *)
Lemma parseAttribute_precedence_value_witness :
  (exists P',
      parseAttribute noAttributes (Frontend.start Samples.fixity300)
      = Ok (false, mkDeclAttributes 0 0 (Some (mkInfixData 100 Assoc_None))) P' /\
      Diags P' = [mkDiag 3 invalid_precedence "300"] /\
      getKind (Tok P') = tok_r_square) /\
  (exists P',
      parseAttribute noAttributes (Frontend.start Samples.fixity255)
      = Ok (false, mkDeclAttributes 0 0 (Some (mkInfixData 255 Assoc_None))) P' /\
      Diags P' = [] /\
      getKind (Tok P') = tok_r_square).
Proof.
  split.
  - eexists. split.
    + exact (parseAttribute_precedence_value noAttributes
               (Frontend.start Samples.fixity300) Assoc_None
               (mkToken tok_equal "=" 2) (mkToken tok_numeric_constant "300" 3)
               [mkToken tok_r_square "]" 4]
               eq_refl eq_refl eq_refl eq_refl eq_refl).
    + split; reflexivity.
  - eexists. split.
    + exact (parseAttribute_precedence_value noAttributes
               (Frontend.start Samples.fixity255) Assoc_None
               (mkToken tok_equal "=" 2) (mkToken tok_numeric_constant "255" 3)
               [mkToken tok_r_square "]" 4]
               eq_refl eq_refl eq_refl eq_refl eq_refl).
    + split; reflexivity.
Defined.

(** ** Routines that only move the cursor forward *)

Lemma movedOn_refl (P : Parser) : movedOn P P.
Proof. left. exists []. reflexivity. Qed.

Lemma movedOn_trans (P Q R : Parser) : movedOn P Q -> movedOn Q R -> movedOn P R.
Proof.
  intros [(Pre1 & H1)|H1] [(Pre2 & H2)|H2]; try (right; exact H2).
  - left. exists (Pre1 ++ Pre2). rewrite H1, H2, app_assoc. reflexivity.
  - destruct H1 as [HT HL]. unfold stream in H2. rewrite HT, HL in H2.
    destruct Pre2 as [|T [|T' Pre2]]; try discriminate.
    injection H2 as H2 H3. right. split; congruence.
Qed.

Lemma movedOn_same_stream (P P' : Parser) :
  Tok P' = Tok P -> Lexer P' = Lexer P -> movedOn P P'.
Proof. intros HT HL. left. exists []. unfold stream. rewrite HT, HL. reflexivity. Qed.

Lemma movedOn_next (P : Parser) : movedOn P (next P).
Proof.
  unfold movedOn, stream, next. destruct (Lexer P) as [|T L]; cbn.
  - right. split; reflexivity.
  - left. exists [Tok P]. reflexivity.
Qed.

Lemma movedOn_skipLoop (stop : Token -> bool) (Lx : list Token) (T : Token)
      (P : Parser) :
  Tok P = T -> Lexer P = Lx ->
  movedOn P (withTok (fst (skipLoop stop T Lx)) (snd (skipLoop stop T Lx)) P).
Proof.
  revert T P. induction Lx as [|T' Lx IH]; intros T P HT HL; cbn [skipLoop].
  - destruct (stop T); cbn [fst snd].
    + apply movedOn_same_stream; cbn; congruence.
    + right. split; reflexivity.
  - destruct (stop T); cbn [fst snd].
    + apply movedOn_same_stream; cbn; congruence.
    + eapply movedOn_trans; [apply (movedOn_next P)|].
      assert (Hn : next P = withTok T' Lx P) by (unfold next; rewrite HL; reflexivity).
      rewrite Hn. exact (IH T' (withTok T' Lx P) eq_refl eq_refl).
Qed.

Lemma forward_Ok {A} (m : M A) (P P' : Parser) (a : A) :
  forward m -> m P = Ok a P' -> movedOn P P'.
Proof. intros H E. specialize (H P). rewrite E in H. exact H. Qed.

Lemma forward_ret {A} (a : A) : forward (ret a).
Proof. intros P. apply movedOn_refl. Qed.

Lemma forward_crash {A} (F : Fault) : forward (@crash A F).
Proof. intros P. exact I. Qed.

Lemma forward_gets {A} (f : Parser -> A) : forward (gets f).
Proof. intros P. apply movedOn_refl. Qed.

Lemma forward_bind {A B} (m : M A) (k : A -> M B) :
  forward m -> (forall a, forward (k a)) -> forward (bind m k).
Proof.
  intros Hm Hk P. unfold bind. specialize (Hm P).
  destruct (m P) as [a P1|F P1]; [|exact I].
  specialize (Hk a P1). destruct (k a P1); [|exact I].
  eapply movedOn_trans; eassumption.
Qed.

Lemma forward_diagnose (Loc : SourceLoc) (d : diag) (Arg : string) :
  forward (diagnose Loc d Arg).
Proof. intros P. apply movedOn_same_stream; reflexivity. Qed.

Lemma forward_diagnoseTok (d : diag) (Arg : string) :
  forward (diagnoseTok d Arg).
Proof. intros P. apply movedOn_same_stream; reflexivity. Qed.

Lemma forward_consumeToken : forward consumeToken.
Proof. intros P. rewrite consumeToken_eq. apply movedOn_next. Qed.

Lemma forward_skipUntil (T1 : tok) : forward (skipUntil T1).
Proof.
  intros P. unfold skipUntil, modify.
  pose proof (movedOn_skipLoop (fun T => Token_is T tok_eof || Token_is T T1)
                (Lexer P) (Tok P) P eq_refl eq_refl) as H.
  destruct (skipLoop _ _ _). exact H.
Qed.

Lemma forward_skipUntil2 (T1 T2 : tok) : forward (skipUntil2 T1 T2).
Proof.
  intros P. unfold skipUntil2, modify.
  pose proof (movedOn_skipLoop
                (fun T => Token_is T tok_eof || Token_is T T1 || Token_is T T2)
                (Lexer P) (Tok P) P eq_refl eq_refl) as H.
  destruct (skipLoop _ _ _). exact H.
Qed.

Lemma forward_assert (b : bool) : forward (assert_ b).
Proof. destruct b; [apply forward_ret | apply forward_crash]. Qed.

Lemma forward_when (b : bool) (m : M unit) : forward m -> forward (when_ b m).
Proof. destruct b; [auto | intros _; apply forward_ret]. Qed.

Create HintDb forward.
#[local] Hint Resolve forward_ret forward_crash forward_gets forward_diagnose
  forward_diagnoseTok forward_consumeToken forward_skipUntil forward_skipUntil2
  forward_assert forward_when : forward.

(** Splits a monadic term into its steps and closes the primitive ones. *)
Ltac forward :=
  repeat first
    [ solve [auto with forward]
    | apply forward_bind; [|intros ?]
    | apply forward_when
    | match goal with
      | |- forward (if ?b then _ else _) => destruct b
      | |- forward (match ?x with _ => _ end) => destruct x
      end ].

(** Closes the goal of a routine run at a given state. *)
Ltac forward_at :=
  match goal with
  | |- match ?m ?P with Ok _ _ => _ | Crash _ _ => _ end =>
      let H := fresh in assert (H : forward m) by forward; exact (H P)
  end.

Lemma forward_curTokIs (K : tok) : forward (curTokIs K).
Proof. unfold curTokIs. forward. Qed.
#[local] Hint Resolve forward_curTokIs : forward.

Lemma forward_tokLoc : forward tokLoc.
Proof. unfold tokLoc. forward. Qed.
#[local] Hint Resolve forward_tokLoc : forward.

Lemma forward_consumeTokenK (K : tok) : forward (consumeTokenK K).
Proof. unfold consumeTokenK. forward. Qed.
#[local] Hint Resolve forward_consumeTokenK : forward.

Lemma forward_consumeIf (K : tok) : forward (consumeIf K).
Proof. unfold consumeIf. forward. Qed.
#[local] Hint Resolve forward_consumeIf : forward.

Lemma forward_parseTokenLoc (K : tok) (D : diag) : forward (parseTokenLoc K D).
Proof. unfold parseTokenLoc. forward. Qed.
#[local] Hint Resolve forward_parseTokenLoc : forward.

Lemma forward_parseToken (K : tok) (D : diag) : forward (parseToken K D).
Proof. unfold parseToken. forward. Qed.
#[local] Hint Resolve forward_parseToken : forward.

Lemma forward_parseMatchingToken (K : tok) (D : diag) (Loc : SourceLoc)
      (Note : diag) : forward (parseMatchingToken K D Loc Note).
Proof. unfold parseMatchingToken. forward. Qed.
#[local] Hint Resolve forward_parseMatchingToken : forward.

Lemma forward_parseIdentifier (D : diag) (Arg : string) :
  forward (parseIdentifier D Arg).
Proof.
  intros P. unfold parseIdentifier.
  destruct (Token_is (Tok P) tok_identifier || Token_is (Tok P) tok_oper);
    forward_at.
Qed.
#[local] Hint Resolve forward_parseIdentifier : forward.

Lemma forward_parseAttribute (A : DeclAttributes) : forward (parseAttribute A).
Proof.
  intros P. unfold parseAttribute.
  destruct (if Token_is (Tok P) tok_identifier then isInfixAttr (Tok P) else None);
    forward_at.
Qed.
#[local] Hint Resolve forward_parseAttribute : forward.

Lemma forward_parseAttributeLoop (n : nat) :
  forall HadError A, forward (parseAttributeLoop n HadError A).
Proof.
  induction n as [|n IH]; intros HadError A P; cbn [parseAttributeLoop];
    destruct (Token_is (Tok P) tok_comma); try exact I; try apply movedOn_refl.
  assert (H : forward (consumeTokenK tok_comma ;;;
                       r <- parseAttribute A ;;
                       parseAttributeLoop n (HadError || fst r) (snd r)))
    by (forward; apply IH).
  exact (H P).
Qed.
#[local] Hint Resolve forward_parseAttributeLoop : forward.

(** ** The attribute list as a whole *)

Lemma parseAttribute_keeps (A : DeclAttributes) (P : Parser) :
  exists r P',
    parseAttribute A P = Ok r P' /\
    (precedenceInRange A -> precedenceInRange (snd r)) /\
    LSquareLoc (snd r) = LSquareLoc A /\ RSquareLoc (snd r) = RSquareLoc A.
Proof.
  destruct (parseAttribute_outcome A P) as (r & P' & Hrun & Hr).
  exists r, P'. split; [exact Hrun|].
  destruct (if Token_is (Tok P) tok_identifier then isInfixAttr (Tok P) else None).
  - destruct Hr as (_ & Prec & -> & HPrec). repeat split; apply HPrec.
  - subst r. repeat split. auto.
Qed.

(** The comma loop of an attribute list, given one unit of fuel per token
    left, returns at a token that is not a comma. *)
Lemma parseAttributeLoop_returns (n : nat) :
  forall (HadError : bool) (A : DeclAttributes) (P : Parser),
    tokensLeft P <= n ->
    exists r P',
      parseAttributeLoop n HadError A P = Ok r P' /\
      (precedenceInRange A -> precedenceInRange (snd r)) /\
      LSquareLoc (snd r) = LSquareLoc A /\ RSquareLoc (snd r) = RSquareLoc A /\
      Token_is (Tok P') tok_comma = false.
Proof.
  induction n as [|n IH]; intros HadError A P Hn;
    cbn [parseAttributeLoop];
    destruct (Token_is (Tok P) tok_comma) eqn:Hcomma;
    try solve [exists (HadError, A), P; repeat split; auto].
  - unfold tokensLeft in Hn.
    rewrite (Token_is_excl _ _ tok_eof Hcomma) in Hn by discriminate. lia.
  - assert (Heof : Token_is (Tok P) tok_eof = false)
      by (apply (Token_is_excl _ _ tok_eof Hcomma); discriminate).
    rewrite (bind_eq _ _ _ _ _ (consumeTokenK_eq _ _ Hcomma)).
    pose proof (consumeToken_decreases P _ _ Heof (consumeToken_eq P)) as Hdec.
    destruct (parseAttribute_keeps A (next P)) as (r & P2 & Hrun & Hr & HL & HR).
    pose proof (advances_Ok _ _ _ _ (advances_parseAttribute A) Hrun) as Hle.
    rewrite (bind_eq _ _ _ _ _ Hrun).
    destruct (IH (HadError || fst r) (snd r) P2 ltac:(lia))
      as (r' & P' & Hrun' & Hr' & HL' & HR' & Hstop).
    exists r', P'. repeat split; try assumption; try congruence. auto.
Qed.

(** Consuming a closing bracket reached by moving forward leaves the
    cursor just behind a closing bracket of the stream, or at its end. *)
Lemma movedOn_past_bracket (P Q : Parser) :
  movedOn P Q -> Token_is (Tok Q) tok_r_square = true ->
  Token_is (Tok (next Q)) tok_eof = true \/
  exists Pre T, stream P = Pre ++ T :: stream (next Q) /\
                Token_is T tok_r_square = true.
Proof.
  intros [(Pre & HPre)|[HT _]] Hsq; [|rewrite HT in Hsq; discriminate].
  unfold next, stream in *. destruct (Lexer Q) as [|T' L]; cbn.
  - left. reflexivity.
  - right. exists Pre, (Tok Q). split; assumption.
Qed.

Lemma parseAttributeListPresent_returns (A : DeclAttributes) (P : Parser) :
  Token_is (Tok P) tok_l_square = true ->
  exists A' P',
    parseAttributeListPresent A P = Ok A' P' /\
    (precedenceInRange A -> precedenceInRange A') /\
    LSquareLoc A' = getLoc (Tok P) /\
    (Token_is (Tok P') tok_eof = true \/
     exists Pre T, stream P = Pre ++ T :: stream P' /\
                   Token_is T tok_r_square = true).
Proof.
  intros Hsq. unfold parseAttributeListPresent.
  rewrite (bind_eq _ _ _ _ _ (consumeTokenK_eq _ _ Hsq)).
  pose proof (movedOn_next P) as HP1. set (P1 := next P) in *.
  unfold bind at 1. cbn [curTokIs gets].
  destruct (Token_is (Tok P1) tok_r_square) eqn:Hempty.
  - rewrite (bind_eq _ _ _ _ _ (consumeTokenK_eq _ _ Hempty)).
    do 2 eexists. split; [reflexivity|]. split; [auto|].
    split; [reflexivity|]. apply movedOn_past_bracket; assumption.
  - set (A1 := mkDeclAttributes (getLoc (Tok P)) (RSquareLoc A) (Infix A)).
    destruct (parseAttribute_keeps A1 P1) as (r & P2 & Hrun & Hr & HL & _).
    pose proof (forward_Ok _ _ _ _ (forward_parseAttribute A1) Hrun) as HP2.
    rewrite (bind_eq _ _ _ _ _ Hrun).
    unfold bind at 1. cbn [gets].
    destruct (parseAttributeLoop_returns (S (length (Lexer P2))) (fst r) (snd r)
                P2 (tokensLeft_bound P2))
      as (r' & P3 & Hloop & Hr' & HL' & _ & _).
    pose proof (forward_Ok _ _ _ _ (forward_parseAttributeLoop _ _ _) Hloop)
      as HP3.
    rewrite (bind_eq _ _ _ _ _ Hloop).
    unfold bind at 1. cbn [gets].
    set (A3 := mkDeclAttributes (LSquareLoc (snd r')) (getLoc (Tok P3))
                                (Infix (snd r'))).
    assert (H13 : movedOn P P3).
    { eapply movedOn_trans; [exact HP1|].
      eapply movedOn_trans; [exact HP2 | exact HP3]. }
    assert (Hfinal : exists P',
              (closed <- consumeIf tok_r_square ;;
               if closed then ret A3
               else
                 when_ (negb (fst r'))
                       (parseMatchingToken tok_r_square expected_in_attribute_list
                          (LSquareLoc A3) opening_bracket ;;; ret tt) ;;;
                 skipUntil tok_r_square ;;;
                 consumeIf tok_r_square ;;;
                 ret A3) P3 = Ok A3 P' /\
              (Token_is (Tok P') tok_eof = true \/
               exists Pre T, stream P = Pre ++ T :: stream P' /\
                             Token_is T tok_r_square = true)).
    { unfold bind at 1. rewrite consumeIf_eq.
      destruct (Token_is (Tok P3) tok_r_square) eqn:Hclosed.
      { eexists. split; [reflexivity|].
        apply movedOn_past_bracket; assumption. }
      assert (H5 : forward
                (when_ (negb (fst r'))
                   (parseMatchingToken tok_r_square expected_in_attribute_list
                      (LSquareLoc A3) opening_bracket ;;; ret tt))) by forward.
      assert (R5 : returns
                (when_ (negb (fst r'))
                   (parseMatchingToken tok_r_square expected_in_attribute_list
                      (LSquareLoc A3) opening_bracket ;;; ret tt))) by returns.
      destruct (R5 P3) as (u5 & P5 & E5).
      pose proof (forward_Ok _ _ _ _ H5 E5) as HP5.
      rewrite (bind_eq _ _ _ _ _ E5).
      destruct (returns_skipUntil tok_r_square P5) as (u6 & P6 & E6).
      pose proof (forward_Ok _ _ _ _ (forward_skipUntil _) E6) as HP6.
      assert (Hstop : Token_is (Tok P6) tok_eof || Token_is (Tok P6) tok_r_square
                      = true).
      { unfold skipUntil, modify in E6.
        pose proof (skipLoop_stops
                      (fun T => Token_is T tok_eof || Token_is T tok_r_square)
                      (Lexer P5) (Tok P5) eq_refl) as Hs.
        destruct (skipLoop _ (Tok P5) (Lexer P5)) as [T6 L6].
        injection E6 as _ <-. exact Hs. }
      rewrite (bind_eq _ _ _ _ _ E6).
      unfold bind at 1. rewrite consumeIf_eq.
      assert (H16 : movedOn P P6).
      { eapply movedOn_trans; [exact H13|].
        eapply movedOn_trans; [exact HP5 | exact HP6]. }
      destruct (Token_is (Tok P6) tok_r_square) eqn:Hsq6.
      - eexists. split; [reflexivity|].
        apply movedOn_past_bracket; assumption.
      - eexists. split; [reflexivity|]. left.
        rewrite orb_false_r in Hstop. exact Hstop. }
    destruct Hfinal as (P' & Hfinal & Hpos).
    exists A3, P'. split; [exact Hfinal|].
    split; [auto|]. split; [|exact Hpos].
    cbn. rewrite HL', HL. reflexivity.
Qed.

Lemma parseAttributeList_absent (A : DeclAttributes) (P : Parser) :
  Token_is (Tok P) tok_l_square = false -> parseAttributeList A P = Ok A P.
Proof.
  intros H. unfold parseAttributeList. unfold bind at 1. cbn [curTokIs gets].
  rewrite H. reflexivity.
Qed.

(** Parsing an attribute list always returns; it moves the cursor forward
    and reports diagnostics, nothing else. *)
Lemma parseAttributeList_total (A : DeclAttributes) (P : Parser) :
  exists A' P',
    parseAttributeList A P = Ok A' P' /\
    (precedenceInRange A -> precedenceInRange A') /\
    sameAST P P' /\
    tokensLeft P' <= tokensLeft P /\
    (Token_is (Tok P) tok_l_square = false -> A' = A /\ P' = P).
Proof.
  assert (Hrun : exists A' P',
             parseAttributeList A P = Ok A' P' /\
             (precedenceInRange A -> precedenceInRange A') /\
             (Token_is (Tok P) tok_l_square = false -> A' = A /\ P' = P)).
  { destruct (Token_is (Tok P) tok_l_square) eqn:Hsq.
    - unfold parseAttributeList. unfold bind at 1. cbn [curTokIs gets].
      rewrite Hsq.
      destruct (parseAttributeListPresent_returns A P Hsq)
        as (A' & P' & Hrun & HA' & _).
      exists A', P'. repeat split; [exact Hrun | auto | discriminate | discriminate].
    - exists A, P. rewrite (parseAttributeList_absent A P Hsq). auto. }
  destruct Hrun as (A' & P' & Hrun & HA' & Hno).
  exists A', P'. split; [exact Hrun|]. split; [exact HA'|].
  split; [|split; [|exact Hno]].
  - exact (tokensOnly_Ok _ _ _ _ (tokensOnly_parseAttributeList A) Hrun).
  - exact (advances_Ok _ _ _ _ (advances_parseAttributeList A) Hrun).
Qed.

(** X4.  Parsing an attribute list always returns.  It changes nothing but
    the token cursor and the diagnostics, it never gives a token back, a
    precedence it records lies between 0 and 255, and when the current
    token is not an opening square bracket it does nothing at all. *)
Theorem parseAttributeList_returns_in_range (A : DeclAttributes) (P : Parser) :
  precedenceInRange A ->
  exists A' P',
    parseAttributeList A P = Ok A' P' /\
    precedenceInRange A' /\
    sameAST P P' /\
    tokensLeft P' <= tokensLeft P /\
    (Token_is (Tok P) tok_l_square = false -> A' = A /\ P' = P).
Proof.
  intros HA.
  destruct (parseAttributeList_total A P) as (A' & P' & Hrun & HA' & Hrest).
  exists A', P'. auto.
Qed.

(** The run of the theorem above on [[infix_left = foo, infix_right] x],
    entered with a record that already carries precedence 50. *)
Lemma parseAttributeList_returns_in_range_witness :
  exists A' P',
    parseAttributeList (mkDeclAttributes 0 0 (Some (mkInfixData 50 Assoc_Left)))
      (Frontend.start Frontend.attrsBadPrecedence) = Ok A' P' /\
    precedenceInRange A'.
Proof.
  destruct (parseAttributeList_returns_in_range
              (mkDeclAttributes 0 0 (Some (mkInfixData 50 Assoc_Left)))
              (Frontend.start Frontend.attrsBadPrecedence))
    as (A' & P' & Hrun & HA' & _).
  - unfold precedenceInRange. simpl. lia.
  - exists A', P'. split; assumption.
Defined.

(** X5.  Entered on an opening square bracket, [parseAttributeListPresent]
    always returns, whatever the entries of the list are, and it leaves
    the cursor just behind a closing square bracket of the token stream
    or at the end of the file; the location of the opening bracket is
    recorded. *)
Theorem parseAttributeListPresent_resynchronizes
        (A : DeclAttributes) (P : Parser) :
  Token_is (Tok P) tok_l_square = true ->
  exists A' P',
    parseAttributeListPresent A P = Ok A' P' /\
    LSquareLoc A' = getLoc (Tok P) /\
    (Token_is (Tok P') tok_eof = true \/
     exists Pre T, stream P = Pre ++ T :: stream P' /\
                   Token_is T tok_r_square = true).
Proof.
  intros Hsq.
  destruct (parseAttributeListPresent_returns A P Hsq)
    as (A' & P' & Hrun & _ & HL & Hpos).
  exists A', P'. auto.
Qed.

(** The run of the theorem above on [[foo, infix_left] x]: the cursor ends
    on [x], just behind the closing bracket. *)
Lemma parseAttributeListPresent_resynchronizes_witness :
  exists A' P',
    parseAttributeListPresent noAttributes
      (Frontend.start Frontend.attrsUnknownFirst) = Ok A' P' /\
    LSquareLoc A' = 1 /\ getText (Tok P') = "x".
Proof.
  destruct (parseAttributeListPresent_resynchronizes noAttributes
              (Frontend.start Frontend.attrsUnknownFirst) eq_refl)
    as (A' & P' & Hrun & HL & _).
  exists A', P'. split; [exact Hrun|]. split; [exact HL|].
  vm_compute in Hrun. injection Hrun as _ <-. reflexivity.
Defined.


(** ** Import declarations *)

Lemma cursorAt_self (P : Parser) (Ts : list Token) :
  (Tok P, Lexer P) = lex Ts -> cursorAt Ts P = P.
Proof.
  unfold cursorAt. intros <-. destruct P. reflexivity.
Qed.

Lemma cursorAt_cursorAt (Ts Ts' : list Token) (P : Parser) :
  cursorAt Ts (cursorAt Ts' P) = cursorAt Ts P.
Proof. reflexivity. Qed.

Lemma next_cursorAt (T : Token) (Ts : list Token) (P : Parser) :
  next (cursorAt (T :: Ts) P) = cursorAt Ts P.
Proof. reflexivity. Qed.

(** The path loop of an import reads a dotted path back, component by
    component. *)
Lemma parseImportPath_dotted (Ids : list (Identifier * SourceLoc)) :
  forall (n : nat) (Path : list (Identifier * SourceLoc)) (Rest : list Token)
         (P : Parser),
    Token_is (fst (lex Rest)) tok_period = false ->
    length Ids <= n ->
    parseImportPath n Path (cursorAt (dottedPath Ids ++ Rest) P)
    = Ok (Some (Path ++ Ids)) (cursorAt Rest P).
Proof.
  induction Ids as [|[Id Loc] Ids IH]; intros n Path Rest P HRest Hn.
  - cbn [dottedPath app]. rewrite app_nil_r.
    destruct n; cbn [parseImportPath];
      change (Tok (cursorAt Rest P)) with (fst (lex Rest)); rewrite HRest;
      reflexivity.
  - destruct n as [|n]; [cbn in Hn; lia|].
    cbn [dottedPath app parseImportPath].
    change (Token_is (Tok (cursorAt _ P)) tok_period) with true. cbv iota.
    unfold bind at 1. rewrite consumeToken_eq, next_cursorAt.
    unfold bind at 1. cbn [tokLoc gets].
    unfold bind at 1. rewrite parseIdentifier_eq.
    change (Token_is (Tok (cursorAt _ P)) tok_identifier) with true.
    cbn [orb]. rewrite next_cursorAt.
    change (getText (Tok (cursorAt _ P))) with Id.
    change (getLoc (Tok (cursorAt _ P))) with Loc.
    rewrite (IH n (Path ++ [(Id, Loc)]) Rest P HRest) by (cbn in Hn; lia).
    rewrite <- app_assoc. reflexivity.
Qed.

(** X6.  An import of a dotted path [import a.b.c] is read back as written:
    the declaration carries the components of the path in order, each with
    the location of its identifier, it is created at the location of the
    keyword in the current declaration context, nothing is reported, the
    scope is left alone and the cursor stops at the first token that is
    not part of the path. *)
Theorem parseDeclImport_path_round_trip
        (P : Parser) (Id : Identifier) (Loc : SourceLoc)
        (Ids : list (Identifier * SourceLoc)) (Rest : list Token) :
  Token_is (Tok P) kw_import = true ->
  Lexer P = mkToken tok_identifier Id Loc :: dottedPath Ids ++ Rest ->
  Token_is (fst (lex Rest)) tok_period = false ->
  parseDeclImport P
  = Ok (Some (length (DeclArena P)))
       (withDeclArena
          (DeclArena P
           ++ [mkDecl (ImportDecl ((Id, Loc) :: Ids)) (getLoc (Tok P))
                      (CurDeclContext P)])
          (cursorAt Rest P)).
Proof.
  intros Himport HLx HRest. unfold parseDeclImport.
  rewrite (bind_eq _ _ _ _ _ (consumeTokenK_eq _ _ Himport)).
  assert (HP1 : next P
                = cursorAt (mkToken tok_identifier Id Loc :: dottedPath Ids ++ Rest) P).
  { unfold next, cursorAt. rewrite HLx. reflexivity. }
  rewrite HP1.
  set (P1 := cursorAt _ P).
  rewrite (bind_eq _ _ _ _ _ (parseAttributeList_absent noAttributes P1 eq_refl)).
  unfold bind at 1. cbn [tokLoc gets].
  unfold bind at 1. rewrite parseIdentifier_eq. subst P1.
  change (Token_is (Tok (cursorAt _ P)) tok_identifier) with true.
  cbn [orb]. rewrite next_cursorAt.
  unfold bind at 1. cbn [gets].
  unfold bind at 1.
  change (getText (Tok (cursorAt _ P))) with Id.
  change (getLoc (Tok (cursorAt (mkToken tok_identifier Id Loc :: _) P)))
    with Loc.
  rewrite (parseImportPath_dotted Ids _ [(Id, Loc)] Rest P HRest).
  - reflexivity.
  - change (Lexer (cursorAt (dottedPath Ids ++ Rest) P))
      with (snd (lex (dottedPath Ids ++ Rest))).
    destruct Ids as [|[Id' Loc'] Ids]; cbn [length]; [lia|].
    cbn [dottedPath app lex snd length]. rewrite length_app.
    clear. induction Ids as [|[? ?] Ids IH]; cbn [dottedPath length]; lia.
Qed.

(** The run of the theorem above on [import a.b.c] followed by [var]. *)
Lemma parseDeclImport_path_round_trip_witness :
  exists P',
    parseDeclImport
      (cursorAt (mkToken kw_import "import" 1 :: mkToken tok_identifier "a" 2
                 :: dottedPath [("b", 4); ("c", 6)] ++ [mkToken kw_var "var" 7])
                (Frontend.start []))
    = Ok (Some 0) P' /\
    getDecl P' 0
    = Some (mkDecl (ImportDecl [("a", 2); ("b", 4); ("c", 6)]) 1
                   DC_TranslationUnit) /\
    getKind (Tok P') = kw_var /\ Diags P' = [].
Proof.
  eexists. split.
  - exact (parseDeclImport_path_round_trip
             (cursorAt (mkToken kw_import "import" 1
                        :: mkToken tok_identifier "a" 2
                        :: dottedPath [("b", 4); ("c", 6)]
                        ++ [mkToken kw_var "var" 7])
                       (Frontend.start []))
             "a" 2 [("b", 4); ("c", 6)]
             [mkToken kw_var "var" 7] eq_refl eq_refl eq_refl).
  - repeat split; reflexivity.
Defined.

(** The path loop of an import, given one unit of fuel per token left,
    returns, and it only extends the path it was given. *)
Lemma parseImportPath_returns (n : nat) :
  forall (Path : list (Identifier * SourceLoc)) (P : Parser),
    tokensLeft P <= n ->
    exists r P',
      parseImportPath n Path P = Ok r P' /\ sameAST P P' /\
      match r with
      | Some Path' =>
          (exists More, Path' = Path ++ More) /\
          Token_is (Tok P') tok_period = false
      | None =>
          Token_is (Tok P') tok_identifier || Token_is (Tok P') tok_oper = false
      end.
Proof.
  induction n as [|n IH]; intros Path P Hn; cbn [parseImportPath];
    destruct (Token_is (Tok P) tok_period) eqn:Hperiod;
    try solve [exists (Some Path), P; repeat split;
               [exists []; rewrite app_nil_r; reflexivity | assumption]].
  - unfold tokensLeft in Hn.
    rewrite (Token_is_excl _ _ tok_eof Hperiod) in Hn by discriminate. lia.
  - assert (Heof : Token_is (Tok P) tok_eof = false)
      by (apply (Token_is_excl _ _ tok_eof Hperiod); discriminate).
    pose proof (consumeToken_decreases P _ _ Heof (consumeToken_eq P)) as Hdec.
    unfold bind at 1. rewrite consumeToken_eq.
    unfold bind at 1. cbn [tokLoc gets].
    unfold bind at 1. rewrite parseIdentifier_eq.
    destruct (Token_is (Tok (next P)) tok_identifier
              || Token_is (Tok (next P)) tok_oper) eqn:Hid.
    + pose proof (consumeToken_eq (next P)) as Hc.
      pose proof (advances_Ok _ _ _ _ advances_consumeToken Hc) as Hle.
      destruct (IH (Path ++ [(getText (Tok (next P)), getLoc (Tok (next P)))])
                   (next (next P)) ltac:(lia))
        as (r & P' & Hrun & Hsame & Hr).
      exists r, P'. split; [exact Hrun|]. split.
      { eapply sameAST_trans; [|exact Hsame]. repeat split. }
      destruct r as [Path'|]; [|exact Hr].
      destruct Hr as ((More & ->) & Hstop). split; [|exact Hstop].
      rewrite <- app_assoc. eauto.
    + exists None. eexists. split; [reflexivity|]. split; [repeat split|].
      exact Hid.
Qed.

(** X7.  Entered on the keyword [import], [parseDeclImport] always returns
    and never touches the scope registry.  When it answers with a null
    declaration, nothing has been added to the AST and the cursor stands on
    the token that should have been an identifier: no token is skipped.
    Otherwise exactly one declaration has been created: an import with a
    non-empty path, at the location of the keyword, in the current
    declaration context. *)
Theorem parseDeclImport_outcome (P : Parser) :
  Token_is (Tok P) kw_import = true ->
  exists r P',
    parseDeclImport P = Ok r P' /\
    ScopeInfo P' = ScopeInfo P /\
    CurDeclContext P' = CurDeclContext P /\
    match r with
    | None =>
        sameAST P P' /\
        Token_is (Tok P') tok_identifier || Token_is (Tok P') tok_oper = false
    | Some D =>
        D = length (DeclArena P) /\
        exists Path,
          Path <> [] /\
          DeclArena P'
          = DeclArena P
            ++ [mkDecl (ImportDecl Path) (getLoc (Tok P)) (CurDeclContext P)]
    end.
Proof.
  intros Himport. unfold parseDeclImport.
  rewrite (bind_eq _ _ _ _ _ (consumeTokenK_eq _ _ Himport)).
  destruct (parseAttributeList_total noAttributes (next P))
    as (A & P2 & E2 & _ & H2 & _).
  rewrite (bind_eq _ _ _ _ _ E2).
  assert (H02 : sameAST P P2).
  { eapply sameAST_trans; [|exact H2]. repeat split. }
  unfold bind at 1. cbn [tokLoc gets].
  unfold bind at 1. rewrite parseIdentifier_eq.
  destruct (Token_is (Tok P2) tok_identifier || Token_is (Tok P2) tok_oper)
    eqn:Hid.
  - unfold bind at 1. cbn [gets].
    destruct (parseImportPath_returns (S (length (Lexer (next P2))))
                [(getText (Tok P2), getLoc (Tok P2))] (next P2)
                (tokensLeft_bound _))
      as (r & P3 & E3 & H3 & Hr).
    rewrite (bind_eq _ _ _ _ _ E3).
    assert (H03 : sameAST P P3).
    { eapply sameAST_trans; [exact H02|].
      eapply sameAST_trans; [|exact H3]. repeat split. }
    pose proof H03 as (HA & _ & _ & _ & _ & HS & HC).
    destruct r as [Path|].
    + unfold bind at 1. rewrite when_diagnose.
      unfold bind at 1. cbn [gets].
      unfold bind at 1. cbn [allocDecl].
      do 2 eexists. split; [reflexivity|].
      cbn [ScopeInfo CurDeclContext DeclArena withDeclArena withDiags].
      split; [exact HS|]. split; [exact HC|].
      split; [congruence|].
      exists Path. split.
      * destruct Hr as ((More & ->) & _). discriminate.
      * rewrite HA, HC. reflexivity.
    + do 2 eexists. split; [reflexivity|].
      split; [exact HS|]. split; [exact HC|].
      split; [|exact Hr].
      eapply sameAST_trans; [exact H02|].
      eapply sameAST_trans; [|exact H3]. repeat split.
  - do 2 eexists. split; [reflexivity|].
    destruct H02 as (HA & HO & HPt & HF & HN & HS & HC).
    cbn [ScopeInfo CurDeclContext reported withDiags].
    split; [exact HS|]. split; [exact HC|].
    split; [repeat split; assumption | exact Hid].
Qed.

(** The run of the theorem above on [import a.] followed by [var]: the
    path breaks off, nothing is created and the cursor stays on [var]. *)
Lemma parseDeclImport_outcome_witness :
  exists P',
    parseDeclImport (Frontend.start Samples.importBroken) = Ok None P' /\
    DeclArena P' = [] /\ getKind (Tok P') = kw_var.
Proof.
  destruct (parseDeclImport_outcome (Frontend.start Samples.importBroken)
              eq_refl) as (r & P' & Hrun & _ & _ & Hr).
  assert (Hres : r = None /\ getKind (Tok P') = kw_var).
  { vm_compute in Hrun. injection Hrun as <- <-. split; reflexivity. }
  destruct Hres as [-> Hk]. exists P'. split; [exact Hrun|].
  split; [|exact Hk]. destruct Hr as [(HA & _) _]. exact HA.
Defined.

(** ** Var names *)

(** The only fault of [parseVarName] is a recursion budget that is too
    small. *)
Lemma parseVarName_faults (n : nat) :
  (forall P F P', parseVarName n P = Crash F P' -> F = OutOfFuel) /\
  (forall Names P F P',
      parseVarNameElements n Names P = Crash F P' -> F = OutOfFuel).
Proof.
  induction n as [|n [IHname IHelts]];
    [split; intros; unfold parseVarName, parseVarNameElements, crash in *;
     congruence|]. split.
  - intros P F P' Hrun. cbn [parseVarName] in Hrun.
    destruct (Token_is (Tok P) tok_identifier || Token_is (Tok P) tok_oper).
    { unfold bind in Hrun. rewrite consumeToken_eq in Hrun. discriminate. }
    destruct (Token_isNot (Tok P) tok_l_paren
              && Token_isNot (Tok P) tok_l_paren_space).
    { discriminate. }
    unfold bind at 1 in Hrun. rewrite consumeToken_eq in Hrun.
    unfold bind at 1 in Hrun. cbn [gets] in Hrun.
    apply bind_Crash in Hrun as [Hrun|(r & P1 & _ & Hrun)].
    + destruct (Token_isNot (Tok (next P)) tok_r_paren);
        [eapply IHelts; exact Hrun | discriminate].
    + destruct r as [ChildNames|]; [|discriminate].
      unfold bind in Hrun.
      destruct (returns_parseMatchingToken tok_r_paren expected_rparen_var_name
                  (getLoc (Tok P)) opening_paren P1) as (m & P2 & E).
      rewrite E in Hrun. discriminate.
  - intros Names P F P' Hrun. cbn [parseVarNameElements] in Hrun.
    apply bind_Crash in Hrun as [Hrun|(r & P1 & _ & Hrun)];
      [eapply IHname; exact Hrun|].
    destruct r as [Elt|]; [|discriminate].
    unfold bind at 1 in Hrun. rewrite consumeIf_eq in Hrun.
    destruct (Token_is (Tok P1) tok_comma);
      [eapply IHelts; exact Hrun | discriminate].
Qed.

(** X8.  [parseVarName] terminates: the depth of its recursion is bounded
    by the tokens that are left, so a budget of more than two units per
    token always gives an answer.  It changes nothing but the cursor and
    the diagnostics, it never gives a token back, and a name that parses
    has used up at least one token. *)
Theorem parseVarName_progress (n : nat) (P : Parser) :
  2 * tokensLeft P < n ->
  exists r P',
    parseVarName n P = Ok r P' /\
    sameAST P P' /\
    tokensLeft P' <= tokensLeft P /\
    (r <> None -> tokensLeft P' < tokensLeft P).
Proof.
  intros Hn. pose proof (proj1 (parseVarName_fuel n) P Hn) as Hfuel.
  destruct (parseVarName n P) as [r P'|F P'] eqn:Hrun.
  - exists r, P'. split; [reflexivity|]. split; [|exact Hfuel].
    exact (tokensOnly_Ok _ _ _ _ (proj1 (tokensOnly_parseVarName n)) Hrun).
  - apply (proj1 (parseVarName_faults n)) in Hrun. contradiction.
Qed.

(** The run of the theorem above on the pattern [(a, b)] of
    [var (a, b) : (Int, Int) = (1, 2)]. *)
Lemma parseVarName_progress_witness :
  exists r P',
    parseVarName 40 (Frontend.start (tail Frontend.varAB)) = Ok r P' /\
    r <> None /\ getKind (Tok P') = tok_colon.
Proof.
  destruct (parseVarName_progress 40 (Frontend.start (tail Frontend.varAB)))
    as (r & P' & Hrun & _).
  - vm_compute. lia.
  - exists r, P'. split; [exact Hrun|].
    vm_compute in Hrun. injection Hrun as <- <-. split; [discriminate | reflexivity].
Defined.

Lemma varNameTokens_tuple (LP RP : SourceLoc) (Elts : list DeclVarName) :
  varNameTokens (VarNameTuple LP Elts RP)
  = mkToken tok_l_paren "(" LP
    :: varNameElementsTokens Elts ++ [mkToken tok_r_paren ")" RP].
Proof.
  reflexivity.
Qed.

Lemma varNameTokens_length (N : DeclVarName) : 1 <= length (varNameTokens N).
Proof. destruct N; cbn [varNameTokens length]; lia. Qed.

(** A var name is written with an identifier or an opening parenthesis
    first. *)
Lemma varNameTokens_head (N : DeclVarName) (Ts : list Token) :
  exists T Ts', varNameTokens N ++ Ts = T :: Ts' /\
                Token_is T tok_r_paren = false.
Proof.
  destruct N as [Id Loc|LP Elts RP].
  - do 2 eexists. split; reflexivity.
  - rewrite varNameTokens_tuple. do 2 eexists. split; reflexivity.
Qed.

Lemma parseVarNameElements_round_trip (Elts : list DeclVarName) :
  Forall (fun N =>
            forall n Rest P,
              2 * length (varNameTokens N) < n ->
              parseVarName n (cursorAt (varNameTokens N ++ Rest) P)
              = Ok (Some N) (cursorAt Rest P)) Elts ->
  Elts <> [] ->
  forall n Names T Rest P,
    Token_is T tok_comma = false ->
    2 * length (varNameElementsTokens Elts) + 1 < n ->
    parseVarNameElements n Names
      (cursorAt (varNameElementsTokens Elts ++ T :: Rest) P)
    = Ok (Some (Names ++ Elts)) (cursorAt (T :: Rest) P).
Proof.
  induction 1 as [|E Elts HE HElts IH]; [congruence|].
  intros _ n Names T Rest P HT Hn.
  destruct n as [|n]; [lia|].
  cbn [varNameElementsTokens parseVarNameElements] in Hn |- *.
  rewrite length_app in Hn. pose proof (varNameTokens_length E) as HlenE.
  rewrite <- app_assoc.
  rewrite (bind_eq _ _ _ _ _ (HE n _ P ltac:(lia))).
  unfold bind at 1. rewrite consumeIf_eq.
  destruct Elts as [|E' Elts].
  - cbn [app]. change (Tok (cursorAt (T :: Rest) P)) with T. rewrite HT.
    reflexivity.
  - cbn [app]. change (Token_is (Tok (cursorAt _ P)) tok_comma) with true.
    cbv iota. rewrite next_cursorAt.
    cbn [length] in Hn.
    rewrite (IH ltac:(discriminate) n (Names ++ [E]) T Rest P HT) by lia.
    rewrite <- app_assoc. reflexivity.
Qed.

Lemma parseVarName_round_trip_aux (N : DeclVarName) :
  forall n Rest P,
    2 * length (varNameTokens N) < n ->
    parseVarName n (cursorAt (varNameTokens N ++ Rest) P)
    = Ok (Some N) (cursorAt Rest P).
Proof.
  induction N as [Id Loc|LP Elts RP IH] using DeclVarName_nested_ind;
    intros n Rest P Hn; (destruct n as [|n]; [lia|]).
  - cbn [varNameTokens app parseVarName].
    change (Token_is (Tok (cursorAt _ P)) tok_identifier) with true.
    cbn [orb]. unfold bind. rewrite consumeToken_eq. reflexivity.
  - rewrite varNameTokens_tuple in Hn |- *. cbn [parseVarName app].
    change (Token_is (Tok (cursorAt _ P)) tok_identifier) with false.
    change (Token_is (Tok (cursorAt _ P)) tok_oper) with false.
    change (Token_isNot (Tok (cursorAt _ P)) tok_l_paren) with false.
    cbn [orb andb]. unfold bind at 1. rewrite consumeToken_eq, next_cursorAt.
    unfold bind at 1. cbn [gets].
    change (getLoc (Tok (cursorAt (mkToken tok_l_paren "(" LP :: _) P)))
      with LP.
    cbn [length] in Hn. rewrite length_app in Hn. cbn [length] in Hn.
    rewrite <- app_assoc. cbn [app].
    destruct Elts as [|E Elts].
    + cbn [varNameElementsTokens app].
      change (Token_isNot (Tok (cursorAt _ P)) tok_r_paren) with false.
      cbv iota. unfold bind at 1. unfold ret at 1.
      unfold bind at 1. rewrite parseMatchingToken_eq.
      change (Token_is (Tok (cursorAt _ P)) tok_r_paren) with true.
      cbv iota. rewrite next_cursorAt. reflexivity.
    + assert (Hmore : Token_isNot
                        (Tok (cursorAt (varNameElementsTokens (E :: Elts)
                                        ++ mkToken tok_r_paren ")" RP :: Rest) P))
                        tok_r_paren = true).
      { cbn [varNameElementsTokens]. rewrite <- app_assoc.
        destruct (varNameTokens_head E
                    ((match Elts with
                      | [] => []
                      | _ :: _ => mkToken tok_comma "," 0 :: varNameElementsTokens Elts
                      end) ++ mkToken tok_r_paren ")" RP :: Rest))
          as (T & Ts' & -> & HT).
        unfold Token_isNot.
        change (Tok (cursorAt (T :: Ts') P)) with T. rewrite HT. reflexivity. }
      rewrite Hmore.
      rewrite (bind_eq _ _ _ _ _
                 (parseVarNameElements_round_trip (E :: Elts) IH
                    ltac:(discriminate) n [] (mkToken tok_r_paren ")" RP) Rest P
                    eq_refl ltac:(lia))).
      cbn [app]. unfold bind at 1. rewrite parseMatchingToken_eq.
      change (Token_is (Tok (cursorAt _ P)) tok_r_paren) with true.
      cbv iota. rewrite next_cursorAt. reflexivity.
Qed.

(** X9.  [parseVarName] reads back what a var name is written with: on the
    tokens of a name (an identifier, or the elements of a pattern between
    parentheses and separated by commas, nested to any depth) it answers
    with that very name, locations included, reports nothing and leaves
    the cursor on the token that follows; a budget of more than two units
    per token of the name is enough. *)
Theorem parseVarName_round_trip
        (N : DeclVarName) (n : nat) (Rest : list Token) (P : Parser) :
  2 * length (varNameTokens N) < n ->
  parseVarName n (cursorAt (varNameTokens N ++ Rest) P)
  = Ok (Some N) (cursorAt Rest P).
Proof. apply parseVarName_round_trip_aux. Qed.

(** The run of the theorem above on the pattern [(a, (), (b, c))]. *)
Lemma parseVarName_round_trip_witness :
  parseVarName 40
    (cursorAt
       (varNameTokens
          (VarNameTuple 2 [VarNameSimple "a" 3; VarNameTuple 5 [] 6;
                           VarNameTuple 8 [VarNameSimple "b" 9;
                                           VarNameSimple "c" 11] 12] 13)
        ++ [mkToken tok_colon ":" 14])
       (Frontend.start []))
  = Ok (Some (VarNameTuple 2 [VarNameSimple "a" 3; VarNameTuple 5 [] 6;
                              VarNameTuple 8 [VarNameSimple "b" 9;
                                              VarNameSimple "c" 11] 12] 13))
       (cursorAt [mkToken tok_colon ":" 14] (Frontend.start [])).
Proof.
  apply (parseVarName_round_trip
           (VarNameTuple 2 [VarNameSimple "a" 3; VarNameTuple 5 [] 6;
                            VarNameTuple 8 [VarNameSimple "b" 9;
                                            VarNameSimple "c" 11] 12] 13)
           40 [mkToken tok_colon ":" 14] (Frontend.start [])).
  vm_compute. lia.
Defined.

(** ** Var declarations with a simple name *)

Section VarDeclSimple.

Context {ext : Collaborators}.

(** X10.  A var declaration with a simple name, once its name and its value
    specifier have parsed, yields exactly one declaration: the [VarDecl],
    created at the location of the keyword in the current declaration
    context with the declared type (the dependent type when none is
    written), and bound under its name in the current scope only after
    the value specifier has been parsed.  [parseDeclVarSimple] accepts it
    and reports nothing. *)
Theorem parseDeclVarSimple_accepts_simple_name
        (n : nat) (Decls : list (option DeclId)) (P Q1 Q2 Q Q' : Parser)
        (VarLoc Loc : SourceLoc) (Attributes : DeclAttributes)
        (Id : Identifier) (T : Type_) (Init : option Expr) :
  consumeTokenK kw_var P = Ok VarLoc Q1 ->
  parseAttributeList noAttributes Q1 = Ok Attributes Q2 ->
  parseVarName n Q2 = Ok (Some (VarNameSimple Id Loc)) Q ->
  parseValueSpecifier false Q = Ok (Some (T, Init)) Q' ->
  let Ty := match T with Some Ty => Ty | None => DependentType end in
  let VD := length (DeclArena Q') in
  exists P',
    parseDeclVar n Decls P = Ok (false, Decls ++ [Some VD]) P' /\
    parseDeclVarSimple n P = Ok (Some VD) P' /\
    ScopeInfo Q = ScopeInfo P /\
    DeclArena P'
    = DeclArena Q'
      ++ [mkDecl (VarDecl Id None Ty Init Attributes) VarLoc (CurDeclContext Q')] /\
    currentFrame P' = (Id, VD) :: currentFrame Q' /\
    Diags P' = Diags Q'.
Proof.
  intros E1 E2 E3 E4 Ty VD.
  assert (Hvar : forall Decls0,
             parseDeclVar n Decls0 P
             = Ok (false, Decls0 ++ [Some VD])
                  (withScopeInfo
                     (mkScopeInfo
                        (insertInnermost Id VD (Frames (ScopeInfo Q')))
                        (UnresolvedTypeList (ScopeInfo Q'))
                        (UnresolvedScopedTypeList (ScopeInfo Q')))
                     (withDeclArena
                        (DeclArena Q'
                         ++ [mkDecl (VarDecl Id None Ty Init Attributes) VarLoc
                                    (CurDeclContext Q')]) Q'))).
  { intros Decls0. unfold parseDeclVar.
    rewrite (bind_eq _ _ _ _ _ E1), (bind_eq _ _ _ _ _ E2),
      (bind_eq _ _ _ _ _ E3), (bind_eq _ _ _ _ _ E4).
    unfold bind at 1. cbn [gets]. unfold bind at 1. cbn [allocDecl].
    unfold bind at 1. rewrite addToScope_spec. unfold ret. do 3 f_equal.
    unfold getName, getDecl. cbn [DeclArena withDeclArena].
    rewrite list_lookup_middle by reflexivity. reflexivity. }
  eexists. split; [apply Hvar|]. split; [|split; [|split; [|split]]].
  - unfold parseDeclVarSimple. unfold bind at 1. cbn [tokLoc gets].
    rewrite (bind_eq _ _ _ _ _ (Hvar [])). cbn [fst snd app].
    unfold isaVarDecl, getDecl. cbn [DeclArena withDeclArena withScopeInfo].
    rewrite list_lookup_middle by reflexivity. reflexivity.
  - pose proof (tokensOnly_Ok _ _ _ _ (tokensOnly_consumeTokenK _) E1) as H1.
    pose proof (tokensOnly_Ok _ _ _ _ (tokensOnly_parseAttributeList _) E2) as H2.
    pose proof (tokensOnly_Ok _ _ _ _ (proj1 (tokensOnly_parseVarName n)) E3) as H3.
    destruct H1 as (_&_&_&_&_&H1&_), H2 as (_&_&_&_&_&H2&_),
      H3 as (_&_&_&_&_&H3&_). congruence.
  - reflexivity.
  - unfold currentFrame. cbn [ScopeInfo withScopeInfo withDeclArena Frames].
    destruct (Frames (ScopeInfo Q')); reflexivity.
  - reflexivity.
Qed.

End VarDeclSimple.

(** The run of the theorem above on [var x : Int = 1]: with [Int] the
    alias 0, the variable [x] is declaration 1 and is bound in scope. *)
Lemma parseDeclVarSimple_accepts_simple_name_witness :
  exists P',
    @parseDeclVarSimple Frontend.collaborators 4 (Frontend.start Samples.varX)
    = Ok (Some 1) P' /\
    currentFrame P' = [("x", 1); ("Int", 0)] /\
    Diags P' = [].
Proof.
  pose (Q1 := stateOf (consumeTokenK kw_var (Frontend.start Samples.varX))).
  pose (Q2 := stateOf (parseAttributeList noAttributes Q1)).
  pose (Q := stateOf (parseVarName 4 Q2)).
  pose (Q' := stateOf (@parseValueSpecifier Frontend.collaborators false Q)).
  assert (E1 : consumeTokenK kw_var (Frontend.start Samples.varX) = Ok 1 Q1)
    by (vm_compute; reflexivity).
  assert (E2 : parseAttributeList noAttributes Q1 = Ok noAttributes Q2)
    by (vm_compute; reflexivity).
  assert (E3 : parseVarName 4 Q2 = Ok (Some (VarNameSimple "x" 2)) Q)
    by (vm_compute; reflexivity).
  assert (E4 : @parseValueSpecifier Frontend.collaborators false Q
               = Ok (Some (Some (NameAliasType 0), Some (mkExpr 0))) Q')
    by (vm_compute; reflexivity).
  destruct (@parseDeclVarSimple_accepts_simple_name Frontend.collaborators
              4 [] _ _ _ _ _ _ _ _ _ _ _ E1 E2 E3 E4)
    as (P' & _ & Hrun & _ & _ & HF & HD).
  exists P'. split; [exact Hrun|]. split.
  - rewrite HF. vm_compute. reflexivity.
  - rewrite HD. vm_compute. reflexivity.
Defined.

(** ** What the dispatcher appends *)

Lemma last_present (l : list (option DeclId)) :
  Forall (fun D : option DeclId => D <> None) l -> l <> [] ->
  exists d, last l = Some (Some d).
Proof.
  intros Hl Hne. destruct (last l) as [[d|]|] eqn:Hlast.
  - eauto.
  - apply last_Some in Hlast as (l' & ->).
    apply Forall_app in Hl as [_ Hl]. inversion Hl; congruence.
  - apply last_None in Hlast. contradiction.
Qed.

Lemma Forall_present_map (l : list DeclId) :
  Forall (fun D : option DeclId => D <> None) (List.map Some l).
Proof. induction l; constructor; [discriminate | assumption]. Qed.

Section Appends.

Context {ext : Collaborators}.

(** [parseDeclVar] answers with an error exactly when it has pushed
    nothing; otherwise the declarations it has pushed are all present and
    the first of them is the [VarDecl]. *)
Lemma parseDeclVar_appends
      (n : nat) (Decls Decls' : list (option DeclId)) (P P' : Parser)
      (e : bool) :
  parseDeclVar n Decls P = Ok (e, Decls') P' ->
  (e = true /\ Decls' = Decls) \/
  (e = false /\
   exists VD Refs,
     Decls' = Decls ++ Some VD :: List.map Some Refs /\
     isaVarDecl P' VD = true).
Proof.
  intros Hrun. unfold parseDeclVar in Hrun.
  bind_inv Hrun as VarLoc Q1 E1. bind_inv Hrun as Attributes Q2 E2.
  bind_inv Hrun as r Q3 E3.
  destruct r as [VarName|]; [|injection Hrun as <- <- _; auto].
  bind_inv Hrun as v Q4 E4.
  destruct v as [[T Init]|]; [|injection Hrun as <- <- _; auto].
  bind_inv Hrun as DC Q5 E5. injection E5 as <- <-.
  right. destruct VarName as [Id Loc|LP Elts RP].
  - bind_inv Hrun as VD Q6 E6. bind_inv Hrun as u Q7 E7.
    injection Hrun as <- <- <-.
    apply allocDecl_spec in E6 as (-> & -> & Hget).
    rewrite addToScope_spec in E7. injection E7 as E7. subst Q7.
    split; [reflexivity|]. exists (length (DeclArena Q4)), [].
    split; [reflexivity|].
    unfold isaVarDecl, getDecl in *.
    cbn [DeclArena withScopeInfo withDeclArena] in *.
    rewrite Hget. reflexivity.
  - bind_inv Hrun as VD Q6 E6. bind_inv Hrun as Decls1 Q7 E7.
    injection Hrun as <- <- <-.
    apply allocDecl_spec in E6 as (-> & -> & Hget).
    destruct (actOnVarDeclName_bound (VarNameTuple LP Elts RP) []
                (length (DeclArena Q4)) (Decls ++ [Some (length (DeclArena Q4))])
                (withDeclArena
                   (DeclArena Q4 ++
                    [mkDecl (VarDecl "" (Some (VarNameTuple LP Elts RP))
                               match T with Some Ty => Ty | None => DependentType end
                               Init Attributes) VarLoc (CurDeclContext Q4)]) Q4))
      as (Q7' & Hrun7 & Hb).
    cbv zeta in Hrun7, Hb.
    pose proof (eq_trans (eq_sym E7) Hrun7) as Heq. injection Heq as -> ->.
    split; [reflexivity|]. do 2 eexists. split.
    { rewrite <- app_assoc. reflexivity. }
    unfold isaVarDecl, getDecl in *. destruct Hb as (HA & _). rewrite HA.
    erewrite lookup_app_l_Some by exact Hget. reflexivity.
Qed.

(** The two shapes of the answer of [parseDeclStruct]. *)
Lemma parseDeclStruct_appends
      (parseDeclRec : list (option DeclId) -> nat -> M (bool * list (option DeclId)))
      (n : nat) (Decls Decls' : list (option DeclId)) (P P' : Parser)
      (e : bool) :
  parseDeclStruct parseDeclRec n Decls P = Ok (e, Decls') P' ->
  (e = true /\ Decls' = Decls) \/
  (e = false /\ exists TAD Elt, Decls' = Decls ++ [Some TAD; Some Elt]).
Proof.
  intros Hrun. unfold parseDeclStruct in Hrun.
  bind_inv Hrun as StructLoc Q1 E1. bind_inv Hrun as Attributes Q2 E2.
  bind_inv Hrun as r Q3 E3.
  destruct r as [StructName|]; [|injection Hrun as <- <- _; auto].
  bind_inv Hrun as lb Q4 E4.
  destruct (fst lb); [injection Hrun as <- <- _; auto|].
  bind_inv Hrun as TAD Q5 E5. bind_inv Hrun as b Q6 E6.
  destruct b as [BodyTy|]; [|injection Hrun as <- <- _; auto].
  bind_inv Hrun as u7 Q7 E7. bind_inv Hrun as u8 Q8 E8.
  bind_inv Hrun as Members Q9 E9. bind_inv Hrun as rb Q10 E10.
  destruct (fst rb); [injection Hrun as <- <- _; auto|].
  bind_inv Hrun as OneOfTy Q11 E11. bind_inv Hrun as t Q12 E12.
  bind_inv Hrun as u13 Q13 E13. bind_inv Hrun as Elts Q14 E14.
  bind_inv Hrun as u15 Q15 E15.
  destruct (Elts !! 0%nat) as [Elt0|]; [|discriminate].
  bind_inv Hrun as u16 Q16 E16. injection Hrun as <- <- _.
  right. split; [reflexivity|]. exists TAD, Elt0.
  rewrite <- app_assoc. reflexivity.
Qed.

(** What [parseDecl] does to a list of entries that are all present. *)
Lemma parseDecl_appends
      (n Flags : nat) (Entries Entries' : list (option DeclId))
      (P P' : Parser) (e : bool) :
  Forall (fun D : option DeclId => D <> None) Entries ->
  parseDecl n Entries Flags P = Ok (e, Entries') P' ->
  exists New,
    Entries' = Entries ++ New /\
    Forall (fun D : option DeclId => D <> None) New /\
    (e = false -> New <> []).
Proof.
  intros Hpresent Hrun. destruct n as [|n]; [discriminate|].
  rewrite parseDecl_unfold in Hrun. bind_inv Hrun as r Q E.
  destruct r as [e1 Entries1].
  assert (Hshape : (e1 = true /\ Entries1 = Entries) \/
                   (exists D, e1 = false /\ Entries1 = Entries ++ [D]) \/
                   (e1 = false /\
                    exists New, New <> [] /\ Entries1 = Entries ++ New /\
                                Forall (fun D : option DeclId => D <> None) New)).
  { unfold dispatchDecl in E.
    destruct (getKind (Tok P));
      try (bind_inv E as u Q0 E0; injection E as <- <- _; auto; fail);
      try (bind_inv E as D Q0 E0; injection E as <- <- _; right; left; eauto; fail).
    - apply parseDeclVar_appends in E
        as [[-> ->]|(-> & VD & Refs & -> & _)]; [auto|].
      right. right. split; [reflexivity|]. eexists. split; [|split; [reflexivity|]].
      + discriminate.
      + constructor; [discriminate | apply Forall_present_map].
    - apply parseDeclStruct_appends in E
        as [[-> ->]|(-> & TAD & Elt & ->)]; [auto|].
      right. right. split; [reflexivity|]. eexists. split; [|split; [reflexivity|]].
      + discriminate.
      + repeat constructor; discriminate. }
  unfold finishDecl in Hrun. bind_inv Hrun as r2 Q2 E2.
  destruct r2 as [e2 Entries2].
  bind_inv Hrun as u3 Q3 E3. bind_inv Hrun as u4 Q4 E4.
  injection Hrun as <- <- _.
  destruct Hshape as [[-> ->]|[(D & -> & ->)|(-> & New & Hne & -> & HNew)]].
  - destruct (last Entries) as [[d|]|] eqn:Hlast; [|exfalso|discriminate].
    + injection E2 as <- <- _. exists []. rewrite app_nil_r.
      split; [reflexivity|]. split; [constructor | discriminate].
    + apply last_Some in Hlast as (l' & ->).
      apply Forall_app in Hpresent as [_ H]. inversion H; congruence.
  - rewrite last_snoc in E2. destruct D as [d|].
    + injection E2 as <- <- _. exists [Some d].
      split; [reflexivity|]. split; [|discriminate].
      constructor; [discriminate | constructor].
    + injection E2 as <- <- _. exists []. rewrite removelast_last, app_nil_r.
      split; [reflexivity|]. split; [constructor | discriminate].
  - destruct (last_present (Entries ++ New)) as (d & Hlast).
    { apply Forall_app. split; assumption. }
    { destruct Entries; destruct New; try discriminate; congruence. }
    rewrite Hlast in E2. injection E2 as <- <- _. exists New.
    split; [reflexivity|]. split; [exact HNew | intros _; exact Hne].
Qed.

(** The member loop of a body only adds entries that are present, and it
    ends on a closing brace or at the end of the file. *)
Lemma parseMemberDecls_appends (k Flags : nat) (m : nat) :
  forall (Members Members' : list (option DeclId)) (P P' : Parser),
    Forall (fun D : option DeclId => D <> None) Members ->
    parseMemberDecls (parseDecl k) m Flags Members P = Ok Members' P' ->
    (exists New, Members' = Members ++ New /\
                 Forall (fun D : option DeclId => D <> None) New) /\
    Token_is (Tok P') tok_r_brace || Token_is (Tok P') tok_eof = true.
Proof.
  induction m as [|m IH]; intros Members Members' P P' Hpresent Hrun;
    cbn [parseMemberDecls] in Hrun;
    destruct (Token_isNot (Tok P) tok_r_brace && Token_isNot (Tok P) tok_eof)
      eqn:Hmore;
    try discriminate;
    try (injection Hrun as <- <-; split;
         [exists []; rewrite app_nil_r; split; [reflexivity | constructor]|];
         unfold Token_isNot in Hmore;
         destruct (Token_is (Tok P) tok_r_brace), (Token_is (Tok P) tok_eof);
         cbn in *; congruence).
  bind_inv Hrun as r Q E. destruct r as [e Members1].
  bind_inv Hrun as u Q1 E1. cbn [snd] in Hrun.
  apply parseDecl_appends in E as (New1 & -> & HNew1 & _); [|exact Hpresent].
  apply IH in Hrun as [(New2 & -> & HNew2) Hstop].
  - split; [|exact Hstop]. exists (New1 ++ New2).
    rewrite app_assoc. split; [reflexivity|]. apply Forall_app. auto.
  - apply Forall_app. auto.
Qed.

End Appends.

Section AppendsTheorems.

Context {ext : Collaborators}.

(** X11.  [parseDeclVar] only ever appends to the declaration list, and what
    it appends is never null.  It answers with an error exactly when it
    has appended nothing; otherwise the first declaration it has appended
    is the [VarDecl]. *)
Theorem parseDeclVar_error_iff_nothing_pushed
        (n : nat) (Decls Decls' : list (option DeclId)) (P P' : Parser)
        (e : bool) :
  parseDeclVar n Decls P = Ok (e, Decls') P' ->
  exists New,
    Decls' = Decls ++ New /\
    Forall (fun D : option DeclId => D <> None) New /\
    (e = true <-> New = []) /\
    (e = false ->
     exists VD Refs, New = Some VD :: Refs /\ isaVarDecl P' VD = true).
Proof.
  intros Hrun.
  apply parseDeclVar_appends in Hrun
    as [[-> ->]|(-> & VD & Refs & -> & Hvar)].
  - exists []. rewrite app_nil_r. repeat split; try constructor; discriminate.
  - exists (Some VD :: List.map Some Refs). split; [reflexivity|].
    split; [constructor; [discriminate | apply Forall_present_map]|].
    split; [split; discriminate|]. intros _. eauto.
Qed.

(** X12.  Entered with a list of entries that are all present, [parseDecl]
    leaves these entries in place and appends only declarations that are
    present: the null answer of a sub-parser is popped, never kept.  When
    it reports no error it has appended at least one declaration. *)
Theorem parseDecl_appends_present_entries
        (n Flags : nat) (Entries Entries' : list (option DeclId))
        (P P' : Parser) (e : bool) :
  Forall (fun D : option DeclId => D <> None) Entries ->
  parseDecl n Entries Flags P = Ok (e, Entries') P' ->
  exists New,
    Entries' = Entries ++ New /\
    Forall (fun D : option DeclId => D <> None) New /\
    (e = false -> New <> []).
Proof. apply parseDecl_appends. Qed.

(** X13.  The member loop of an extension, oneof or struct body collects
    only declarations that are present, so the loops that later install
    the members into their declaration context never meet a null member;
    and it ends on a closing brace or at the end of the file. *)
Theorem parseMemberDecls_members_present
        (k m Flags : nat) (Members : list (option DeclId)) (P P' : Parser) :
  parseMemberDecls (parseDecl k) m Flags [] P = Ok Members P' ->
  Forall (fun D : option DeclId => D <> None) Members /\
  Token_is (Tok P') tok_r_brace || Token_is (Tok P') tok_eof = true.
Proof.
  intros Hrun.
  apply parseMemberDecls_appends in Hrun as [(New & -> & HNew) Hstop];
    [|constructor].
  split; assumption.
Qed.

End AppendsTheorems.

(** The run of [parseDeclVar] on [var (a, b) : (Int, Int) = (1, 2)]: the
    [VarDecl] and the two element references are appended. *)
Lemma parseDeclVar_error_iff_nothing_pushed_witness :
  exists New,
    [Some 1; Some 2; Some 3] = [] ++ New /\
    Forall (fun D : option DeclId => D <> None) New.
Proof.
  assert (Hrun : @parseDeclVar Frontend.collaborators 40 []
                   (Frontend.start Frontend.varAB)
                 = Ok (false, [Some 1; Some 2; Some 3])
                      (stateOf (@parseDeclVar Frontend.collaborators 40 []
                                  (Frontend.start Frontend.varAB))))
    by (vm_compute; reflexivity).
  destruct (parseDeclVar_error_iff_nothing_pushed _ _ _ _ _ _ Hrun)
    as (New & HNew & Hpresent & _).
  exists New. split; assumption.
Defined.

(** The run of [parseDecl] on [oneof Color { red, green, blue }]. *)
Lemma parseDecl_appends_present_entries_witness :
  exists New,
    [Some 0] = [] ++ New /\ New <> [].
Proof.
  assert (Hrun : @parseDecl Frontend.collaborators 6 [] PD_AllowImport
                   (Frontend.start Frontend.oneofColor)
                 = Ok (false, [Some 0])
                      (stateOf (@parseDecl Frontend.collaborators 6 []
                                  PD_AllowImport
                                  (Frontend.start Frontend.oneofColor))))
    by (vm_compute; reflexivity).
  destruct (parseDecl_appends_present_entries _ _ _ _ _ _ _
              (List.Forall_nil _) Hrun)
    as (New & HNew & _ & Hne).
  exists New. split; [exact HNew | exact (Hne eq_refl)].
Defined.

(** The run of the member loop on [func f() }]. *)
Lemma parseMemberDecls_members_present_witness :
  exists P',
    parseMemberDecls (@parseDecl Frontend.collaborators 4) 4 PD_Default []
                     (Frontend.start Samples.membersF) = Ok [Some 0] P' /\
    Forall (fun D : option DeclId => D <> None) [Some 0] /\
    Token_is (Tok P') tok_r_brace || Token_is (Tok P') tok_eof = true.
Proof.
  pose (Q := stateOf (parseMemberDecls
                        (@parseDecl Frontend.collaborators 4) 4 PD_Default []
                        (Frontend.start Samples.membersF))).
  assert (Hrun : parseMemberDecls
                   (@parseDecl Frontend.collaborators 4) 4 PD_Default []
                   (Frontend.start Samples.membersF) = Ok [Some 0] Q)
    by (vm_compute; reflexivity).
  exists Q. split; [exact Hrun|].
  exact (parseMemberDecls_members_present _ _ _ _ _ _ Hrun).
Defined.

(** ** Bodies and their closing brace *)

Lemma parseMatchingToken_afterClosing (K : tok) (D : diag) (Loc : SourceLoc)
      (Note : diag) (P : Parser) :
  parseMatchingToken K D Loc Note P
  = Ok (negb (Token_is (Tok P) K), getLoc (Tok P)) (afterClosing K D Loc Note P).
Proof.
  rewrite parseMatchingToken_eq. unfold afterClosing.
  destruct (Token_is (Tok P) K); reflexivity.
Qed.

(** The check of a struct body for unnamed fields reports one diagnostic
    per unnamed field and changes nothing else. *)
Lemma forEach_unnamed_members (LBLoc : SourceLoc) (Fields : list (Ty * Identifier)) :
  forall P,
    forEach Fields
            (fun Elt => when_ (String.eqb (snd Elt) "")
                              (diagnose LBLoc struct_unnamed_member "")) P
    = Ok tt (reported (unnamedMemberDiags LBLoc Fields) P).
Proof.
  induction Fields as [|Elt Fields IH]; intros P; cbn [forEach].
  - unfold ret. rewrite reported_nil. reflexivity.
  - unfold bind. rewrite when_diagnose. rewrite IH.
    unfold unnamedMemberDiags. cbn [List.filter]. cbv beta.
    destruct Elt as [T N]. cbn [snd].
    destruct (String.eqb N ""); cbn [List.map].
    + change (withDiags (Diags P ++ ?l) P) with (reported l P).
      rewrite reported_reported. reflexivity.
    + change (withDiags (Diags P ++ ?l) P) with (reported l P).
      rewrite reported_nil. reflexivity.
Qed.

Section Bodies.

Context {ext : Collaborators}.

(** X14.  A struct whose body is not closed by a brace is rejected: the
    missing brace is reported at the current token, with a note at the
    opening brace, the declaration list is left as it was and no union is
    built.  Nothing is undone either: the type alias registered for the
    struct's name before the body was parsed stays as it is, and so does
    everything the body parsers created.  On the way, every unnamed field
    of the body has been reported once, at the opening brace. *)
Theorem parseDeclStruct_unclosed_body
        (parseDeclRec : list (option DeclId) -> nat -> M (bool * list (option DeclId)))
        (n : nat) (Decls MemberDecls : list (option DeclId))
        (P Q1 Q2 Q3 Q4 Q5 Q6 Q8 : Parser)
        (StructLoc LBLoc : SourceLoc) (Attributes : DeclAttributes)
        (StructName : Identifier) (TAD : DeclId) (BodyTy : Ty) :
  consumeTokenK kw_struct P = Ok StructLoc Q1 ->
  parseAttributeList noAttributes Q1 = Ok Attributes Q2 ->
  parseIdentifier expected_identifier_in_decl "struct" Q2
  = Ok (Some StructName) Q3 ->
  parseTokenLoc tok_l_brace expected_lbrace_struct Q3 = Ok (false, LBLoc) Q4 ->
  addTypeAliasToScope StructLoc StructName None Q4 = Ok TAD Q5 ->
  parseTypeTupleBody LBLoc Q5 = Ok (Some BodyTy) Q6 ->
  isaTupleType BodyTy = true ->
  parseMemberDecls parseDeclRec n (Nat.lor PD_DisallowVar PD_DisallowOperators)
                   []
                   (reported (unnamedMemberDiags LBLoc (tupleFields BodyTy)) Q6)
  = Ok MemberDecls Q8 ->
  Token_is (Tok Q8) tok_r_brace = false ->
  parseDeclStruct parseDeclRec n Decls P
  = Ok (true, Decls)
       (reported [mkDiag (getLoc (Tok Q8)) expected_rbrace_struct "";
                  mkDiag LBLoc opening_brace ""] Q8).
Proof.
  intros E1 E2 E3 E4 E5 E6 Htuple E8 Hopen.
  unfold parseDeclStruct.
  rewrite (bind_eq _ _ _ _ _ E1), (bind_eq _ _ _ _ _ E2),
    (bind_eq _ _ _ _ _ E3), (bind_eq _ _ _ _ _ E4).
  cbn [fst snd].
  rewrite (bind_eq _ _ _ _ _ E5), (bind_eq _ _ _ _ _ E6).
  rewrite Htuple. unfold bind at 1. cbn [assert_ ret].
  rewrite (bind_eq _ _ _ _ _ (forEach_unnamed_members LBLoc _ Q6)).
  rewrite (bind_eq _ _ _ _ _ E8).
  unfold bind at 1. rewrite parseMatchingToken_eq, Hopen. reflexivity.
Qed.

(** X15.  An extension is created as soon as its type and its opening brace
    have parsed and the member loop has returned: the declaration carries
    the extended type and the collected members, at the location of the
    keyword, in the current declaration context.  A missing closing brace
    is reported, with a note at the opening brace, but does not fail the
    declaration. *)
Theorem parseDeclExtension_created_even_unclosed
        (parseDeclRec : list (option DeclId) -> nat -> M (bool * list (option DeclId)))
        (n : nat) (MemberDecls : list (option DeclId))
        (P Q1 Q2 Q3 Q4 : Parser) (ExtensionLoc LBLoc : SourceLoc) (T : Ty) :
  consumeTokenK kw_extension P = Ok ExtensionLoc Q1 ->
  parseTypeIdentifier Q1 = Ok (Some T) Q2 ->
  parseTokenLoc tok_l_brace expected_lbrace_oneof_type Q2 = Ok (false, LBLoc) Q3 ->
  parseMemberDecls parseDeclRec n PD_Default [] Q3 = Ok MemberDecls Q4 ->
  let Q5 := afterClosing tok_r_brace expected_rbrace_extension LBLoc
                         opening_brace Q4 in
  parseDeclExtension parseDeclRec n P
  = Ok (Some (length (DeclArena Q4)))
       (withDeclArena
          (DeclArena Q4
           ++ [mkDecl (ExtensionDecl T MemberDecls) ExtensionLoc
                      (CurDeclContext Q4)]) Q5).
Proof.
  intros E1 E2 E3 E4 Q5. unfold parseDeclExtension.
  rewrite (bind_eq _ _ _ _ _ E1), (bind_eq _ _ _ _ _ E2),
    (bind_eq _ _ _ _ _ E3).
  cbn [fst snd]. rewrite (bind_eq _ _ _ _ _ E4).
  rewrite (bind_eq _ _ _ _ _ (parseMatchingToken_afterClosing _ _ _ _ Q4)).
  fold Q5. unfold bind at 1. cbn [gets]. unfold bind at 1. cbn [allocDecl].
  unfold ret. subst Q5. unfold afterClosing.
  destruct (Token_is (Tok Q4) tok_r_brace); reflexivity.
Qed.

End Bodies.

(** The run of the theorem above on [struct S { Int]: the unnamed field and
    the missing brace are reported, nothing is appended and no union is
    built, but the alias [S] stays registered. *)
Lemma parseDeclStruct_unclosed_body_witness :
  exists P',
    @parseDeclStruct Frontend.collaborators
       (@parseDecl Frontend.collaborators 4) 4 []
       (Frontend.start Samples.structOpen)
    = Ok (true, []) P' /\
    Diags P' = [mkDiag 3 struct_unnamed_member "";
                mkDiag 0 expected_rbrace_struct "";
                mkDiag 3 opening_brace ""] /\
    OneOfTypes P' = [] /\
    getName P' 0 = "S" /\ currentFrame P' = [("Int", 1); ("S", 0)].
Proof.
  pose (Q1 := stateOf (consumeTokenK kw_struct
                         (Frontend.start Samples.structOpen))).
  pose (Q2 := stateOf (parseAttributeList noAttributes Q1)).
  pose (Q3 := stateOf (parseIdentifier expected_identifier_in_decl "struct" Q2)).
  pose (Q4 := stateOf (parseTokenLoc tok_l_brace expected_lbrace_struct Q3)).
  pose (Q5 := stateOf (addTypeAliasToScope 1 "S" None Q4)).
  pose (Q6 := stateOf (@parseTypeTupleBody Frontend.collaborators 3 Q5)).
  pose (Q8 := reported (unnamedMemberDiags 3 [(NameAliasType 1, "")]) Q6).
  assert (E1 : consumeTokenK kw_struct (Frontend.start Samples.structOpen)
               = Ok 1 Q1) by (vm_compute; reflexivity).
  assert (E2 : parseAttributeList noAttributes Q1 = Ok noAttributes Q2)
    by (vm_compute; reflexivity).
  assert (E3 : parseIdentifier expected_identifier_in_decl "struct" Q2
               = Ok (Some "S") Q3) by (vm_compute; reflexivity).
  assert (E4 : parseTokenLoc tok_l_brace expected_lbrace_struct Q3
               = Ok (false, 3) Q4) by (vm_compute; reflexivity).
  assert (E5 : addTypeAliasToScope 1 "S" None Q4 = Ok 0 Q5)
    by (vm_compute; reflexivity).
  assert (E6 : @parseTypeTupleBody Frontend.collaborators 3 Q5
               = Ok (Some (TupleType [(NameAliasType 1, "")])) Q6)
    by (vm_compute; reflexivity).
  assert (E8 : parseMemberDecls (@parseDecl Frontend.collaborators 4) 4
                 (Nat.lor PD_DisallowVar PD_DisallowOperators) []
                 (reported
                    (unnamedMemberDiags 3
                       (tupleFields (TupleType [(NameAliasType 1, "")]))) Q6)
               = Ok [] Q8) by (vm_compute; reflexivity).
  eexists. split.
  - exact (@parseDeclStruct_unclosed_body Frontend.collaborators
             (@parseDecl Frontend.collaborators 4) 4 [] []
             _ _ _ _ _ _ _ _ _ _ _ _ _ _
             E1 E2 E3 E4 E5 E6 eq_refl E8 eq_refl).
  - vm_compute. repeat split; reflexivity.
Defined.

(** The run of the theorem above on [extension Foo { func f()]: the
    missing brace is reported and the extension is created with its
    member [f]. *)
Lemma parseDeclExtension_created_even_unclosed_witness :
  exists P',
    @parseDeclExtension Frontend.collaborators
       (@parseDecl Frontend.collaborators 4) 4
       (Frontend.start Samples.extensionOpen)
    = Ok (Some 2) P' /\
    getDecl P' 2
    = Some (mkDecl (ExtensionDecl (NameAliasType 0) [Some 1]) 1
                   DC_TranslationUnit) /\
    Diags P' = [mkDiag 0 expected_rbrace_extension "";
                mkDiag 3 opening_brace ""].
Proof.
  pose (Q1 := stateOf (consumeTokenK kw_extension
                         (Frontend.start Samples.extensionOpen))).
  pose (Q2 := stateOf (@parseTypeIdentifier Frontend.collaborators Q1)).
  pose (Q3 := stateOf (parseTokenLoc tok_l_brace expected_lbrace_oneof_type Q2)).
  pose (Q4 := stateOf (parseMemberDecls (@parseDecl Frontend.collaborators 4) 4
                         PD_Default [] Q3)).
  assert (E1 : consumeTokenK kw_extension (Frontend.start Samples.extensionOpen)
               = Ok 1 Q1) by (vm_compute; reflexivity).
  assert (E2 : @parseTypeIdentifier Frontend.collaborators Q1
               = Ok (Some (NameAliasType 0)) Q2) by (vm_compute; reflexivity).
  assert (E3 : parseTokenLoc tok_l_brace expected_lbrace_oneof_type Q2
               = Ok (false, 3) Q3) by (vm_compute; reflexivity).
  assert (E4 : parseMemberDecls (@parseDecl Frontend.collaborators 4) 4
                 PD_Default [] Q3 = Ok [Some 1] Q4) by (vm_compute; reflexivity).
  eexists. split.
  - exact (@parseDeclExtension_created_even_unclosed Frontend.collaborators
             (@parseDecl Frontend.collaborators 4) 4 _ _ _ _ _ _ _ _ _
             E1 E2 E3 E4).
  - vm_compute. repeat split; reflexivity.
Defined.

(** ** Oneof declarations *)

Section OneOf.

Context {ext : Collaborators}.

Lemma parseOneOfElements_cases (Cases : list (Identifier * SourceLoc)) :
  Cases <> [] ->
  forall (n : nat) (Infos : list OneOfElementInfo) (Rest : list Token)
         (P : Parser),
    Token_is (fst (lex Rest)) tok_colon = false ->
    Token_is (fst (lex Rest)) tok_comma = false ->
    length Cases <= n ->
    parseOneOfElements n Infos (cursorAt (caseTokens Cases ++ Rest) P)
    = Ok (Some (Infos ++ List.map plainCase Cases)) (cursorAt Rest P).
Proof.
  induction Cases as [|[N Loc] Cases IH]; [congruence|].
  intros _ n Infos Rest P Hcolon Hcomma Hn.
  destruct n as [|n]; [cbn in Hn; lia|].
  cbn [caseTokens app parseOneOfElements].
  change (Token_is (Tok (cursorAt _ P)) tok_identifier) with true. cbv iota.
  set (P0 := cursorAt _ P).
  rewrite (bind_eq _ _ _ _ _ (consumeTokenK_eq tok_identifier P0 eq_refl)).
  subst P0. rewrite next_cursorAt.
  change (getText (Tok (cursorAt (mkToken tok_identifier N Loc :: _) P))) with N.
  change (getLoc (Tok (cursorAt (mkToken tok_identifier N Loc :: _) P))) with Loc.
  unfold bind at 1. rewrite consumeIf_eq.
  destruct Cases as [|C Cases].
  - cbn [app]. change (Tok (cursorAt Rest P)) with (fst (lex Rest)).
    rewrite Hcolon. unfold bind at 1. unfold ret at 1.
    unfold bind at 1. rewrite consumeIf_eq.
    change (Tok (cursorAt Rest P)) with (fst (lex Rest)). rewrite Hcomma.
    reflexivity.
  - cbn [app].
    change (Token_is (Tok (cursorAt _ P)) tok_colon) with false. cbv iota.
    unfold bind at 1. unfold ret at 1.
    unfold bind at 1. rewrite consumeIf_eq.
    change (Token_is (Tok (cursorAt _ P)) tok_comma) with true. cbv iota.
    rewrite next_cursorAt.
    rewrite (IH ltac:(discriminate) n _ Rest P Hcolon Hcomma)
      by (cbn [length] in Hn |- *; lia).
    cbn [List.map]. rewrite <- app_assoc. reflexivity.
Qed.

(** X16.  The element loop of a oneof body reads a comma-separated list of
    cases without payload back as written: one element per case, in
    order, each with the name and the location of its identifier and no
    payload type; nothing is reported and the cursor stops after the last
    case. *)
Theorem parseOneOfElements_round_trip
        (Cases : list (Identifier * SourceLoc)) (n : nat) (Rest : list Token)
        (P : Parser) :
  Cases <> [] ->
  Token_is (fst (lex Rest)) tok_colon = false ->
  Token_is (fst (lex Rest)) tok_comma = false ->
  length Cases <= n ->
  parseOneOfElements n [] (cursorAt (caseTokens Cases ++ Rest) P)
  = Ok (Some (List.map plainCase Cases)) (cursorAt Rest P).
Proof.
  intros Hne Hcolon Hcomma Hn.
  exact (parseOneOfElements_cases Cases Hne n [] Rest P Hcolon Hcomma Hn).
Qed.

(** X17.  A oneof declaration whose name, opening brace, cases and members
    parse answers with its type alias, completed to the union that is
    built from the first occurrence of each case name; every case
    declaration has the union as its declaration context, and the
    duplicates are reported.  A missing closing brace is reported, with a
    note at the opening brace, but does not fail the declaration. *)
Theorem parseDeclOneOf_completes_alias
        (k n : nat) (P Q1 Q2 Q3 Q4 Q5 Q6 Q7 : Parser)
        (OneOfLoc LBLoc : SourceLoc) (Attributes : DeclAttributes)
        (OneOfName : Identifier) (TAD : DeclId)
        (Infos : list OneOfElementInfo) (MemberDecls : list (option DeclId)) :
  consumeTokenK kw_oneof P = Ok OneOfLoc Q1 ->
  parseAttributeList noAttributes Q1 = Ok Attributes Q2 ->
  parseIdentifier expected_identifier_in_decl "oneof" Q2
  = Ok (Some OneOfName) Q3 ->
  addTypeAliasToScope (getLoc (Tok Q2)) OneOfName None Q3 = Ok TAD Q4 ->
  parseTokenLoc tok_l_brace expected_lbrace_oneof_type Q4 = Ok (false, LBLoc) Q5 ->
  parseOneOfElements n [] Q5 = Ok (Some Infos) Q6 ->
  parseMemberDecls (parseDecl k) n
                   (Nat.lor PD_DisallowVar PD_DisallowOperators) [] Q6
  = Ok MemberDecls Q7 ->
  let Q8 := afterClosing tok_r_brace expected_rbrace_oneof_type LBLoc
                         opening_brace Q7 in
  exists (Result : nat) (EltDecls : list DeclId) (P' : Parser),
    parseDeclOneOf (parseDecl k) n P = Ok (Some TAD) P' /\
    OneOfTypes P' !! Result
    = Some (mkOneOfType OneOfLoc EltDecls (CurDeclContext Q7)) /\
    Forall2 (fun D Elt =>
               getDecl P' D
               = Some (caseDecl (getAliasType TAD) (DC_OneOfType Result) Elt))
            EltDecls (firstOccurrences Infos) /\
    (isaTypeAliasDecl P' TAD = true ->
     getUnderlyingType P' TAD = Some (OneOfType Result)) /\
    Diags P'
    = Diags Q8
      ++ (if negb (Attributes_empty Attributes)
          then [mkDiag (LSquareLoc Attributes) oneof_attributes ""] else [])
      ++ duplicateDiags Infos.
Proof.
  intros E1 E2 E3 E4 E5 E6 E7 Q8.
  pose proof (parseMemberDecls_appends _ _ _ _ _ _ _ (List.Forall_nil _) E7)
    as [(New & HNew & Hpresent) _].
  cbn [app] in HNew. subst New.
  destruct (actOnOneOfType_returns OneOfLoc Attributes Infos MemberDecls TAD Q8
              Hpresent) as (Result & P' & Hact).
  destruct (actOnOneOfType_cases _ _ _ _ _ _ _ _ Hact)
    as (EltDecls & Hty & Hall & _ & _ & Hdiags & Hund).
  assert (HC : CurDeclContext Q8 = CurDeclContext Q7)
    by (subst Q8; unfold afterClosing;
        destruct (Token_is (Tok Q7) tok_r_brace); reflexivity).
  rewrite HC in Hty.
  exists Result, EltDecls, P'.
  split; [|split; [exact Hty | split; [exact Hall | split;
                                          [exact Hund | exact Hdiags]]]].
  unfold parseDeclOneOf.
  rewrite (bind_eq _ _ _ _ _ E1), (bind_eq _ _ _ _ _ E2).
  unfold bind at 1. cbn [tokLoc gets].
  rewrite (bind_eq _ _ _ _ _ E3), (bind_eq _ _ _ _ _ E4).
  unfold parseDeclOneOfBody.
  unfold bind at 1. rewrite (bind_eq _ _ _ _ _ E5). cbn [fst snd].
  rewrite (bind_eq _ _ _ _ _ E6), (bind_eq _ _ _ _ _ E7).
  rewrite (bind_eq _ _ _ _ _ (parseMatchingToken_afterClosing _ _ _ _ Q7)).
  fold Q8. rewrite (bind_eq _ _ _ _ _ Hact). reflexivity.
Qed.

End OneOf.

(** The run of the theorem above on the cases [a, b, c] followed by a
    closing brace. *)
Lemma parseOneOfElements_round_trip_witness :
  @parseOneOfElements Frontend.collaborators 3 []
    (cursorAt (caseTokens [("a", 4); ("b", 6); ("c", 8)]
               ++ [mkToken tok_r_brace "}" 9]) (Frontend.start []))
  = Ok (Some [mkOneOfElementInfo "a" 4 None; mkOneOfElementInfo "b" 6 None;
              mkOneOfElementInfo "c" 8 None])
       (cursorAt [mkToken tok_r_brace "}" 9] (Frontend.start [])).
Proof.
  apply (@parseOneOfElements_round_trip Frontend.collaborators
           [("a", 4); ("b", 6); ("c", 8)] 3 [mkToken tok_r_brace "}" 9]
           (Frontend.start [])).
  - discriminate.
  - reflexivity.
  - reflexivity.
  - simpl. lia.
Defined.

(** The run of the theorem above on [oneof E { a, a, b]: the alias [E] is
    completed to a union with the cases [a] and [b], the second [a] and
    the missing brace are reported. *)
Lemma parseDeclOneOf_completes_alias_witness :
  exists Result EltDecls P',
    @parseDeclOneOf Frontend.collaborators
       (@parseDecl Frontend.collaborators 4) 4
       (Frontend.start Samples.oneofOpen) = Ok (Some 0) P' /\
    OneOfTypes P' !! Result = Some (mkOneOfType 1 EltDecls DC_TranslationUnit) /\
    List.map (getName P') EltDecls = ["a"; "b"] /\
    Diags P' = [mkDiag 0 expected_rbrace_oneof_type "";
                mkDiag 3 opening_brace "";
                mkDiag 6 duplicate_oneof_element "a";
                mkDiag 4 previous_definition "a"].
Proof.
  pose (Q1 := stateOf (consumeTokenK kw_oneof (Frontend.start Samples.oneofOpen))).
  pose (Q2 := stateOf (parseAttributeList noAttributes Q1)).
  pose (Q3 := stateOf (parseIdentifier expected_identifier_in_decl "oneof" Q2)).
  pose (Q4 := stateOf (addTypeAliasToScope 2 "E" None Q3)).
  pose (Q5 := stateOf (parseTokenLoc tok_l_brace expected_lbrace_oneof_type Q4)).
  pose (Q6 := stateOf (@parseOneOfElements Frontend.collaborators 4 [] Q5)).
  pose (Q7 := stateOf (parseMemberDecls (@parseDecl Frontend.collaborators 4) 4
                         (Nat.lor PD_DisallowVar PD_DisallowOperators) [] Q6)).
  assert (E1 : consumeTokenK kw_oneof (Frontend.start Samples.oneofOpen)
               = Ok 1 Q1) by (vm_compute; reflexivity).
  assert (E2 : parseAttributeList noAttributes Q1 = Ok noAttributes Q2)
    by (vm_compute; reflexivity).
  assert (E3 : parseIdentifier expected_identifier_in_decl "oneof" Q2
               = Ok (Some "E") Q3) by (vm_compute; reflexivity).
  assert (E4 : addTypeAliasToScope (getLoc (Tok Q2)) "E" None Q3 = Ok 0 Q4)
    by (vm_compute; reflexivity).
  assert (E5 : parseTokenLoc tok_l_brace expected_lbrace_oneof_type Q4
               = Ok (false, 3) Q5) by (vm_compute; reflexivity).
  assert (E6 : @parseOneOfElements Frontend.collaborators 4 [] Q5
               = Ok (Some [mkOneOfElementInfo "a" 4 None;
                           mkOneOfElementInfo "a" 6 None;
                           mkOneOfElementInfo "b" 8 None]) Q6)
    by (vm_compute; reflexivity).
  assert (E7 : parseMemberDecls (@parseDecl Frontend.collaborators 4) 4
                 (Nat.lor PD_DisallowVar PD_DisallowOperators) [] Q6
               = Ok [] Q7) by (vm_compute; reflexivity).
  destruct (@parseDeclOneOf_completes_alias Frontend.collaborators 4 4
              _ _ _ _ _ _ _ _ _ _ _ _ _ _ _ E1 E2 E3 E4 E5 E6 E7)
    as (Result & EltDecls & P' & Hrun & Hty & Hall & _ & Hdiags).
  exists Result, EltDecls, P'. split; [exact Hrun|].
  split; [exact Hty|]. split.
  - rewrite (caseDecl_names _ _ _ _ _ Hall). reflexivity.
  - rewrite Hdiags. vm_compute. reflexivity.
Defined.

(** ** The dispatcher on a token that starts no declaration *)

Section NoDeclaration.

Context {ext : Collaborators}.

(** X18.  Entered with a list of entries whose last one is a present
    declaration, on a token that starts no declaration [parseDecl]
    reports [expected_decl] at that token and answers with an error; it
    consumes nothing and leaves the entries as they are, so skipping the
    token is left to the caller.  (With an empty list of entries the same
    token makes it read the back of the empty list: the defect of C9.) *)
Theorem parseDecl_not_a_declaration
        (n Flags : nat) (Entries : list (option DeclId)) (D : DeclId)
        (P : Parser) :
  isStartOfDecl (Tok P) = false ->
  last Entries = Some (Some D) ->
  parseDecl (S n) Entries Flags P
  = Ok (true, Entries)
       (reported [mkDiag (getLoc (Tok P)) expected_decl ""] P).
Proof.
  intros Hstart Hlast. rewrite parseDecl_unfold.
  assert (Hdispatch : dispatchDecl (parseDecl n) n Entries P
                      = Ok (true, Entries)
                           (reported [mkDiag (getLoc (Tok P)) expected_decl ""] P)).
  { unfold dispatchDecl, isStartOfDecl in *.
    destruct (getKind (Tok P)); try discriminate; reflexivity. }
  rewrite (bind_eq _ _ _ _ _ Hdispatch). unfold finishDecl. rewrite Hlast.
  unfold bind at 1. unfold ret at 1.
  rewrite Nat.ltb_irrefl. unfold bind at 1. unfold ret at 1.
  rewrite drop_all. reflexivity.
Qed.

End NoDeclaration.

(** The run of the theorem above on a stray comma, with one entry already
    collected. *)
Lemma parseDecl_not_a_declaration_witness :
  exists P',
    @parseDecl Frontend.collaborators 1 [Some 0] PD_Default
               (Frontend.start [(tok_comma, ",")])
    = Ok (true, [Some 0]) P' /\
    Diags P' = [mkDiag 1 expected_decl ""] /\ getKind (Tok P') = tok_comma.
Proof.
  eexists. split.
  - exact (@parseDecl_not_a_declaration Frontend.collaborators 0 PD_Default
             [Some 0] 0 (Frontend.start [(tok_comma, ",")]) eq_refl eq_refl).
  - split; reflexivity.
Defined.

(** ** Func declarations and their body *)

Section FuncBody.

Context {ext : Collaborators}.

(** X19.  Once the name and the type of a func declaration have parsed, the
    declaration is always created: a body that is missing, or that fails
    to parse, leaves the function without a body but does not fail the
    declaration.  Whatever the body parser does to the declaration
    context, the context in force before the body is restored; the
    function is created in that context, and it is bound under its name
    in the enclosing scope, the scope of the body having been popped. *)
Theorem parseDeclFunc_declared_whatever_the_body
        (ReceiverTy : Type_) (P Q1 Q2 Q3 Q4 Q5 Q6 : Parser)
        (FuncLoc : SourceLoc) (Attributes : DeclAttributes) (Name : Identifier)
        (Written : Ty) (FE : nat) (Body : option Stmt) :
  consumeTokenK kw_func P = Ok FuncLoc Q1 ->
  parseAttributeList noAttributes Q1 = Ok Attributes Q2 ->
  parseIdentifier expected_identifier_in_decl "func" Q2 = Ok (Some Name) Q3 ->
  Token_is (Tok Q3) tok_l_paren || Token_is (Tok Q3) tok_l_paren_space = true ->
  parseType expected_type Q3 = Ok (Some Written) Q4 ->
  let Base := if isaFunctionType Written then Written
              else FunctionType Written TupleType_getEmpty in
  let FuncTy := match ReceiverTy with
                | Some R => FunctionType (TupleType [(R, "this")]) Base
                | None => Base
                end in
  actOnFuncExprStart FuncLoc FuncTy (withScopeInfo (pushFrame (ScopeInfo Q4)) Q4)
  = Ok FE Q5 ->
  (Token_is (Tok Q5) tok_l_brace = true /\
   parseStmtBrace invalid_diagnostic (withCurDeclContext (DC_FuncExpr FE) Q5)
   = Ok Body Q6) \/
  (Token_is (Tok Q5) tok_l_brace = false /\ Body = None /\
   Q6 = withCurDeclContext (DC_FuncExpr FE) Q5) ->
  let FD := length (DeclArena Q6) in
  exists P',
    parseDeclFunc ReceiverTy P = Ok (Some FD) P' /\
    getDecl P' FD
    = Some (mkDecl (FuncDecl Name FuncTy
                      match Body with Some _ => Some FE | None => None end
                      Attributes)
                   FuncLoc (CurDeclContext Q5)) /\
    CurDeclContext P' = CurDeclContext Q5 /\
    Frames (ScopeInfo P')
    = insertInnermost Name FD (tail (Frames (ScopeInfo Q6))) /\
    Diags P' = Diags Q6.
Proof.
  intros E1 E2 E3 Hparen E4 Base FuncTy E5 Hbody FD.
  assert (Hcc : Token_is (Tok Q3) tok_coloncolon = false).
  { apply orb_true_iff in Hparen as [H|H];
      apply (Token_is_excl _ _ tok_coloncolon H); discriminate. }
  unfold parseDeclFunc.
  rewrite (bind_eq _ _ _ _ _ E1), (bind_eq _ _ _ _ _ E2).
  unfold bind at 1. cbn [tokLoc gets].
  rewrite (bind_eq _ _ _ _ _ E3).
  assert (Hrn : match ReceiverTy with
                | None =>
                    c <- consumeIf tok_coloncolon ;;
                    if c then
                      R <- lookupOrInsertTypeName Name (getLoc (Tok Q2)) ;;
                      r2 <- parseIdentifier expected_identifier_in_decl "func" ;;
                      ret (Some R, r2)
                    else ret (None, Some Name)
                | Some R => ret (Some R, Some Name)
                end Q3 = Ok (ReceiverTy, Some Name) Q3).
  { destruct ReceiverTy as [R|]; [reflexivity|].
    unfold bind. rewrite consumeIf_eq, Hcc. reflexivity. }
  rewrite (bind_eq _ _ _ _ _ Hrn). cbn [fst snd].
  unfold bind at 1. cbn [gets]. rewrite Hparen. cbn [negb].
  rewrite (bind_eq _ _ _ _ _ E4).
  unfold bind at 1. cbn [pushScope modify].
  fold Base. fold FuncTy.
  rewrite (bind_eq _ _ _ _ _ E5).
  unfold bind at 1. cbn [gets]. unfold bind at 1. cbn [modify].
  unfold bind at 1. cbn [curTokIs gets].
  change (Tok (withCurDeclContext (DC_FuncExpr FE) Q5)) with (Tok Q5).
  assert (Hstep : exists Q7,
             (if Token_is (Tok Q5) tok_l_brace
              then
                B <- parseStmtBrace invalid_diagnostic ;;
                match B with
                | Some B => FuncExpr_setBody FE B ;;; ret (Some FE)
                | None => ret None
                end
              else ret None) (withCurDeclContext (DC_FuncExpr FE) Q5)
             = Ok match Body with Some _ => Some FE | None => None end Q7 /\
             DeclArena Q7 = DeclArena Q6 /\ ScopeInfo Q7 = ScopeInfo Q6 /\
             Diags Q7 = Diags Q6).
  { destruct Hbody as [[Hbrace Ebody]|(Hbrace & -> & ->)]; rewrite Hbrace.
    - rewrite (bind_eq _ _ _ _ _ Ebody). destruct Body as [B|].
      + eexists. split; [reflexivity|]. repeat split.
      + eexists. split; [reflexivity|]. repeat split.
    - eexists. split; [reflexivity|]. repeat split. }
  destruct Hstep as (Q7 & Estep & HA & HS & HD).
  rewrite (bind_eq _ _ _ _ _ Estep).
  unfold bind at 1. cbn [modify]. unfold bind at 1. cbn [popScope modify].
  unfold bind at 1. cbn [gets]. unfold bind at 1. cbn [allocDecl].
  unfold bind at 1. rewrite addToScope_spec.
  eexists. split.
  { unfold ret. cbn [DeclArena withScopeInfo withCurDeclContext].
    rewrite HA. reflexivity. }
  cbn [CurDeclContext ScopeInfo Diags withScopeInfo withDeclArena
       withCurDeclContext Frames popFrame UnresolvedTypeList
       UnresolvedScopedTypeList].
  split; [|split; [reflexivity|split; [|exact HD]]].
  - unfold getDecl. cbn [DeclArena withScopeInfo withDeclArena].
    subst FD. rewrite <- HA. apply list_lookup_middle. reflexivity.
  - subst FD. rewrite ?HS. f_equal.
    unfold getName, getDecl. cbn [DeclArena withScopeInfo withDeclArena].
    rewrite list_lookup_middle by reflexivity. reflexivity.
Qed.

End FuncBody.

(** The run of the theorem above on [func f() { x]: the body does not
    parse, the function [f] is declared without a body at file scope. *)
Lemma parseDeclFunc_declared_whatever_the_body_witness :
  exists P',
    @parseDeclFunc Frontend.collaborators None
       (Frontend.start Samples.funcBadBody) = Ok (Some 0) P' /\
    getDecl P' 0
    = Some (mkDecl (FuncDecl "f" (FunctionType (TupleType []) (TupleType []))
                             None noAttributes) 1 DC_TranslationUnit) /\
    CurDeclContext P' = DC_TranslationUnit /\
    Frames (ScopeInfo P') = [[("f", 0)]].
Proof.
  pose (Q1 := stateOf (consumeTokenK kw_func (Frontend.start Samples.funcBadBody))).
  pose (Q2 := stateOf (parseAttributeList noAttributes Q1)).
  pose (Q3 := stateOf (parseIdentifier expected_identifier_in_decl "func" Q2)).
  pose (Q4 := stateOf (@parseType Frontend.collaborators expected_type Q3)).
  pose (Q5 := stateOf (@actOnFuncExprStart Frontend.collaborators 1
                         (FunctionType (TupleType []) (TupleType []))
                         (withScopeInfo (pushFrame (ScopeInfo Q4)) Q4))).
  pose (Q6 := stateOf (@parseStmtBrace Frontend.collaborators invalid_diagnostic
                         (withCurDeclContext (DC_FuncExpr 0) Q5))).
  assert (E1 : consumeTokenK kw_func (Frontend.start Samples.funcBadBody)
               = Ok 1 Q1) by (vm_compute; reflexivity).
  assert (E2 : parseAttributeList noAttributes Q1 = Ok noAttributes Q2)
    by (vm_compute; reflexivity).
  assert (E3 : parseIdentifier expected_identifier_in_decl "func" Q2
               = Ok (Some "f") Q3) by (vm_compute; reflexivity).
  assert (E4 : @parseType Frontend.collaborators expected_type Q3
               = Ok (Some (TupleType [])) Q4) by (vm_compute; reflexivity).
  assert (E5 : @actOnFuncExprStart Frontend.collaborators 1
                 (FunctionType (TupleType []) (TupleType []))
                 (withScopeInfo (pushFrame (ScopeInfo Q4)) Q4) = Ok 0 Q5)
    by (vm_compute; reflexivity).
  assert (E6 : @parseStmtBrace Frontend.collaborators invalid_diagnostic
                 (withCurDeclContext (DC_FuncExpr 0) Q5) = Ok None Q6)
    by (vm_compute; reflexivity).
  destruct (@parseDeclFunc_declared_whatever_the_body Frontend.collaborators
              None _ _ _ _ _ _ _ _ _ _ _ _ None
              E1 E2 E3 eq_refl E4 E5 (or_introl (conj eq_refl E6)))
    as (P' & Hrun & Hget & HC & HF & _).
  exists P'. split; [exact Hrun|]. split; [exact Hget|].
  split; [rewrite HC; reflexivity | rewrite HF; vm_compute; reflexivity].
Defined.

(** ** The type of a func declaration *)

Section FuncType.

Context {ext : Collaborators}.

(** C4.  A func declaration whose parts parse is entered in the arena and
    bound under its name with a function type computed from the written
    type: a written type that is not itself a function type (in
    particular one with no arrow at all) becomes a function from it to
    the empty tuple; and when a receiver type is present, given by the
    caller for a protocol member or, in method syntax, looked up from the
    name written before [::], the final type is the function from the
    one-element tuple [(this : Receiver)] to that type.  Without a
    receiver the type is left unwrapped. *)
Theorem parseDeclFunc_type
        (ReceiverTy Receiver : Type_) (P Q1 Q2 Q3 Q4 Q5 Q6 Q7 : Parser)
        (FuncLoc : SourceLoc) (Attributes : DeclAttributes)
        (First Name : Identifier) (Written : Ty) (FE : nat)
        (Body : option Stmt) :
  consumeTokenK kw_func P = Ok FuncLoc Q1 ->
  parseAttributeList noAttributes Q1 = Ok Attributes Q2 ->
  parseIdentifier expected_identifier_in_decl "func" Q2 = Ok (Some First) Q3 ->
  (* plain syntax: the receiver, if there is one, is the caller's;
     method syntax: the first name is the receiver type *)
  ((ReceiverTy = None -> Token_is (Tok Q3) tok_coloncolon = false) /\
   Receiver = ReceiverTy /\ Name = First /\ Q4 = Q3) \/
  (ReceiverTy = None /\ Token_is (Tok Q3) tok_coloncolon = true /\
   exists R Qr,
     lookupOrInsertTypeName First (getLoc (Tok Q2)) (next Q3) = Ok R Qr /\
     Receiver = Some R /\
     parseIdentifier expected_identifier_in_decl "func" Qr
     = Ok (Some Name) Q4) ->
  Token_is (Tok Q4) tok_l_paren || Token_is (Tok Q4) tok_l_paren_space = true ->
  parseType expected_type Q4 = Ok (Some Written) Q5 ->
  let Base := if isaFunctionType Written then Written
              else FunctionType Written TupleType_getEmpty in
  let FuncTy := match Receiver with
                | Some R => FunctionType (TupleType [(R, "this")]) Base
                | None => Base
                end in
  actOnFuncExprStart FuncLoc FuncTy (withScopeInfo (pushFrame (ScopeInfo Q5)) Q5)
  = Ok FE Q6 ->
  (Token_is (Tok Q6) tok_l_brace = true /\
   parseStmtBrace invalid_diagnostic (withCurDeclContext (DC_FuncExpr FE) Q6)
   = Ok Body Q7) \/
  (Token_is (Tok Q6) tok_l_brace = false /\ Body = None /\
   Q7 = withCurDeclContext (DC_FuncExpr FE) Q6) ->
  let FD := length (DeclArena Q7) in
  exists P',
    parseDeclFunc ReceiverTy P = Ok (Some FD) P' /\
    getDecl P' FD
    = Some (mkDecl (FuncDecl Name FuncTy
                      match Body with Some _ => Some FE | None => None end
                      Attributes)
                   FuncLoc (CurDeclContext Q6)) /\
    (containsArrow Written = false ->
     Base = FunctionType Written TupleType_getEmpty) /\
    In (Name, FD) (currentFrame P').
Proof.
  intros E1 E2 E3 Hreceiver Hparen E4 Base FuncTy E5 Hbody FD.
  unfold parseDeclFunc.
  rewrite (bind_eq _ _ _ _ _ E1), (bind_eq _ _ _ _ _ E2).
  unfold bind at 1. cbn [tokLoc gets].
  rewrite (bind_eq _ _ _ _ _ E3).
  assert (Hrn : match ReceiverTy with
                | None =>
                    c <- consumeIf tok_coloncolon ;;
                    if c then
                      R <- lookupOrInsertTypeName First (getLoc (Tok Q2)) ;;
                      r2 <- parseIdentifier expected_identifier_in_decl "func" ;;
                      ret (Some R, r2)
                    else ret (None, Some First)
                | Some R => ret (Some R, Some First)
                end Q3 = Ok (Receiver, Some Name) Q4).
  { destruct Hreceiver as [(Hcc & -> & -> & ->)|(-> & Hcc & R & Qr & EL & -> & EI)].
    - destruct ReceiverTy as [R|]; [reflexivity|].
      unfold bind. rewrite consumeIf_eq, (Hcc eq_refl). reflexivity.
    - unfold bind at 1. rewrite consumeIf_eq, Hcc.
      rewrite (bind_eq _ _ _ _ _ EL), (bind_eq _ _ _ _ _ EI). reflexivity. }
  rewrite (bind_eq _ _ _ _ _ Hrn). cbn [fst snd].
  unfold bind at 1. cbn [gets]. rewrite Hparen. cbn [negb].
  rewrite (bind_eq _ _ _ _ _ E4).
  unfold bind at 1. cbn [pushScope modify].
  fold Base. fold FuncTy.
  rewrite (bind_eq _ _ _ _ _ E5).
  unfold bind at 1. cbn [gets]. unfold bind at 1. cbn [modify].
  unfold bind at 1. cbn [curTokIs gets].
  change (Tok (withCurDeclContext (DC_FuncExpr FE) Q6)) with (Tok Q6).
  assert (Hstep : exists Q8,
             (if Token_is (Tok Q6) tok_l_brace
              then
                B <- parseStmtBrace invalid_diagnostic ;;
                match B with
                | Some B => FuncExpr_setBody FE B ;;; ret (Some FE)
                | None => ret None
                end
              else ret None) (withCurDeclContext (DC_FuncExpr FE) Q6)
             = Ok match Body with Some _ => Some FE | None => None end Q8 /\
             DeclArena Q8 = DeclArena Q7 /\ ScopeInfo Q8 = ScopeInfo Q7).
  { destruct Hbody as [[Hbrace Ebody]|(Hbrace & -> & ->)]; rewrite Hbrace.
    - rewrite (bind_eq _ _ _ _ _ Ebody). destruct Body as [B|].
      + eexists. split; [reflexivity|]. split; reflexivity.
      + eexists. split; [reflexivity|]. split; reflexivity.
    - eexists. split; [reflexivity|]. split; reflexivity. }
  destruct Hstep as (Q8 & Estep & HA & HS).
  rewrite (bind_eq _ _ _ _ _ Estep).
  unfold bind at 1. cbn [modify]. unfold bind at 1. cbn [popScope modify].
  unfold bind at 1. cbn [gets]. unfold bind at 1. cbn [allocDecl].
  unfold bind at 1. rewrite addToScope_spec.
  eexists. split.
  { unfold ret. cbn [DeclArena withScopeInfo withCurDeclContext].
    rewrite HA. reflexivity. }
  split; [|split].
  - unfold getDecl. cbn [DeclArena withScopeInfo withDeclArena].
    subst FD. rewrite <- HA. apply list_lookup_middle. reflexivity.
  - intros Harrow. subst Base. destruct Written; try reflexivity. discriminate.
  - rewrite currentFrame_insertInnermost. left. f_equal.
    unfold getName, getDecl. cbn [DeclArena withScopeInfo withDeclArena].
    rewrite list_lookup_middle by reflexivity. reflexivity.
Qed.

End FuncType.

(** The run of the theorem above on [func Point::area() -> Int {}]: the
    name before [::] is looked up as the receiver type, and with [Point]
    and [Int] the aliases 0 and 1, the function [area] has type
    [(this : Point) -> (() -> Int)]. *)
Lemma parseDeclFunc_type_witness :
  exists P',
    @parseDeclFunc Frontend.collaborators None
                   (Frontend.start Frontend.funcArea) = Ok (Some 2) P' /\
    getName P' 0 = "Point" /\ getName P' 1 = "Int" /\
    getDecl P' 2
    = Some (mkDecl
              (FuncDecl "area"
                 (FunctionType (TupleType [(NameAliasType 0, "this")])
                    (FunctionType (TupleType []) (NameAliasType 1)))
                 (Some 0) noAttributes) 1 DC_TranslationUnit) /\
    In ("area", 2) (currentFrame P').
Proof.
  pose (FuncTy := FunctionType (TupleType [(NameAliasType 0, "this")])
                    (FunctionType (TupleType []) (NameAliasType 1))).
  pose (Q1 := stateOf (consumeTokenK kw_func (Frontend.start Frontend.funcArea))).
  pose (Q2 := stateOf (parseAttributeList noAttributes Q1)).
  pose (Q3 := stateOf (parseIdentifier expected_identifier_in_decl "func" Q2)).
  pose (Qr := stateOf (lookupOrInsertTypeName "Point" 2 (next Q3))).
  pose (Q4 := stateOf (parseIdentifier expected_identifier_in_decl "func" Qr)).
  pose (Q5 := stateOf (@parseType Frontend.collaborators expected_type Q4)).
  pose (Q6 := stateOf (@actOnFuncExprStart Frontend.collaborators 1 FuncTy
                         (withScopeInfo (pushFrame (ScopeInfo Q5)) Q5))).
  pose (Q7 := stateOf (@parseStmtBrace Frontend.collaborators invalid_diagnostic
                         (withCurDeclContext (DC_FuncExpr 0) Q6))).
  assert (E1 : consumeTokenK kw_func (Frontend.start Frontend.funcArea)
               = Ok 1 Q1) by (vm_compute; reflexivity).
  assert (E2 : parseAttributeList noAttributes Q1 = Ok noAttributes Q2)
    by (vm_compute; reflexivity).
  assert (E3 : parseIdentifier expected_identifier_in_decl "func" Q2
               = Ok (Some "Point") Q3) by (vm_compute; reflexivity).
  assert (EL : lookupOrInsertTypeName "Point" (getLoc (Tok Q2)) (next Q3)
               = Ok (NameAliasType 0) Qr) by (vm_compute; reflexivity).
  assert (EI : parseIdentifier expected_identifier_in_decl "func" Qr
               = Ok (Some "area") Q4) by (vm_compute; reflexivity).
  assert (E4 : @parseType Frontend.collaborators expected_type Q4
               = Ok (Some (FunctionType (TupleType []) (NameAliasType 1))) Q5)
    by (vm_compute; reflexivity).
  assert (E5 : @actOnFuncExprStart Frontend.collaborators 1 FuncTy
                 (withScopeInfo (pushFrame (ScopeInfo Q5)) Q5) = Ok 0 Q6)
    by (vm_compute; reflexivity).
  assert (E6 : @parseStmtBrace Frontend.collaborators invalid_diagnostic
                 (withCurDeclContext (DC_FuncExpr 0) Q6) = Ok (Some (mkStmt 0)) Q7)
    by (vm_compute; reflexivity).
  destruct (@parseDeclFunc_type Frontend.collaborators
              None (Some (NameAliasType 0)) _ _ _ _ _ _ _ _ _ _ "Point" "area"
              _ _ (Some (mkStmt 0)) E1 E2 E3
              (or_intror (conj eq_refl (conj eq_refl
                 (ex_intro _ (NameAliasType 0)
                    (ex_intro _ Qr (conj EL (conj eq_refl EI)))))))
              eq_refl E4 E5 (or_introl (conj eq_refl E6)))
    as (P' & Hrun & Hget & _ & Hin).
  exists P'. split; [exact Hrun|].
  assert (HN : getName P' 0 = "Point" /\ getName P' 1 = "Int").
  { vm_compute in Hrun. injection Hrun as <-. split; reflexivity. }
  split; [exact (proj1 HN)|]. split; [exact (proj2 HN)|].
  split; [exact Hget | exact Hin].
Defined.

(** ** Unions without a name *)

Lemma find_previous_definition_by_name (P : Parser) (N : Identifier)
      (EltDecls : list DeclId) (Kept : list OneOfElementInfo) :
  Forall2 (fun D e => getName P D = EI_Name e /\ getDeclLoc P D = EI_NameLoc e)
          EltDecls Kept ->
  match List.find (fun D => String.eqb (getName P D) N) EltDecls with
  | Some D => [mkDiag (getDeclLoc P D) previous_definition N]
  | None => []
  end
  = match List.find (fun K => String.eqb (EI_Name K) N) Kept with
    | Some First => [mkDiag (EI_NameLoc First) previous_definition N]
    | None => []
    end.
Proof.
  induction 1 as [|D e EltDecls Kept [HN HL] _ IH]; [reflexivity|].
  cbn [List.find]. rewrite HN.
  destruct (String.eqb (EI_Name e) N); [rewrite HL; reflexivity | exact IH].
Qed.

(** The element loop of [actOnOneOfType] for a union without a name: every
    kept case is declared with the placeholder type. *)
Lemma actOnOneOfElements_placeholder (TmpTy : Ty) (Elts : list OneOfElementInfo) :
  forall (Seen : list Identifier) (EltDecls : list DeclId)
         (Kept : list OneOfElementInfo) (P : Parser),
    (forall N, existsb (String.eqb N) Seen
               = existsb (String.eqb N) (List.map EI_Name Kept)) ->
    Forall2 (fun D e => getDecl P D
                        = Some (caseDeclOfType TmpTy (CurDeclContext P) e))
            EltDecls Kept ->
    exists New P',
      actOnOneOfElements TmpTy false Elts Seen EltDecls P
      = Ok (EltDecls ++ New) P' /\
      Forall2 (fun D e => getDecl P' D
                          = Some (caseDeclOfType TmpTy (CurDeclContext P) e))
              (EltDecls ++ New) (Kept ++ firstOccurrencesFrom Kept Elts) /\
      P' = withDiags (Diags P ++ duplicateDiagsFrom Kept Elts)
                     (withDeclArena (DeclArena P') P).
Proof.
  induction Elts as [|Elt Elts IH]; intros Seen EltDecls Kept P Hseen Hdecls.
  - exists [], P. cbn [actOnOneOfElements firstOccurrencesFrom duplicateDiagsFrom].
    rewrite !app_nil_r. split; [reflexivity|]. split; [assumption|].
    destruct P; reflexivity.
  - cbn [actOnOneOfElements firstOccurrencesFrom duplicateDiagsFrom].
    rewrite Hseen.
    destruct (existsb (String.eqb (EI_Name Elt)) (List.map EI_Name Kept)) eqn:Hdup.
    + unfold bind at 1. cbn [diagnose modify].
      unfold bind at 1. rewrite diagnose_previous_definition.
      cbn [Diags withDiags].
      rewrite (find_previous_definition_by_name _ _ _ Kept).
      2:{ eapply Forall2_impl; [exact Hdecls|].
          intros D e HD. unfold getName, getDeclLoc, getDecl in *.
          cbn [DeclArena withDiags]. rewrite HD. split; reflexivity. }
      match goal with
      | |- context [actOnOneOfElements _ _ _ _ _ ?P2] =>
          destruct (IH Seen EltDecls Kept P2 Hseen Hdecls)
            as (New & P' & Hrun & Hall & HP')
      end.
      exists New, P'. split; [exact Hrun|]. split; [exact Hall|].
      rewrite HP' at 1. cbn [Diags withDiags withDeclArena].
      rewrite <- !app_assoc. reflexivity.
    + unfold bind at 1. cbn [gets]. unfold bind at 1. cbn [allocDecl].
      match goal with
      | |- context [actOnOneOfElements _ _ _ ?Seen' ?EltDecls' ?P1] =>
          destruct (IH Seen' EltDecls' (Kept ++ [Elt]) P1)
            as (New & P' & Hrun & Hall & HP')
      end.
      * intros N. cbn [existsb]. rewrite map_app, existsb_app, Hseen.
        cbn [List.map existsb]. rewrite orb_false_r. apply orb_comm.
      * apply Forall2_app.
        -- eapply Forall2_impl; [exact Hdecls|].
           intros D e HD. unfold getDecl in *.
           cbn [DeclArena withDeclArena CurDeclContext].
           rewrite lookup_app_l; [exact HD|].
           eapply lookup_lt_Some. exact HD.
        -- constructor; [|constructor].
           unfold getDecl. cbn [DeclArena withDeclArena CurDeclContext].
           rewrite list_lookup_middle by reflexivity.
           unfold caseDeclOfType. destruct (EI_EltType Elt); reflexivity.
      * exists (length (DeclArena P) :: New), P'.
        rewrite <- app_assoc in Hrun.
        rewrite <- (app_assoc EltDecls), <- (app_assoc Kept) in Hall.
        cbn [app] in Hrun, Hall.
        split; [exact Hrun|]. split; [exact Hall|].
        rewrite HP' at 1. reflexivity.
Qed.

(** The loop that gives the cases of a union without a name their type
    once the union exists. *)
Lemma forEach_setType_cases (U : Ty) (DC : DeclContext) (l : list DeclId) :
  forall P,
  exists P',
    forEach l
            (fun Elt P =>
               let EltTy :=
                 match getArgumentType P Elt with
                 | Some ArgTy => FunctionType ArgTy U
                 | None => U
                 end in
               setType Elt EltTy P) P = Ok tt P' /\
    P' = withDeclArena (DeclArena P') P /\
    forall D e T,
      getDecl P D = Some (caseDeclOfType T DC e) ->
      getDecl P' D
      = Some (caseDeclOfType (if decide (elem_of D l) then caseType U e else T)
                             DC e).
Proof.
  induction l as [|x l IH]; intros P.
  - exists P. split; [reflexivity|]. split; [symmetry; apply withDeclArena_id|].
    intros D e T HD.
    destruct (decide (elem_of D [])) as [Hin|]; [inversion Hin | exact HD].
  - cbn [forEach]. unfold bind at 1. cbv zeta.
    unfold setType at 1. rewrite alterDecl_spec.
    set (tx := match getArgumentType P x with
               | Some ArgTy => FunctionType ArgTy U
               | None => U
               end).
    set (P1 := withDeclArena _ P).
    destruct (IH P1) as (P' & Hrun & HP' & Hget).
    exists P'. split; [exact Hrun|]. split.
    { rewrite HP' at 1. reflexivity. }
    intros D e T HD.
    assert (H1 : getDecl P1 D
                 = Some (caseDeclOfType (if decide (x = D) then caseType U e else T)
                                        DC e)).
    { unfold P1. rewrite getDecl_alter, HD.
      destruct (decide (x = D)) as [->|Hne]; [|reflexivity].
      cbn. unfold caseDeclOfType, Decl_setType. cbn. do 3 f_equal.
      subst tx. unfold getArgumentType. rewrite HD. reflexivity. }
    rewrite (Hget D e _ H1).
    destruct (decide (x = D)) as [->|Hne].
    + destruct (decide (elem_of D (D :: l))) as [_|Hn];
        [|exfalso; apply Hn; left].
      destruct (decide (elem_of D l)); reflexivity.
    + destruct (decide (elem_of D l)) as [Hin|Hnin];
        destruct (decide (elem_of D (x :: l))) as [Hin'|Hnin']; try reflexivity.
      * exfalso. apply Hnin'. right. exact Hin.
      * exfalso. inversion Hin'; subst; [congruence | contradiction].
Qed.

(** X20.  For a union without a name, whose member declarations are all
    present, [actOnOneOfType] returns a union whose cases are the first
    occurrences of the written case names, in order.  The placeholder
    type the cases are created with is replaced once the union exists: a
    case without payload has the type of the union itself, a case with a
    payload is a constructor from its payload type to the union; every
    case has the union as its declaration context, and the duplicates are
    reported as for a named union. *)
Theorem actOnOneOfType_without_name
        (OneOfLoc : SourceLoc) (Attrs : DeclAttributes)
        (Elts : list OneOfElementInfo) (MemberDecls : list (option DeclId))
        (P : Parser) :
  Forall (fun D : option DeclId => D <> None) MemberDecls ->
  exists (Result : nat) (P' : Parser) (EltDecls : list DeclId),
    actOnOneOfType OneOfLoc Attrs Elts MemberDecls None P = Ok Result P' /\
    OneOfTypes P' !! Result
    = Some (mkOneOfType OneOfLoc EltDecls (CurDeclContext P)) /\
    Forall2 (fun D Elt =>
               getDecl P' D
               = Some (caseDeclOfType (caseType (OneOfType Result) Elt)
                                      (DC_OneOfType Result) Elt))
            EltDecls (firstOccurrences Elts) /\
    Diags P'
    = Diags P
      ++ (if negb (Attributes_empty Attrs)
          then [mkDiag (LSquareLoc Attrs) oneof_attributes ""] else [])
      ++ duplicateDiags Elts.
Proof.
  intros Hmembers. unfold actOnOneOfType.
  unfold bind at 1. rewrite when_diagnose.
  set (Q1 := withDiags _ P).
  destruct (actOnOneOfElements_placeholder TupleType_getEmpty Elts [] [] [] Q1)
    as (EltDecls & Q2 & Hloop & Hall & HQ2); [reflexivity | constructor |].
  cbn [app] in Hloop, Hall. rewrite (bind_eq _ _ _ _ _ Hloop).
  unfold bind at 1. cbn [gets]. unfold bind at 1. cbn [OneOfType_getNew].
  set (R := length (OneOfTypes Q2)).
  set (Q4 := withOneOfTypes _ Q2).
  destruct (forEach_setDeclContext (DC_OneOfType R) EltDecls Q4)
    as (Q5 & Hctx & HQ5 & Hget5).
  rewrite (bind_eq _ _ _ _ _ Hctx).
  destruct (forEach_members_total (DC_OneOfType R) MemberDecls Q5 Hmembers)
    as (Q6 & Hmem).
  rewrite (bind_eq _ _ _ _ _ Hmem).
  apply forEach_members in Hmem as [HQ6 Hget6].
  destruct (forEach_setType_cases (OneOfType R) (DC_OneOfType R) EltDecls Q6)
    as (Q7 & Hty & HQ7 & Hget7).
  rewrite (bind_eq _ _ _ _ _ Hty).
  exists R, Q7, EltDecls. split; [reflexivity|].
  apply withDeclArena_frame in HQ5 as (HD5 & HO5 & _ & _).
  apply withDeclArena_frame in HQ6 as (HD6 & HO6 & _ & _).
  apply withDeclArena_frame in HQ7 as (HD7 & HO7 & _ & _).
  cbn [Diags OneOfTypes withOneOfTypes Q4] in HD5, HO5.
  split.
  { rewrite HO7, HO6, HO5. unfold R.
    replace (CurDeclContext P) with (CurDeclContext Q2)
      by (rewrite HQ2; reflexivity).
    apply list_lookup_middle. reflexivity. }
  split.
  - eapply Forall2_impl_In; [exact Hall|].
    intros D e Hin HD. cbn [CurDeclContext withDiags Q1] in HD.
    assert (H5 : getDecl Q5 D
                 = Some (caseDeclOfType TupleType_getEmpty (DC_OneOfType R) e)).
    { rewrite Hget5.
      destruct (decide (elem_of D EltDecls)) as [_|Hn];
        [|exfalso; apply Hn, list_elem_of_In, Hin].
      change (getDecl Q4 D) with (getDecl Q2 D). rewrite HD. reflexivity. }
    assert (H6 : getDecl Q6 D
                 = Some (caseDeclOfType TupleType_getEmpty (DC_OneOfType R) e)).
    { destruct (Hget6 D) as [-> | ->]; rewrite H5; reflexivity. }
    rewrite (Hget7 D e _ H6).
    destruct (decide (elem_of D EltDecls)) as [_|Hn];
      [reflexivity | exfalso; apply Hn, list_elem_of_In, Hin].
  - rewrite HD7, HD6, HD5, HQ2. cbn [Diags withDiags Q1].
    rewrite <- app_assoc. reflexivity.
Qed.

(** The run of the theorem above on the cases [a], [b : ()] and a second
    [a]: the union 0 has the cases [a], of type the union itself, and [b],
    a constructor from the empty tuple to the union. *)
Lemma actOnOneOfType_without_name_witness :
  exists P' A B,
    actOnOneOfType 1 noAttributes
      [mkOneOfElementInfo "a" 2 None;
       mkOneOfElementInfo "b" 4 (Some (TupleType []));
       mkOneOfElementInfo "a" 6 None] [] None (Frontend.start [])
    = Ok 0 P' /\
    OneOfTypes P' !! 0%nat = Some (mkOneOfType 1 [A; B] DC_TranslationUnit) /\
    getEltType P' A = Some (OneOfType 0) /\
    getEltType P' B = Some (FunctionType (TupleType []) (OneOfType 0)) /\
    Diags P' = [mkDiag 6 duplicate_oneof_element "a";
                mkDiag 2 previous_definition "a"].
Proof.
  destruct (actOnOneOfType_without_name 1 noAttributes
              [mkOneOfElementInfo "a" 2 None;
               mkOneOfElementInfo "b" 4 (Some (TupleType []));
               mkOneOfElementInfo "a" 6 None] [] (Frontend.start [])
              (List.Forall_nil _))
    as (Result & P' & EltDecls & Hrun & Hty & Hall & Hdiags).
  assert (HR : Result = 0).
  { vm_compute in Hrun. injection Hrun as <- _. reflexivity. }
  subst Result.
  assert (Hfo : firstOccurrences
                  [mkOneOfElementInfo "a" 2 None;
                   mkOneOfElementInfo "b" 4 (Some (TupleType []));
                   mkOneOfElementInfo "a" 6 None]
                = [mkOneOfElementInfo "a" 2 None;
                   mkOneOfElementInfo "b" 4 (Some (TupleType []))])
    by reflexivity.
  rewrite Hfo in Hall.
  inversion Hall as [|A e1 l1 k1 HA Hrest]; subst.
  inversion Hrest as [|B e2 l2 k2 HB Hrest2]; subst.
  inversion Hrest2; subst.
  exists P', A, B. split; [exact Hrun|]. split; [exact Hty|].
  unfold getEltType. rewrite HA, HB.
  split; [reflexivity|]. split; [reflexivity|].
  rewrite Hdiags. reflexivity.
Defined.

(** ** Protocol declarations *)

Section ProtocolDecl.

Context {ext : Collaborators}.

(** X21.  A protocol body may only hold func and var members.  On any other
    token before the closing brace, the end of the file included,
    [parseDeclProtocol] answers with a null declaration and reports
    [expected_protocol_member] at that token, which it does not consume.
    No protocol type is built and nothing is undone: the alias registered
    for the protocol's name stays as it is. *)
Theorem parseDeclProtocol_rejects_other_members
        (n : nat) (P Q1 Q2 Q3 Q4 : Parser) (ProtocolLoc : SourceLoc)
        (Attributes : DeclAttributes) (ProtocolName : Identifier)
        (TAD : DeclId) :
  consumeTokenK kw_protocol P = Ok ProtocolLoc Q1 ->
  parseAttributeList noAttributes Q1 = Ok Attributes Q2 ->
  parseIdentifier expected_identifier_in_decl "protocol" Q2
  = Ok (Some ProtocolName) Q3 ->
  addTypeAliasToScope (getLoc (Tok Q2)) ProtocolName None Q3 = Ok TAD Q4 ->
  Token_is (Tok Q4) tok_l_brace = true ->
  Token_is (Tok (next Q4)) tok_r_brace = false ->
  Token_is (Tok (next Q4)) kw_func = false ->
  Token_is (Tok (next Q4)) kw_var = false ->
  parseDeclProtocol (S n) P
  = Ok None
       (reported [mkDiag (getLoc (Tok (next Q4))) expected_protocol_member ""]
                 (next Q4)).
Proof.
  intros E1 E2 E3 E4 Hbrace Hrb Hfunc Hvar. unfold parseDeclProtocol.
  rewrite (bind_eq _ _ _ _ _ E1), (bind_eq _ _ _ _ _ E2).
  unfold bind at 1. cbn [tokLoc gets].
  rewrite (bind_eq _ _ _ _ _ E3), (bind_eq _ _ _ _ _ E4).
  unfold parseProtocolBody.
  unfold bind at 1. unfold bind at 1. rewrite parseToken_eq, Hbrace.
  unfold bind at 1. cbn [parseProtocolElements].
  unfold Token_is in Hrb, Hfunc, Hvar.
  destruct (getKind (Tok (next Q4))); try discriminate; reflexivity.
Qed.

(** X22.  A protocol with an empty body is accepted: [parseDeclProtocol]
    answers with the protocol's alias, completed to a new protocol type
    without members whose parent is the current declaration context; the
    closing brace is consumed and nothing is reported unless the protocol
    carries attributes. *)
Theorem parseDeclProtocol_empty_body
        (n : nat) (P Q1 Q2 Q3 Q4 : Parser) (ProtocolLoc : SourceLoc)
        (Attributes : DeclAttributes) (ProtocolName : Identifier)
        (TAD : DeclId) :
  consumeTokenK kw_protocol P = Ok ProtocolLoc Q1 ->
  parseAttributeList noAttributes Q1 = Ok Attributes Q2 ->
  parseIdentifier expected_identifier_in_decl "protocol" Q2
  = Ok (Some ProtocolName) Q3 ->
  addTypeAliasToScope (getLoc (Tok Q2)) ProtocolName None Q3 = Ok TAD Q4 ->
  Token_is (Tok Q4) tok_l_brace = true ->
  Token_is (Tok (next Q4)) tok_r_brace = true ->
  let NewProto := length (ProtocolTypes Q4) in
  exists P',
    parseDeclProtocol (S n) P = Ok (Some TAD) P' /\
    ProtocolTypes P'
    = ProtocolTypes Q4 ++ [mkProtocolType ProtocolLoc [] (CurDeclContext Q4)] /\
    (isaTypeAliasDecl P' TAD = true ->
     getUnderlyingType P' TAD = Some (ProtocolType NewProto)) /\
    Tok P' = Tok (next (next Q4)) /\
    Diags P'
    = Diags Q4
      ++ (if negb (Attributes_empty Attributes)
          then [mkDiag (LSquareLoc Attributes) protocol_attributes ""] else []).
Proof.
  intros E1 E2 E3 E4 Hbrace Hrb NewProto. unfold parseDeclProtocol.
  rewrite (bind_eq _ _ _ _ _ E1), (bind_eq _ _ _ _ _ E2).
  unfold bind at 1. cbn [tokLoc gets].
  rewrite (bind_eq _ _ _ _ _ E3), (bind_eq _ _ _ _ _ E4).
  unfold parseProtocolBody.
  unfold bind at 1. unfold bind at 1. rewrite parseToken_eq, Hbrace.
  assert (Helts : parseProtocolElements (S n) (getAliasType TAD) [] (next Q4)
                  = Ok (Some []) (next Q4)).
  { cbn [parseProtocolElements]. unfold Token_is in Hrb.
    destruct (getKind (Tok (next Q4))) eqn:Hk; try discriminate.
    unfold bind, gets, Token_isNot, Token_is. rewrite Hk. reflexivity. }
  rewrite (bind_eq _ _ _ _ _ Helts).
  rewrite (bind_eq _ _ _ _ _ (consumeTokenK_eq _ _ Hrb)).
  unfold bind at 1. rewrite when_diagnose.
  unfold bind at 1. cbn [gets]. unfold bind at 1. cbn [ProtocolType_getNew].
  unfold bind at 1. cbn [forEach]. unfold ret at 1.
  unfold bind at 1. unfold setUnderlyingType. rewrite alterDecl_spec.
  eexists. split; [reflexivity|].
  split; [reflexivity|]. split; [|split; reflexivity].
  apply getUnderlyingType_completed.
Qed.

End ProtocolDecl.

(** The run of the theorem above on [protocol P { typealias]. *)
Lemma parseDeclProtocol_rejects_other_members_witness :
  exists P',
    @parseDeclProtocol Frontend.collaborators 1
       (Frontend.start Samples.protocolForeign) = Ok None P' /\
    Diags P' = [mkDiag 4 expected_protocol_member ""] /\
    getKind (Tok P') = kw_typealias /\
    ProtocolTypes P' = [] /\ getName P' 0 = "P".
Proof.
  pose (Q1 := stateOf (consumeTokenK kw_protocol
                         (Frontend.start Samples.protocolForeign))).
  pose (Q2 := stateOf (parseAttributeList noAttributes Q1)).
  pose (Q3 := stateOf (parseIdentifier expected_identifier_in_decl "protocol" Q2)).
  pose (Q4 := stateOf (addTypeAliasToScope 2 "P" None Q3)).
  assert (E1 : consumeTokenK kw_protocol (Frontend.start Samples.protocolForeign)
               = Ok 1 Q1) by (vm_compute; reflexivity).
  assert (E2 : parseAttributeList noAttributes Q1 = Ok noAttributes Q2)
    by (vm_compute; reflexivity).
  assert (E3 : parseIdentifier expected_identifier_in_decl "protocol" Q2
               = Ok (Some "P") Q3) by (vm_compute; reflexivity).
  assert (E4 : addTypeAliasToScope (getLoc (Tok Q2)) "P" None Q3 = Ok 0 Q4)
    by (vm_compute; reflexivity).
  eexists. split.
  - exact (@parseDeclProtocol_rejects_other_members Frontend.collaborators
             0 _ _ _ _ _ _ _ _ _ E1 E2 E3 E4 eq_refl eq_refl eq_refl eq_refl).
  - vm_compute. repeat split; reflexivity.
Defined.

(** The run of the theorem above on [protocol P {}]. *)
Lemma parseDeclProtocol_empty_body_witness :
  exists P',
    @parseDeclProtocol Frontend.collaborators 1
       (Frontend.start Samples.protocolEmpty) = Ok (Some 0) P' /\
    ProtocolTypes P' = [mkProtocolType 1 [] DC_TranslationUnit] /\
    getUnderlyingType P' 0 = Some (ProtocolType 0) /\
    Diags P' = [].
Proof.
  pose (Q1 := stateOf (consumeTokenK kw_protocol
                         (Frontend.start Samples.protocolEmpty))).
  pose (Q2 := stateOf (parseAttributeList noAttributes Q1)).
  pose (Q3 := stateOf (parseIdentifier expected_identifier_in_decl "protocol" Q2)).
  pose (Q4 := stateOf (addTypeAliasToScope 2 "P" None Q3)).
  assert (E1 : consumeTokenK kw_protocol (Frontend.start Samples.protocolEmpty)
               = Ok 1 Q1) by (vm_compute; reflexivity).
  assert (E2 : parseAttributeList noAttributes Q1 = Ok noAttributes Q2)
    by (vm_compute; reflexivity).
  assert (E3 : parseIdentifier expected_identifier_in_decl "protocol" Q2
               = Ok (Some "P") Q3) by (vm_compute; reflexivity).
  assert (E4 : addTypeAliasToScope (getLoc (Tok Q2)) "P" None Q3 = Ok 0 Q4)
    by (vm_compute; reflexivity).
  destruct (@parseDeclProtocol_empty_body Frontend.collaborators
              0 _ _ _ _ _ _ _ _ _ E1 E2 E3 E4 eq_refl eq_refl)
    as (P' & Hrun & Hty & Hund & _ & Hdiags).
  exists P'. split; [exact Hrun|]. split; [rewrite Hty; reflexivity|].
  split; [|rewrite Hdiags; reflexivity].
  apply Hund. vm_compute in Hrun. injection Hrun as <-. reflexivity.
Defined.

(** ** The members of a protocol body *)

Section VarNameBudget.

(** A larger recursion budget does not change what [parseVarName] answers. *)
Lemma parseVarName_mono (n : nat) :
  (forall m P r P',
      n <= m -> parseVarName n P = Ok r P' -> parseVarName m P = Ok r P') /\
  (forall m Names P r P',
      n <= m -> parseVarNameElements n Names P = Ok r P' ->
      parseVarNameElements m Names P = Ok r P').
Proof.
  induction n as [|n [IHname IHelts]]; [split; intros; discriminate|]. split.
  - intros m P r P' Hle Hrun. destruct m as [|m]; [lia|].
    assert (Hle' : n <= m) by lia.
    cbn [parseVarName] in Hrun |- *.
    destruct (Token_is (Tok P) tok_identifier || Token_is (Tok P) tok_oper);
      [exact Hrun|].
    destruct (Token_isNot (Tok P) tok_l_paren
              && Token_isNot (Tok P) tok_l_paren_space); [exact Hrun|].
    bind_inv Hrun as LPLoc Qa Ea. rewrite (bind_eq _ _ _ _ _ Ea).
    bind_inv Hrun as more Qb Eb. rewrite (bind_eq _ _ _ _ _ Eb).
    bind_inv Hrun as r0 Qc Ec.
    assert (Ec' : (if more then parseVarNameElements m [] else ret (Some [])) Qb
                  = Ok r0 Qc).
    { destruct more; [apply IHelts; assumption | exact Ec]. }
    rewrite (bind_eq _ _ _ _ _ Ec'). exact Hrun.
  - intros m Names P r P' Hle Hrun. destruct m as [|m]; [lia|].
    assert (Hle' : n <= m) by lia.
    cbn [parseVarNameElements] in Hrun |- *.
    bind_inv Hrun as r0 Qa Ea.
    rewrite (bind_eq _ _ _ _ _ (IHname _ _ _ _ Hle' Ea)).
    destruct r0 as [Elt|]; [|exact Hrun].
    bind_inv Hrun as c Qb Eb. rewrite (bind_eq _ _ _ _ _ Eb).
    destruct c; [apply IHelts; assumption | exact Hrun].
Qed.

End VarNameBudget.

Section ProtocolMemberLoop.

Context {ext : Collaborators}.

Lemma parseDeclVar_mono (n m : nat) (Decls : list (option DeclId))
      (P P' : Parser) (r : bool * list (option DeclId)) :
  n <= m -> parseDeclVar n Decls P = Ok r P' -> parseDeclVar m Decls P = Ok r P'.
Proof.
  intros Hle Hrun. unfold parseDeclVar in Hrun |- *.
  bind_inv Hrun as VarLoc Q1 E1. rewrite (bind_eq _ _ _ _ _ E1).
  bind_inv Hrun as Attributes Q2 E2. rewrite (bind_eq _ _ _ _ _ E2).
  bind_inv Hrun as r0 Q3 E3.
  rewrite (bind_eq _ _ _ _ _ (proj1 (parseVarName_mono n) _ _ _ _ Hle E3)).
  exact Hrun.
Qed.

Lemma parseDeclVarSimple_mono (n m : nat) (P P' : Parser) (r : option DeclId) :
  n <= m -> parseDeclVarSimple n P = Ok r P' -> parseDeclVarSimple m P = Ok r P'.
Proof.
  intros Hle Hrun. unfold parseDeclVarSimple in Hrun |- *.
  bind_inv Hrun as CurLoc Q1 E1. rewrite (bind_eq _ _ _ _ _ E1).
  bind_inv Hrun as r0 Q2 E2.
  rewrite (bind_eq _ _ _ _ _ (parseDeclVar_mono _ _ _ _ _ _ Hle E2)).
  exact Hrun.
Qed.

(** On the closing brace the element loop stops with what it has collected. *)
Lemma parseProtocolElements_at_brace (n : nat) (ThisType : Ty)
      (Elements : list DeclId) (P : Parser) :
  Token_is (Tok P) tok_r_brace = true ->
  parseProtocolElements (S n) ThisType Elements P = Ok (Some Elements) P.
Proof.
  intros Hb. cbn [parseProtocolElements]. unfold Token_is in Hb.
  destruct (getKind (Tok P)) eqn:Hk; try discriminate.
  unfold bind, gets, Token_isNot, Token_is. rewrite Hk. reflexivity.
Qed.

(** The element loop collects every member, in the order they are
    written: with a budget that covers the members and the var parser,
    it answers with exactly the declarations the member parsers gave. *)
Lemma parseProtocolElements_collects (k : nat) (ThisType : Ty)
      (P P' : Parser) (Members : list DeclId) :
  protocolMembers k ThisType P Members P' ->
  forall n Elements,
    k + length Members < n ->
    parseProtocolElements n ThisType Elements P
    = Ok (Some (Elements ++ Members)) P'.
Proof.
  induction 1 as [P Hb|P P1 P' D Ds Hk Hrun _ IH|P P1 P' D Ds Hk Hrun _ IH];
    intros n Elements Hn; (destruct n as [|n]; [lia|]).
  - rewrite app_nil_r. apply parseProtocolElements_at_brace, Hb.
  - cbn [length] in Hn.
    assert (Hrest : (more <- gets (fun P => Token_isNot (Tok P) tok_r_brace) ;;
                     if more
                     then parseProtocolElements n ThisType (Elements ++ [D])
                     else ret (Some (Elements ++ [D]))) P1
                    = Ok (Some (Elements ++ D :: Ds)) P').
    { specialize (IH n (Elements ++ [D]) ltac:(lia)).
      rewrite <- app_assoc in IH. cbn [app] in IH.
      unfold bind, gets, Token_isNot.
      destruct (Token_is (Tok P1) tok_r_brace) eqn:Hb; cbn [negb]; [|exact IH].
      destruct n as [|n]; [lia|].
      rewrite (parseProtocolElements_at_brace _ _ _ _ Hb) in IH.
      injection IH as IH1 IH2. subst P'. rewrite <- IH1. reflexivity. }
    cbn [parseProtocolElements]. unfold Token_is in Hk.
    destruct (getKind (Tok P)) eqn:HK; try discriminate.
    rewrite (bind_eq _ _ _ _ _ Hrun). exact Hrest.
  - cbn [length] in Hn.
    assert (Hrest : (more <- gets (fun P => Token_isNot (Tok P) tok_r_brace) ;;
                     if more
                     then parseProtocolElements n ThisType (Elements ++ [D])
                     else ret (Some (Elements ++ [D]))) P1
                    = Ok (Some (Elements ++ D :: Ds)) P').
    { specialize (IH n (Elements ++ [D]) ltac:(lia)).
      rewrite <- app_assoc in IH. cbn [app] in IH.
      unfold bind, gets, Token_isNot.
      destruct (Token_is (Tok P1) tok_r_brace) eqn:Hb; cbn [negb]; [|exact IH].
      destruct n as [|n]; [lia|].
      rewrite (parseProtocolElements_at_brace _ _ _ _ Hb) in IH.
      injection IH as IH1 IH2. subst P'. rewrite <- IH1. reflexivity. }
    cbn [parseProtocolElements]. unfold Token_is in Hk.
    destruct (getKind (Tok P)) eqn:HK; try discriminate.
    assert (Hvar : parseDeclVarSimple n P = Ok (Some D) P1).
    { eapply parseDeclVarSimple_mono; [|exact Hrun]. lia. }
    rewrite (bind_eq _ _ _ _ _ Hvar). exact Hrest.
Qed.

(** C6.  When the opening brace of a protocol body parses and its members
    parse one after the other up to the closing brace, [parseProtocolBody]
    succeeds: the protocol type is built from all these members, in
    order, every member declaration has the finished protocol type as
    its declaration context, and the enclosing type alias is completed to
    that protocol type. *)
Theorem parseProtocolBody_retargets_members
        (k n : nat) (ProtocolLoc : SourceLoc) (Attributes : DeclAttributes)
        (TypeName : DeclId) (P Q1 Q2 : Parser) (Members : list DeclId) :
  parseToken tok_l_brace expected_lbrace_protocol_type P = Ok false Q1 ->
  protocolMembers k (getAliasType TypeName) Q1 Members Q2 ->
  k + length Members < n ->
  let NewProto := length (ProtocolTypes Q2) in
  exists P',
    parseProtocolBody n ProtocolLoc Attributes TypeName P
    = Ok (false, Some (ProtocolType NewProto)) P' /\
    ProtocolTypes P' !! NewProto
    = Some (mkProtocolType ProtocolLoc Members (CurDeclContext Q2)) /\
    (forall D, In D Members -> is_Some (getDecl P' D) ->
               getContextOf P' D = DC_ProtocolType NewProto) /\
    (isaTypeAliasDecl P' TypeName = true ->
     getUnderlyingType P' TypeName = Some (ProtocolType NewProto)).
Proof.
  intros E1 Hmembers Hn NewProto.
  pose proof (parseProtocolElements_collects _ _ _ _ _ Hmembers n [] Hn) as E2.
  cbn [app] in E2.
  pose proof (parseProtocolElements_stops_at_brace _ _ _ _ _ _ E2) as Hbrace.
  unfold parseProtocolBody.
  rewrite (bind_eq _ _ _ _ _ E1), (bind_eq _ _ _ _ _ E2).
  rewrite (bind_eq _ _ _ _ _ (consumeTokenK_matches _ _ Hbrace)).
  set (Q3 := withTok _ _ Q2).
  unfold bind at 1. rewrite when_diagnose.
  set (Q4 := withDiags _ Q3).
  unfold bind at 1. cbn [gets]. unfold bind at 1. cbn [ProtocolType_getNew].
  set (Q6 := withProtocolTypes _ Q4).
  destruct (forEach_setDeclContext (DC_ProtocolType NewProto) Members Q6)
    as (Q7 & Hrun7 & Hsame & Hget).
  change (length (ProtocolTypes Q4)) with NewProto.
  rewrite (bind_eq _ _ _ _ _ Hrun7).
  unfold setUnderlyingType. rewrite (bind_eq _ _ _ _ _ (alterDecl_spec _ _ _)).
  eexists. split; [reflexivity|]. split; [|split].
  - cbn [ProtocolTypes withDeclArena]. rewrite Hsame.
    subst Q6. cbn [ProtocolTypes withProtocolTypes].
    apply list_lookup_middle. reflexivity.
  - intros D Hin Hsome.
    eapply (getContextOf_retargeted _ _ _
              (if decide (TypeName = D)
               then Decl_setUnderlyingType (ProtocolType NewProto)
               else id)); [| |exact Hsome].
    + intros x. destruct (decide (TypeName = D));
        [apply Decl_setUnderlyingType_context | reflexivity].
    + rewrite getDecl_alter, Hget.
      destruct (decide (elem_of D Members)) as [_|Hne];
        [|exfalso; apply Hne, list_elem_of_In, Hin].
      destruct (decide (TypeName = D)); [reflexivity|].
      match goal with |- _ = id <$> ?x => destruct x; reflexivity end.
  - apply getUnderlyingType_completed.
Qed.

End ProtocolMemberLoop.

(** The run of the theorem above on the body of
    [protocol P { func f() -> Int var x : Int }], entered with the stub
    alias [P] as declaration 0: the members [f] and [x] are both
    collected, the context of each is the new protocol type 0, and the
    alias [P] is completed to it.  The last part runs the whole
    declaration through the dispatcher. *)
Lemma parseProtocolBody_retargets_members_witness :
  (exists P' F X,
      @parseProtocolBody Frontend.collaborators 8 1 noAttributes 0
        (Frontend.startAfterAlias "P" Samples.protocolBodyFX)
      = Ok (false, Some (ProtocolType 0)) P' /\
      ProtocolTypes P' !! 0%nat
      = Some (mkProtocolType 1 [F; X] DC_TranslationUnit) /\
      getName P' F = "f" /\ getContextOf P' F = DC_ProtocolType 0 /\
      getName P' X = "x" /\ getContextOf P' X = DC_ProtocolType 0 /\
      getUnderlyingType P' 0 = Some (ProtocolType 0)) /\
  (exists P',
      @parseDecl Frontend.collaborators 9 [] PD_AllowImport
                 (Frontend.start Samples.protocolFX)
      = Ok (false, [Some 0]) P' /\
      getUnderlyingType P' 0 = Some (ProtocolType 0)).
Proof.
  split; [|vm_compute; eexists; repeat split; reflexivity].
  pose (P0 := Frontend.startAfterAlias "P" Samples.protocolBodyFX).
  pose (Q1 := stateOf (parseToken tok_l_brace expected_lbrace_protocol_type P0)).
  pose (Qf := stateOf (@parseDeclFunc Frontend.collaborators
                         (Some (getAliasType 0)) Q1)).
  pose (Qx := stateOf (@parseDeclVarSimple Frontend.collaborators 5 Qf)).
  assert (E1 : parseToken tok_l_brace expected_lbrace_protocol_type P0
               = Ok false Q1) by (vm_compute; reflexivity).
  assert (Ef : @parseDeclFunc Frontend.collaborators (Some (getAliasType 0)) Q1
               = Ok (Some 2) Qf) by (vm_compute; reflexivity).
  assert (Ex : @parseDeclVarSimple Frontend.collaborators 5 Qf
               = Ok (Some 3) Qx) by (vm_compute; reflexivity).
  assert (Hmembers : @protocolMembers Frontend.collaborators 5 (getAliasType 0)
                       Q1 [2; 3] Qx).
  { apply (members_func _ _ Q1 Qf Qx); [reflexivity | exact Ef|].
    apply (members_var _ _ Qf Qx Qx); [reflexivity | exact Ex|].
    apply members_end. reflexivity. }
  destruct (@parseProtocolBody_retargets_members Frontend.collaborators
              5 8 1 noAttributes 0 _ _ _ _ E1 Hmembers)
    as (P' & Hrun & Hty & Hctx & Hund).
  { cbn [length]. lia. }
  assert (HN : length (ProtocolTypes Qx) = 0) by (vm_compute; reflexivity).
  rewrite HN in Hrun, Hty, Hctx, Hund.
  assert (HC : CurDeclContext Qx = DC_TranslationUnit) by (vm_compute; reflexivity).
  rewrite HC in Hty.
  assert (HP : exists P1,
             @parseProtocolBody Frontend.collaborators 8 1 noAttributes 0 P0
             = Ok (false, Some (ProtocolType 0)) P1 /\
             getName P1 2 = "f" /\ getName P1 3 = "x" /\
             is_Some (getDecl P1 2) /\ is_Some (getDecl P1 3) /\
             isaTypeAliasDecl P1 0 = true).
  { vm_compute. eexists. repeat split; try reflexivity; eexists; reflexivity. }
  destruct HP as (P1 & Hrun1 & Hf & Hx & Hsf & Hsx & Halias).
  fold P0 in Hrun. rewrite Hrun in Hrun1. injection Hrun1 as <-.
  exists P', 2, 3. split; [exact Hrun|]. split; [exact Hty|].
  split; [exact Hf|]. split; [apply Hctx; [left; reflexivity | exact Hsf]|].
  split; [exact Hx|].
  split; [apply Hctx; [right; left; reflexivity | exact Hsx]|].
  exact (Hund Halias).
Defined.

(** ** Access paths of the names of a pattern *)

Lemma leavesOfElements_paths (Elts : list DeclVarName) :
  Forall (fun N => forall Path,
              Forall (fun L => exists Suffix, snd L = Path ++ Suffix)
                     (leavesOf N Path) /\
              NoDup (List.map snd (leavesOf N Path))) Elts ->
  forall Path Index,
    Forall (fun L => exists j Suffix, Index <= j /\ snd L = Path ++ j :: Suffix)
           (leavesOfElements Elts Path Index) /\
    NoDup (List.map snd (leavesOfElements Elts Path Index)).
Proof.
  induction 1 as [|E Elts HE _ IH]; intros Path Index;
    cbn [leavesOfElements List.map].
  - split; constructor.
  - destruct (HE (Path ++ [Index])) as [HE1 HE2].
    destruct (IH Path (S Index)) as [IH1 IH2].
    split.
    + apply Forall_app. split.
      * eapply List.Forall_impl; [|exact HE1]. cbn beta.
        intros L [Suffix HL]. exists Index, Suffix.
        rewrite HL, <- app_assoc. split; [lia | reflexivity].
      * eapply List.Forall_impl; [|exact IH1]. cbn beta.
        intros L (j & Suffix & Hj & HL). exists j, Suffix. split; [lia | exact HL].
    + rewrite List.map_app. apply NoDup_app. split; [exact HE2|].
      split; [|exact IH2].
      intros p Hp1 Hp2.
      apply list_elem_of_In, in_map_iff in Hp1 as (L1 & <- & HL1).
      apply list_elem_of_In, in_map_iff in Hp2 as (L2 & Heq & HL2).
      rewrite List.Forall_forall in HE1, IH1.
      destruct (HE1 _ HL1) as [S1 H1].
      destruct (IH1 _ HL2) as (j & S2 & Hj & H2).
      rewrite H1, H2, <- app_assoc in Heq. apply app_inv_head in Heq.
      cbn [app] in Heq. injection Heq as Heq _. lia.
Qed.

Lemma leavesOf_paths (Name : DeclVarName) :
  forall Path,
    Forall (fun L => exists Suffix, snd L = Path ++ Suffix) (leavesOf Name Path) /\
    NoDup (List.map snd (leavesOf Name Path)).
Proof.
  induction Name as [Id Loc|LP Elts RP IH] using DeclVarName_nested_ind;
    intros Path.
  - cbn [leavesOf List.map snd]. split.
    + constructor; [|constructor]. exists []. cbn [snd].
      rewrite app_nil_r. reflexivity.
    + apply NoDup_singleton.
  - rewrite leavesOf_tuple.
    destruct (leavesOfElements_paths Elts IH Path 0) as [H1 H2].
    split; [|exact H2].
    eapply List.Forall_impl; [|exact H1]. cbn beta.
    intros L (j & Suffix & _ & HL). exists (j :: Suffix). exact HL.
Qed.

Section RefPaths.

Context {ext : Collaborators}.

Lemma elementRefs_paths (T : Ty) (VD : DeclId) (DC : DeclContext)
      (Leaves : list (Identifier * SourceLoc * list nat)) :
  (forall p, In p (List.map getAccessPath (elementRefs T VD DC Leaves)) ->
             In p (List.map snd Leaves)) /\
  (NoDup (List.map snd Leaves) ->
   NoDup (List.map getAccessPath (elementRefs T VD DC Leaves))).
Proof.
  induction Leaves as [|L Leaves [IH1 IH2]].
  - split; [intros p []|intros _; constructor].
  - unfold elementRefs in *. cbn [flat_map List.map].
    destruct (getTypeForPath T (snd L)) as [Ty|]; cbn [app List.map].
    + split.
      * intros p [Hp|Hp]; [left; exact Hp | right; apply IH1, Hp].
      * intros Hnd. apply NoDup_cons in Hnd as [Hnot Hnd].
        apply NoDup_cons. split; [|apply IH2, Hnd].
        intros Hin. apply Hnot. apply list_elem_of_In, IH1.
        apply list_elem_of_In in Hin. exact Hin.
    + split.
      * intros p Hp. right. apply IH1, Hp.
      * intros Hnd. apply NoDup_cons in Hnd as [_ Hnd]. apply IH2, Hnd.
Qed.

(** X23.  Whatever the pattern, the type of the variable and the state,
    [actOnVarDeclName] returns, and what it adds to the declarations is a
    run of element references whose access paths all extend the path it
    was called with and are pairwise distinct: no two names of a pattern
    denote the same component of the variable. *)
Theorem actOnVarDeclName_distinct_access_paths
        (Name : DeclVarName) (AccessPath : list nat) (VD : DeclId)
        (Decls : list (option DeclId)) (P : Parser) :
  exists Decls' P' Refs,
    actOnVarDeclName Name AccessPath VD Decls P = Ok Decls' P' /\
    DeclArena P' = DeclArena P ++ Refs /\
    Forall (fun D => isElementRef D = true /\
                     exists Suffix, getAccessPath D = AccessPath ++ Suffix) Refs /\
    NoDup (List.map getAccessPath Refs).
Proof.
  destruct (actOnVarDeclName_bound Name AccessPath VD Decls P)
    as (P' & Hrun & Harena & _).
  destruct (leavesOf_paths Name AccessPath) as [Hpre Hnd].
  destruct (elementRefs_paths (getVarType P VD) VD (CurDeclContext P)
              (leavesOf Name AccessPath)) as [Hin Hnd'].
  eexists _, P', _. split; [exact Hrun|]. split; [exact Harena|]. split.
  - apply List.Forall_forall. intros D HD. split.
    + pose proof (elementRefs_are_refs (getVarType P VD) VD (CurDeclContext P)
                    (leavesOf Name AccessPath)) as Hrefs.
      rewrite List.Forall_forall in Hrefs. apply Hrefs, HD.
    + assert (Hp : In (getAccessPath D)
                      (List.map snd (leavesOf Name AccessPath))).
      { apply Hin, in_map, HD. }
      apply in_map_iff in Hp as (L & HL & HinL).
      rewrite List.Forall_forall in Hpre.
      destruct (Hpre _ HinL) as [Suffix HS].
      exists Suffix. rewrite <- HL. exact HS.
  - apply Hnd', Hnd.
Qed.

End RefPaths.
